(** * ok/client/utils/encryption.py: the encrypted-text container format

    A shallow embedding of [encryption.py] and of the library functions it
    calls ([str] and [bytes] methods, [base64.b32encode] / [b32decode],
    [re.match] / [re.findall], [pyaes.AESModeOfOperationCTR]), followed by
    the properties of the format: the text-safety codec is a bijection on
    byte sequences, keys are recognised syntactically, and [decrypt] undoes
    [encrypt] up to trailing NUL characters. *)

From Stdlib Require Import Strings.String Strings.Ascii Strings.Byte.
From Stdlib Require Import NArith ZArith List Bool Lia.
Import ListNotations.
Local Open Scope N_scope.

(** ** Python values

    [bytes] is a sequence of octets; [str] is a sequence of Unicode code
    points.  Exceptions are named after the Python classes the code raises. *)

Definition bytes := list byte.
Definition str := list N.

Inductive exn : Type :=
| ValueError_cannot_pad (have : N) (want : Z)
    (* ValueError("Cannot pad data of length {} to size {}") *)
| ValueError_no_header
    (* ValueError("Invalid ciphertext: does not start with the header") *)
| ValueError_key_size           (* pyaes: ValueError('Invalid key size') *)
| binascii_Error_padding        (* binascii.Error('Incorrect padding') *)
| binascii_Error_digit          (* binascii.Error('Non-base32 digit found') *)
| OverflowError                 (* int.to_bytes: int too big to convert *)
| UnicodeEncodeError
| UnicodeDecodeError
| InvalidKeyException.

Inductive result (A : Type) : Type :=
| Ok (a : A)
| Raise (e : exn).
Arguments Ok {A} a.
Arguments Raise {A} e.

Definition bind {A B} (m : result A) (k : A -> result B) : result B :=
  match m with
  | Ok a => k a
  | Raise e => Raise e
  end.

Notation "x <- m ;; k" := (bind m (fun x => k))
  (at level 61, m at next level, right associativity).

(** Octets as numbers: [ord b] is the value of [b], [octet n] the byte of
    value [n mod 256]. *)
Definition ord (b : byte) : N := Byte.to_N b.

Definition octet (n : N) : byte :=
  match Byte.of_N (n mod 256) with
  | Some b => b
  | None => x00
  end.

Definition byte_eqb (a b : byte) : bool := ord a =? ord b.

(** A [bytes] literal [b"..."] and a [str] literal of ASCII text. *)
Definition b_ (s : string) : bytes := list_byte_of_string s.
Definition s_ (s : string) : str := map ord (list_byte_of_string s).

(** [len(x)] *)
Definition len {A} (x : list A) : N := N.of_nat (length x).

(** [x.startswith(prefix)] *)
Fixpoint startswith {A} (eqb : A -> A -> bool) (x prefix : list A)
  {struct prefix} : bool :=
  match prefix, x with
  | [], _ => true
  | p :: prefix', c :: x' => eqb c p && startswith eqb x' prefix'
  | _ :: _, [] => false
  end.

(** [x.rstrip(chars)]: drop every trailing element that belongs to [chars]. *)
Fixpoint rstrip {A} (eqb : A -> A -> bool) (chars x : list A) : list A :=
  match x with
  | [] => []
  | c :: x' =>
      match rstrip eqb chars x' with
      | [] => if existsb (eqb c) chars then [] else [c]
      | kept => c :: kept
      end
  end.

(** [x[-n:] = tail], a slice assignment at the end of a bytearray. *)
Definition set_tail {A} (x : list A) (n : nat) (tail : list A) : list A :=
  firstn (length x - n) x ++ tail.

(** [s.replace(old, new)] for one-character [old] and [new]. *)
Definition replace (old new : N) (s : str) : str :=
  map (fun c => if c =? old then new else c) s.

(** *** Codecs *)

(** [s.encode('utf-8')]: surrogates cannot be encoded. *)
Definition utf8_encode_char (c : N) : result bytes :=
  if c <? 0x80 then Ok [octet c]
  else if c <? 0x800 then
    Ok [octet (0xC0 + c / 64); octet (0x80 + c mod 64)]
  else if c <? 0x10000 then
    if (0xD800 <=? c) && (c <=? 0xDFFF) then Raise UnicodeEncodeError
    else Ok [octet (0xE0 + c / 4096); octet (0x80 + (c / 64) mod 64);
             octet (0x80 + c mod 64)]
  else if c <? 0x110000 then
    Ok [octet (0xF0 + c / 262144); octet (0x80 + (c / 4096) mod 64);
        octet (0x80 + (c / 64) mod 64); octet (0x80 + c mod 64)]
  else Raise UnicodeEncodeError.

Fixpoint utf8_encode (s : str) : result bytes :=
  match s with
  | [] => Ok []
  | c :: s' =>
      e <- utf8_encode_char c ;;
      e' <- utf8_encode s' ;;
      Ok (e ++ e')
  end.

Definition is_continuation (b : byte) : bool :=
  (0x80 <=? ord b) && (ord b <? 0xC0).

Definition payload (b : byte) : N := ord b - 0x80.

(** [b.decode('utf-8')], strict: truncated, overlong and surrogate
    sequences and values above U+10FFFF are rejected. *)
Fixpoint utf8_decode (b : bytes) : result str :=
  match b with
  | [] => Ok []
  | b0 :: t =>
      let x := ord b0 in
      if x <? 0x80 then
        s <- utf8_decode t ;; Ok (x :: s)
      else if x <? 0xC0 then Raise UnicodeDecodeError
      else if x <? 0xE0 then
        match t with
        | b1 :: t1 =>
            let c := (x - 0xC0) * 64 + payload b1 in
            if is_continuation b1 && (0x80 <=? c) then
              s <- utf8_decode t1 ;; Ok (c :: s)
            else Raise UnicodeDecodeError
        | _ => Raise UnicodeDecodeError
        end
      else if x <? 0xF0 then
        match t with
        | b1 :: b2 :: t2 =>
            let c := (x - 0xE0) * 4096 + payload b1 * 64 + payload b2 in
            if is_continuation b1 && is_continuation b2 && (0x800 <=? c)
               && negb ((0xD800 <=? c) && (c <=? 0xDFFF)) then
              s <- utf8_decode t2 ;; Ok (c :: s)
            else Raise UnicodeDecodeError
        | _ => Raise UnicodeDecodeError
        end
      else if x <? 0xF8 then
        match t with
        | b1 :: b2 :: b3 :: t3 =>
            let c := (x - 0xF0) * 262144 + payload b1 * 4096
                     + payload b2 * 64 + payload b3 in
            if is_continuation b1 && is_continuation b2 && is_continuation b3
               && (0x10000 <=? c) && (c <? 0x110000) then
              s <- utf8_decode t3 ;; Ok (c :: s)
            else Raise UnicodeDecodeError
        | _ => Raise UnicodeDecodeError
        end
      else Raise UnicodeDecodeError
  end.

(** [s.encode('ascii')] and [b.decode('ascii')]. *)
Fixpoint ascii_encode (s : str) : result bytes :=
  match s with
  | [] => Ok []
  | c :: s' =>
      if c <? 0x80 then e <- ascii_encode s' ;; Ok (octet c :: e)
      else Raise UnicodeEncodeError
  end.

Fixpoint ascii_decode (b : bytes) : result str :=
  match b with
  | [] => Ok []
  | c :: b' =>
      if ord c <? 0x80 then s <- ascii_decode b' ;; Ok (ord c :: s)
      else Raise UnicodeDecodeError
  end.

(** *** Case mapping

    CPython maps an all-ASCII string with the ASCII table and any other
    string with the Unicode case operation.  The Unicode operation depends on
    the Unicode database of the interpreter; it is a parameter of [upper] and
    [lower]. *)
Definition is_ascii (s : str) : bool := forallb (fun c => c <? 0x80) s.

Definition ascii_upper (c : N) : N :=
  if (0x61 <=? c) && (c <=? 0x7A) then c - 0x20 else c.

Definition ascii_lower (c : N) : N :=
  if (0x41 <=? c) && (c <=? 0x5A) then c + 0x20 else c.

Definition upper (unicode_upper : str -> str) (s : str) : str :=
  if is_ascii s then map ascii_upper s else unicode_upper s.

Definition lower (unicode_lower : str -> str) (s : str) : str :=
  if is_ascii s then map ascii_lower s else unicode_lower s.

(** ** base64: the base32 codec of the Python standard library *)

Module base64.

Definition _b32alphabet : bytes := b_ "ABCDEFGHIJKLMNOPQRSTUVWXYZ234567".

(** [_b32tab2 = [a + b for a in b32tab for b in b32tab]] *)
Definition _b32tab2 : list bytes :=
  flat_map (fun a => map (fun b => [a; b]) _b32alphabet) _b32alphabet.

(** [_b32rev = {v: k for k, v in enumerate(alphabet)}] *)
Fixpoint index_of (c : byte) (alphabet : bytes) (k : N) : option N :=
  match alphabet with
  | [] => None
  | v :: alphabet' => if byte_eqb v c then Some k else index_of c alphabet' (k + 1)
  end.

Definition _b32rev (c : byte) : option N := index_of c _b32alphabet 0.

(** [int.from_bytes(s)], big endian *)
Definition from_bytes (s : bytes) : N :=
  fold_left (fun acc b => acc * 256 + ord b) s 0.

(** [n.to_bytes(size)], big endian *)
Fixpoint big_endian (size : nat) (n : N) (low : bytes) : bytes :=
  match size with
  | O => low
  | S size' => big_endian size' (n / 256) (octet n :: low)
  end.

Definition to_bytes (n : N) (size : nat) : result bytes :=
  if n <? 2 ^ (8 * N.of_nat size) then Ok (big_endian size n [])
  else Raise OverflowError.

Definition encode_quantum (q : bytes) : bytes :=
  let c := from_bytes q in
  nth (N.to_nat (N.shiftr c 30)) _b32tab2 []
  ++ nth (N.to_nat (N.land (N.shiftr c 20) 0x3ff)) _b32tab2 []
  ++ nth (N.to_nat (N.land (N.shiftr c 10) 0x3ff)) _b32tab2 []
  ++ nth (N.to_nat (N.land c 0x3ff)) _b32tab2 [].

(** [for i in range(0, len(s), 5): encoded += ... s[i: i + 5] ...] *)
Fixpoint encode_quanta (s : bytes) : bytes :=
  match s with
  | [] => []
  | b0 :: b1 :: b2 :: b3 :: b4 :: rest =>
      encode_quantum [b0; b1; b2; b3; b4] ++ encode_quanta rest
  | short => encode_quantum short
  end.

Definition b32encode (s : bytes) : bytes :=
  let leftover := (length s mod 5)%nat in
  let s := if (leftover =? 0)%nat then s
           else s ++ repeat x00 (5 - leftover) in
  let encoded := encode_quanta s in
  match leftover with
  | 1%nat => set_tail encoded 6 (b_ "======")
  | 2%nat => set_tail encoded 4 (b_ "====")
  | 3%nat => set_tail encoded 3 (b_ "===")
  | 4%nat => set_tail encoded 1 (b_ "=")
  | _ => encoded
  end.

(** [for c in quanta: acc = (acc << 5) + b32rev[c]] *)
Fixpoint accumulate (quanta : bytes) (acc : N) : result N :=
  match quanta with
  | [] => Ok acc
  | c :: quanta' =>
      match _b32rev c with
      | Some d => accumulate quanta' (N.shiftl acc 5 + d)
      | None => Raise binascii_Error_digit
      end
  end.

(** The loop over the quanta [s[i: i + 8]]; returns [decoded] and the [acc]
    of the last iteration. *)
Fixpoint decode_quanta (s : bytes) (acc : N) : result (bytes * N) :=
  match s with
  | [] => Ok ([], acc)
  | c0 :: c1 :: c2 :: c3 :: c4 :: c5 :: c6 :: c7 :: rest =>
      a <- accumulate [c0; c1; c2; c3; c4; c5; c6; c7] 0 ;;
      d <- to_bytes a 5 ;;
      r <- decode_quanta rest a ;;
      Ok (d ++ fst r, snd r)
  | short =>
      a <- accumulate short 0 ;;
      d <- to_bytes a 5 ;;
      Ok (d, a)
  end.

Definition b32decode (s : bytes) : result bytes :=
  if negb (len s mod 8 =? 0) then Raise binascii_Error_padding
  else
    let l := len s in
    let s := rstrip byte_eqb (b_ "=") s in
    let padchars := l - len s in
    r <- decode_quanta s 0 ;;
    let decoded := fst r in
    let acc := snd r in
    if negb (l mod 8 =? 0)
       || negb (existsb (N.eqb padchars) [0; 1; 3; 4; 6])
    then Raise binascii_Error_padding
    else if negb (padchars =? 0) && negb (len decoded =? 0) then
      last <- to_bytes (N.shiftl acc (5 * padchars)) 5 ;;
      let leftover := (43 - 5 * padchars) / 8 in
      Ok (set_tail decoded 5 (firstn (N.to_nat leftover) last))
    else Ok decoded.

End base64.

(** ** re: the regular expressions the module uses

    A compiled pattern is a sequence of operations.  The patterns of the
    module consist of one-character items, counted repetitions of an item
    and the anchors [^] and [$], so a match at a position is unique. *)

Module re.

Inductive item : Type :=
| In (ranges : list (N * N))      (* a character set such as [a-z2-7] *)
| Literal (c : N).

Inductive op : Type :=
| Item (i : item)
| Repeat (n : nat) (i : item)     (* i{n} *)
| At_beginning                    (* ^ *)
| At_end.                         (* $ *)

Definition pattern := list op.

Definition item_matches (i : item) (c : N) : bool :=
  match i with
  | In ranges => existsb (fun r => (fst r <=? c) && (c <=? snd r)) ranges
  | Literal c' => c =? c'
  end.

Fixpoint match_repeat (i : item) (n : nat) (s : str) : option str :=
  match n with
  | O => Some s
  | S n' =>
      match s with
      | c :: s' => if item_matches i c then match_repeat i n' s' else None
      | [] => None
      end
  end.

(** [match_here p at_start s]: match [p] at the front of [s], which begins
    at the start of the subject string iff [at_start]; the result is the
    text left after the match.  [$] matches at the end of the string and
    before a newline that ends the string. *)
Fixpoint match_here (p : pattern) (at_start : bool) (s : str) : option str :=
  match p with
  | [] => Some s
  | Item i :: p' =>
      match s with
      | c :: s' => if item_matches i c then match_here p' false s' else None
      | [] => None
      end
  | Repeat n i :: p' =>
      match match_repeat i n s with
      | Some s' => match_here p' (at_start && (n =? 0)%nat) s'
      | None => None
      end
  | At_beginning :: p' => if at_start then match_here p' at_start s else None
  | At_end :: p' =>
      match s with
      | [] => match_here p' at_start s
      | [c] => if c =? 10 then match_here p' at_start s else None
      | _ => None
      end
  end.

(** [re.match(pattern, string)]: the text matched at the start of [string],
    or [None]. *)
Definition match_ (p : pattern) (s : str) : option str :=
  match match_here p true s with
  | Some rest => Some (firstn (length s - length rest) s)
  | None => None
  end.

(** [re.findall(pattern, string)]: scan from left to right; a match is
    recorded and the scan resumes where it ended.  [skip] counts the
    characters of the last match still to pass over. *)
Fixpoint scan (p : pattern) (skip : nat) (at_start : bool) (s : str)
  : list str :=
  match skip with
  | S skip' =>
      match s with
      | [] => []
      | _ :: s' => scan p skip' false s'
      end
  | O =>
      match match_here p at_start s with
      | Some rest =>
          let n := (length s - length rest)%nat in
          firstn n s ::
            match s with
            | [] => []
            | _ :: s' => scan p (n - 1) false s'
            end
      | None =>
          match s with
          | [] => []
          | _ :: s' => scan p 0 false s'
          end
      end
  end.

Definition findall (p : pattern) (s : str) : list str := scan p 0 true s.

End re.

(** ** pyaes: AES (FIPS-197) and its counter mode *)

Module pyaes.

(** Arithmetic of GF(2^8) modulo x^8 + x^4 + x^3 + x + 1. *)
Definition xtime (a : N) : N :=
  if a <? 0x80 then 2 * a else N.lxor (2 * a - 0x100) 0x1b.

Fixpoint gmul_loop (n : nat) (a b : N) : N :=
  match n with
  | O => 0
  | S n' => N.lxor (if N.odd b then a else 0) (gmul_loop n' (xtime a) (b / 2))
  end.

Definition gmul (a b : N) : N := gmul_loop 8 a b.

Fixpoint gpow (a : N) (n : nat) : N :=
  match n with
  | O => 1
  | S n' => gmul a (gpow a n')
  end.

Definition rotl8 (x k : N) : N :=
  N.lor (N.shiftl x k) (N.shiftr x (8 - k)) mod 256.

Definition sbox_entry (a : N) : N :=
  let b := gpow a 254 in
  N.lxor (N.lxor (N.lxor (N.lxor (N.lxor b (rotl8 b 1)) (rotl8 b 2))
                         (rotl8 b 3)) (rotl8 b 4)) 0x63.

(** The S-box ([AES.S] in pyaes), as a table. *)
Definition Sbox : list N :=
  Eval vm_compute in map (fun i => sbox_entry (N.of_nat i)) (seq 0 256).

Definition sub_byte (a : N) : N := nth (N.to_nat a) Sbox 0.

Fixpoint xor_list (a b : list N) : list N :=
  match a, b with
  | x :: a', y :: b' => N.lxor x y :: xor_list a' b'
  | _, _ => []
  end.

(** *** Key expansion: the words w[0 .. 4 * (rounds + 1) - 1] *)
Definition rot_word (w : list N) : list N :=
  match w with
  | a :: w' => w' ++ [a]
  | [] => []
  end.

Definition rcon (i : nat) : list N := [gpow 2 (i - 1); 0; 0; 0].

Fixpoint words (key : list N) : list (list N) :=
  match key with
  | a :: b :: c :: d :: key' => [a; b; c; d] :: words key'
  | _ => []
  end.

Fixpoint expand (count nk i : nat) (w : list (list N)) : list (list N) :=
  match count with
  | O => w
  | S count' =>
      let prev := nth (i - 1) w [] in
      let t :=
        if (i mod nk =? 0)%nat then
          xor_list (map sub_byte (rot_word prev)) (rcon (i / nk))
        else if ((6 <? nk) && (i mod nk =? 4))%nat then map sub_byte prev
        else prev in
      expand count' nk (S i) (w ++ [xor_list (nth (i - nk) w []) t])
  end.

Definition key_schedule (key : bytes) : list (list N) :=
  let nk := (length key / 4)%nat in
  expand (4 * (nk + 7) - nk) nk nk (words (map ord key)).

Definition round_key (w : list (list N)) (r : nat) : list N :=
  concat (firstn 4 (skipn (4 * r) w)).

(** *** The cipher on a state of 16 bytes, column by column *)
Definition shift_rows (st : list N) : list N :=
  map (fun i => nth ((i + 4 * (i mod 4)) mod 16) st 0) (seq 0 16).

Definition mix_column (col : list N) : list N :=
  match col with
  | [a0; a1; a2; a3] =>
      [ N.lxor (N.lxor (gmul 2 a0) (gmul 3 a1)) (N.lxor a2 a3);
        N.lxor (N.lxor a0 (gmul 2 a1)) (N.lxor (gmul 3 a2) a3);
        N.lxor (N.lxor a0 a1) (N.lxor (gmul 2 a2) (gmul 3 a3));
        N.lxor (N.lxor (gmul 3 a0) a1) (N.lxor a2 (gmul 2 a3)) ]
  | _ => col
  end.

Definition mix_columns (st : list N) : list N :=
  concat (map mix_column (words st)).

Fixpoint rounds (w : list (list N)) (n r : nat) (st : list N) : list N :=
  match n with
  | O => st
  | S n' =>
      rounds w n' (S r)
        (xor_list (mix_columns (shift_rows (map sub_byte st))) (round_key w r))
  end.

(** [AES(key).encrypt(block)] *)
Definition AES_encrypt (key block : bytes) : bytes :=
  let w := key_schedule key in
  let nr := (length key / 4 + 6)%nat in
  let st := rounds w (nr - 1) 1 (xor_list (map ord block) (round_key w 0)) in
  let st := shift_rows (map sub_byte st) in
  let k := round_key w nr in
  map (fun i => octet (N.lxor (nth i st 0) (nth i k 0))) (seq 0 16).

(** *** Counter mode

    The block cipher is a parameter: the mode only needs a function from a
    key and a block to a block. *)
Section Modes.

Variable block_encrypt : bytes -> bytes -> bytes.

(** [Counter]: a 128-bit big-endian counter; [increment] rolls over to 0. *)
Definition counter_value (n : N) : bytes :=
  map (fun i => octet (N.shiftr n (8 * N.of_nat i))) (rev (seq 0 16)).

Definition increment (n : N) : N := (n + 1) mod 2 ^ 128.

Record AESModeOfOperationCTR : Type := {
  _key : bytes;
  _counter : N;
  _remaining_counter : bytes
}.

(** [AESModeOfOperationCTR(key)]: the counter starts at 1. *)
Definition new (key : bytes) : result AESModeOfOperationCTR :=
  if existsb (Nat.eqb (length key)) [16; 24; 32]%nat then
    Ok {| _key := key; _counter := 1; _remaining_counter := [] |}
  else Raise ValueError_key_size.

(** [while len(self._remaining_counter) < len(plaintext): ...]; every
    iteration appends a block, so [fuel] iterations are enough for a text of
    [fuel] bytes when blocks are not empty. *)
Fixpoint refill (fuel : nat) (self : AESModeOfOperationCTR) (n : nat)
  : AESModeOfOperationCTR :=
  match fuel with
  | O => self
  | S fuel' =>
      if (length (_remaining_counter self) <? n)%nat then
        refill fuel'
          {| _key := _key self;
             _counter := increment (_counter self);
             _remaining_counter :=
               _remaining_counter self
               ++ block_encrypt (_key self) (counter_value (_counter self)) |}
          n
      else self
  end.

(** [[ (p ^ c) for (p, c) in zip(plaintext, self._remaining_counter) ]] *)
Fixpoint xor_zip (p c : bytes) : bytes :=
  match p, c with
  | x :: p', y :: c' => octet (N.lxor (ord x) (ord y)) :: xor_zip p' c'
  | _, _ => []
  end.

Definition encrypt (self : AESModeOfOperationCTR) (plaintext : bytes)
  : bytes * AESModeOfOperationCTR :=
  let self := refill (length plaintext) self (length plaintext) in
  let encrypted := xor_zip plaintext (_remaining_counter self) in
  (encrypted,
   {| _key := _key self;
      _counter := _counter self;
      _remaining_counter :=
        skipn (length encrypted) (_remaining_counter self) |}).

(** AES-CTR is symmetric. *)
Definition decrypt (self : AESModeOfOperationCTR) (crypttext : bytes)
  : bytes * AESModeOfOperationCTR :=
  encrypt self crypttext.

End Modes.

End pyaes.

(** ** encryption.py *)

Section encryption.

(** The Unicode case operations of the interpreter and the block cipher of
    pyaes are the parameters of the module. *)
Variable unicode_upper unicode_lower : str -> str.
Variable AES : bytes -> bytes -> bytes.

Definition HEADER_TEXT : str :=
  s_ "OKPY ENCRYPTED FILE FOLLOWS" ++ [10] ++ repeat 45 100 ++ [10].

(** used to ensure that the key is correct (helps detect incorrect key
    usage) *)
Definition PLAINTEXT_PADDING : bytes := repeat "0"%byte 16.

(** matches keys: [[a-z2-7]{52}9999] *)
Definition KEY_PATTERN : re.pattern :=
  [ re.Repeat 52 (re.In [(97, 122); (50, 55)]);
    re.Item (re.Literal 57); re.Item (re.Literal 57);
    re.Item (re.Literal 57); re.Item (re.Literal 57) ].

Definition to_safe_string (unsafe_bytes : bytes) : result str :=
  s <- ascii_decode (base64.b32encode unsafe_bytes) ;;
  Ok (lower unicode_lower (replace 61 57 s)).

Definition from_safe_string (safe_string : str) : result bytes :=
  e <- ascii_encode (replace 57 61 (upper unicode_upper safe_string)) ;;
  base64.b32decode e.

(** [os.urandom] is passed in: [urandom n] is the draw of [n] bytes. *)
Definition generate_key (urandom : nat -> bytes) : result str :=
  to_safe_string (urandom 32%nat).

Definition is_valid_key (key : str) : bool :=
  match re.match_ ([re.At_beginning] ++ KEY_PATTERN ++ [re.At_end]) key with
  | Some _ => true
  | None => false
  end.

Definition get_keys (document : str) : list str :=
  re.findall KEY_PATTERN document.

Definition encode_and_pad (data : str) (to_length : option Z) : result bytes :=
  encoded <- utf8_encode data ;;
  match to_length with
  | None => Ok encoded
  | Some to_length =>
      if (to_length <? Z.of_N (len encoded))%Z then
        Raise (ValueError_cannot_pad (len encoded) to_length)
      else
        Ok (encoded
            ++ repeat x00 (Z.to_nat (to_length - Z.of_N (len encoded))))
  end.

Definition un_pad_and_decode (padded : bytes) : result str :=
  utf8_decode (rstrip byte_eqb [x00] padded).

Definition aes_mode_of_operation (key : str)
  : result pyaes.AESModeOfOperationCTR :=
  k <- from_safe_string key ;;
  pyaes.new k.

Definition encrypt (data key : str) (pad_length : option Z) : result str :=
  padded <- encode_and_pad data pad_length ;;
  let data_as_bytes := PLAINTEXT_PADDING ++ padded in
  mode <- aes_mode_of_operation key ;;
  let ciphertext := fst (pyaes.encrypt AES mode data_as_bytes) in
  safe <- to_safe_string ciphertext ;;
  Ok (HEADER_TEXT ++ safe).

Definition is_encrypted (encoded_ciphertext : str) : bool :=
  startswith N.eqb encoded_ciphertext HEADER_TEXT.

Definition decrypt (encoded_ciphertext key : str) : result str :=
  if negb (startswith N.eqb encoded_ciphertext HEADER_TEXT) then
    Raise ValueError_no_header
  else
    let ciphertext_no_header :=
      skipn (length HEADER_TEXT) encoded_ciphertext in
    ciphertext_no_header_bytes <- from_safe_string ciphertext_no_header ;;
    mode <- aes_mode_of_operation key ;;
    let padded_plaintext :=
      fst (pyaes.decrypt AES mode ciphertext_no_header_bytes) in
    if negb (startswith byte_eqb padded_plaintext PLAINTEXT_PADDING) then
      Raise InvalidKeyException
    else
      let plaintext := skipn (length PLAINTEXT_PADDING) padded_plaintext in
      un_pad_and_decode plaintext.

End encryption.

(** ** The vocabulary of the properties *)

(** *** Texts *)

(** The code points that UTF-8 encodes: the Unicode scalar values. *)
Definition scalar_value (c : N) : bool :=
  (c <? 0xD800) || ((0xDFFF <? c) && (c <? 0x110000)).

Definition utf8_text (s : str) : bool := forallb scalar_value s.

(** [s] does not end in a NUL character. *)
Definition no_trailing_NUL (s : str) : Prop := forall t, s <> t ++ [0].

(** *** Base-32 digits *)

(** The character of a digit, and the code point of its lower-case form. *)
Definition alpha (d : N) : byte := nth (N.to_nat d) base64._b32alphabet x00.

Definition lower_digit (d : N) : N := ascii_lower (ord (alpha d)).

(** The eight digits of a 40-bit number, most significant first. *)
Definition digits (c : N) : list N :=
  [ c / 32 / 32 / 32 / 32 / 32 / 32 / 32 mod 32;
    c / 32 / 32 / 32 / 32 / 32 / 32 mod 32;
    c / 32 / 32 / 32 / 32 / 32 mod 32;
    c / 32 / 32 / 32 / 32 mod 32;
    c / 32 / 32 / 32 mod 32;
    c / 32 / 32 mod 32;
    c / 32 mod 32;
    c mod 32 ].

(** A quantum is five bytes; it has eight digits. *)
Definition quantum (q : bytes) : Prop := length q = 5%nat.

Definition quantum_digits (q : bytes) : list N := digits (base64.from_bytes q).

(** The number of pad characters after a last quantum of [leftover]
    bytes. *)
Definition pad_count (leftover : nat) : nat :=
  match leftover with
  | 1 => 6
  | 2 => 4
  | 3 => 3
  | 4 => 1
  | _ => 0
  end%nat.

(** The last, short quantum filled with zero bytes, and the digits of it
    that the pad characters do not replace. *)
Definition zero_fill (tail : bytes) : bytes :=
  tail ++ repeat x00 (5 - length tail).

Definition tail_digits (tail : bytes) : list N :=
  match tail with
  | [] => []
  | _ => firstn (8 - pad_count (length tail)) (quantum_digits (zero_fill tail))
  end.

(** The number of digits in the encoding of [n] bytes. *)
Definition digit_count (n : nat) : nat :=
  (8 * (n / 5)
   + match n mod 5 with
     | 0 => 0
     | leftover => 8 - pad_count leftover
     end)%nat.

(** The safe string of an encoding: lower-case digits, then ['9']s. *)
Definition safe_text (ds : list N) (p : nat) : str :=
  map lower_digit ds ++ repeat 57 p.

(** *** The cipher *)

(** The key stream that a fresh mode object uses for a text of [n] bytes. *)
Definition key_stream (AES : bytes -> bytes -> bytes) (key : bytes) (n : nat)
  : bytes :=
  pyaes._remaining_counter
    (pyaes.refill AES n
       {| pyaes._key := key; pyaes._counter := 1;
          pyaes._remaining_counter := [] |} n).

(** *** Keys *)

(** The key format, in the words of the specification: 56 characters, 52
    from [[a-z2-7]] followed by ["9999"]. *)
Definition key_class (c : N) : bool :=
  ((97 <=? c) && (c <=? 122)) || ((50 <=? c) && (c <=? 55)).

Definition key_form (k : str) : bool :=
  (length k =? 56)%nat
  && forallb key_class (firstn 52 k)
  && forallb (N.eqb 57) (skipn 52 k).

(** A key starts here: 52 characters of the key class, then four ['9']s. *)
Definition key_here (s : str) : bool :=
  (56 <=? length s)%nat
  && forallb key_class (firstn 52 s)
  && forallb (N.eqb 57) (firstn 4 (skipn 52 s)).

(** The specification's reading of [get_keys]: the substrings of the
    document that have the key format, by position. *)
Definition key_occurrences (document : str) : list str :=
  map (fun i => firstn 56 (skipn i document))
    (filter (fun i => key_form (firstn 56 (skipn i document)))
       (seq 0 (length document))).

(** The same, position by position along the document. *)
Fixpoint keys_from (s : str) : list str :=
  match s with
  | [] => []
  | _ :: s' => if key_here s then firstn 56 s :: keys_from s' else keys_from s'
  end.

(** *** Concrete inputs

    The concrete runs use ASCII text, for which the Unicode case operation
    is never reached ([no_unicode] stands in its place), and the AES of
    [pyaes]. *)
Definition no_unicode (s : str) : str := s.

(** ["a" * 52 + "9999"]; the same key with its 52nd character changed to
    ['b']; and ["b" * 52 + "9999"]. *)
Definition key_a : str := repeat 97 52 ++ repeat 57 4.
Definition key_ab : str := repeat 97 51 ++ [98] ++ repeat 57 4.
Definition key_b : str := repeat 98 52 ++ repeat 57 4.

(** *** Exceptions and key sizes *)

(** The exceptions that decoding a safe string can raise. *)
Definition decoding_error (e : exn) : bool :=
  match e with
  | UnicodeEncodeError | binascii_Error_padding | binascii_Error_digit
  | OverflowError => true
  | _ => false
  end.

(** The key sizes that [pyaes] accepts. *)
Definition key_size_ok (n : nat) : bool :=
  existsb (Nat.eqb n) [16; 24; 32]%nat.

(** The container of ["hello"] under [key_a]. *)
Definition hello_encrypted : str :=
  Eval vm_compute in
    match encrypt no_unicode no_unicode pyaes.AES_encrypt (s_ "hello") key_a
            None with
    | Ok c => c
    | Raise _ => []
    end.

(** * Properties *)

(** ** Octets *)

Lemma ord_bound (b : byte) : ord b < 256.
Proof. unfold ord. pose proof (Byte.to_N_bounded b). lia. Qed.

Lemma ord_octet (n : N) : ord (octet n) = n mod 256.
Proof.
  unfold ord, octet. destruct (Byte.of_N (n mod 256)) eqn:E.
  - now apply Byte.to_of_N.
  - apply Byte.of_N_None_iff in E.
    pose proof (N.mod_upper_bound n 256). lia.
Qed.

Lemma ord_octet_small (n : N) : n < 256 -> ord (octet n) = n.
Proof. intros H. rewrite ord_octet. now apply N.mod_small. Qed.

Lemma octet_ord (b : byte) : octet (ord b) = b.
Proof.
  unfold octet. rewrite N.mod_small by apply ord_bound.
  unfold ord. now rewrite Byte.of_to_N.
Qed.

Lemma ord_inj (a b : byte) : ord a = ord b -> a = b.
Proof. intros H. rewrite <- (octet_ord a), <- (octet_ord b). now rewrite H. Qed.

Lemma byte_eqb_eq (a b : byte) : byte_eqb a b = true <-> a = b.
Proof.
  unfold byte_eqb. rewrite N.eqb_eq. split.
  - apply ord_inj.
  - now intros ->.
Qed.

Lemma byte_eqb_refl (a : byte) : byte_eqb a a = true.
Proof. now apply byte_eqb_eq. Qed.

Lemma len_app {A} (x y : list A) : len (x ++ y) = len x + len y.
Proof. unfold len. rewrite length_app. lia. Qed.

(** ** Sequences: [rstrip], [startswith] *)

Section Sequences.

Context {A : Type} (eqb : A -> A -> bool).
Hypothesis eqb_eq : forall a b, eqb a b = true <-> a = b.

Lemma startswith_app (p x : list A) : startswith eqb (p ++ x) p = true.
Proof.
  induction p as [|c p IH]; simpl; [reflexivity|].
  rewrite IH. now rewrite (proj2 (eqb_eq c c) eq_refl).
Qed.

Lemma startswith_prefix (x p : list A) :
  startswith eqb x p = true <-> exists rest, x = p ++ rest.
Proof.
  revert x. induction p as [|c p IH]; intros x; simpl.
  - split; [now exists x | reflexivity].
  - destruct x as [|d x].
    + split; [discriminate | now intros [r Hr]].
    + rewrite andb_true_iff, eqb_eq, IH. split.
      * intros [-> [r ->]]. now exists r.
      * intros [r Hr]. injection Hr as -> ->. split; [reflexivity | now exists r].
Qed.

Lemma startswith_firstn (x p : list A) :
  startswith eqb x p = true <-> firstn (length p) x = p.
Proof.
  rewrite startswith_prefix. split.
  - intros [r ->]. rewrite firstn_app, Nat.sub_diag, firstn_all. simpl.
    now rewrite app_nil_r.
  - intros H. exists (skipn (length p) x).
    rewrite <- H at 1. now rewrite firstn_skipn.
Qed.

Variable chars : list A.

Lemma rstrip_app_drop (x y : list A) :
  rstrip eqb chars y = [] -> rstrip eqb chars (x ++ y) = rstrip eqb chars x.
Proof.
  intros Hy. induction x as [|c x IH]; simpl; [assumption|].
  now rewrite IH.
Qed.

Lemma rstrip_app_keep (x y : list A) :
  rstrip eqb chars y <> [] ->
  rstrip eqb chars (x ++ y) = x ++ rstrip eqb chars y.
Proof.
  intros Hy. induction x as [|c x IH]; simpl; [reflexivity|].
  rewrite IH. destruct (x ++ rstrip eqb chars y) eqn:E; [|reflexivity].
  apply app_eq_nil in E. now destruct E.
Qed.

Lemma rstrip_repeat (c : A) (n : nat) :
  existsb (eqb c) chars = true -> rstrip eqb chars (repeat c n) = [].
Proof.
  intros Hc. induction n as [|n IH]; simpl; [reflexivity|].
  now rewrite IH, Hc.
Qed.

Lemma rstrip_snoc_keep (x : list A) (c : A) :
  existsb (eqb c) chars = false -> rstrip eqb chars (x ++ [c]) = x ++ [c].
Proof.
  intros Hc. rewrite rstrip_app_keep; simpl; now rewrite Hc.
Qed.

Lemma rstrip_snoc_drop (x : list A) (c : A) :
  existsb (eqb c) chars = true ->
  rstrip eqb chars (x ++ [c]) = rstrip eqb chars x.
Proof.
  intros Hc. apply rstrip_app_drop. simpl. now rewrite Hc.
Qed.

End Sequences.

Lemma Ok_inj {A} (a b : A) : Ok a = Ok b -> a = b.
Proof. now intros [= ->]. Qed.

(** ** UTF-8 *)

Lemma utf8_encode_char_total (c : N) :
  scalar_value c = true -> exists e, utf8_encode_char c = Ok e.
Proof.
  unfold scalar_value, utf8_encode_char. intros H.
  destruct (c <? 0x80) eqn:H1; [eauto|].
  destruct (c <? 0x800) eqn:H2; [eauto|].
  destruct (c <? 0x10000) eqn:H3.
  - destruct ((0xD800 <=? c) && (c <=? 0xDFFF)) eqn:H4; [|eauto].
    exfalso. rewrite andb_true_iff, !N.leb_le in H4.
    rewrite orb_true_iff, andb_true_iff, !N.ltb_lt in H. lia.
  - destruct (c <? 0x110000) eqn:H4; [eauto|].
    exfalso. rewrite N.ltb_ge in H3, H4.
    rewrite orb_true_iff, andb_true_iff, !N.ltb_lt in H. lia.
Qed.

Lemma utf8_encode_char_scalar (c : N) (e : bytes) :
  utf8_encode_char c = Ok e -> scalar_value c = true.
Proof.
  unfold scalar_value, utf8_encode_char.
  destruct (c <? 0x80) eqn:H1.
  { intros _. apply N.ltb_lt in H1. rewrite orb_true_iff, N.ltb_lt. lia. }
  destruct (c <? 0x800) eqn:H2.
  { intros _. apply N.ltb_lt in H2. rewrite orb_true_iff, N.ltb_lt. lia. }
  destruct (c <? 0x10000) eqn:H3.
  - destruct ((0xD800 <=? c) && (c <=? 0xDFFF)) eqn:H4; [discriminate|].
    intros _. rewrite andb_false_iff, !N.leb_gt in H4.
    rewrite orb_true_iff, andb_true_iff, !N.ltb_lt.
    apply N.ltb_lt in H3. lia.
  - destruct (c <? 0x110000) eqn:H4; [|discriminate].
    intros _. rewrite N.ltb_ge in H3. apply N.ltb_lt in H4.
    rewrite orb_true_iff, andb_true_iff, !N.ltb_lt. lia.
Qed.

Lemma utf8_encode_total (s : str) :
  utf8_text s = true -> exists e, utf8_encode s = Ok e.
Proof.
  induction s as [|c s IH]; simpl; [eauto|].
  rewrite andb_true_iff. intros [Hc Hs].
  destruct (utf8_encode_char_total c Hc) as [e ->].
  destruct (IH Hs) as [e' ->]. simpl. eauto.
Qed.

Lemma utf8_encode_text (s : str) (e : bytes) :
  utf8_encode s = Ok e -> utf8_text s = true.
Proof.
  revert e. induction s as [|c s IH]; simpl; intros e; [reflexivity|].
  destruct (utf8_encode_char c) as [ec|] eqn:Hc; simpl; [|discriminate].
  destruct (utf8_encode s) as [es|] eqn:Hs; simpl; [|discriminate].
  intros _. rewrite (utf8_encode_char_scalar _ _ Hc). now rewrite (IH es).
Qed.

Lemma utf8_encode_app (s t : str) (e f : bytes) :
  utf8_encode s = Ok e -> utf8_encode t = Ok f ->
  utf8_encode (s ++ t) = Ok (e ++ f).
Proof.
  revert e. induction s as [|c s IH]; simpl; intros e.
  - now intros [= <-].
  - destruct (utf8_encode_char c) as [ec|]; simpl; [|discriminate].
    destruct (utf8_encode s) as [es|]; simpl; [|discriminate].
    intros [= <-] Ht. rewrite (IH es eq_refl Ht). simpl.
    now rewrite app_assoc.
Qed.

(** Division and remainder by constants, for [lia]. *)
Ltac Zify.zify_post_hook ::= Z.to_euclidean_division_equations.

Lemma utf8_decode_char (c : N) (e rest : bytes) :
  utf8_encode_char c = Ok e ->
  utf8_decode (e ++ rest) = (s <- utf8_decode rest ;; Ok (c :: s)).
Proof.
  unfold utf8_encode_char.
  destruct (N.ltb_spec c 0x80) as [H1|H1].
  { intros E%Ok_inj; subst e. cbn beta iota zeta delta [utf8_decode app].
    rewrite (ord_octet_small c) by lia.
    destruct (N.ltb_spec c 0x80); [reflexivity | lia]. }
  destruct (N.ltb_spec c 0x800) as [H2|H2].
  { intros E%Ok_inj; subst e.
    assert (B0 : ord (octet (0xC0 + c / 64)) = 0xC0 + c / 64)
      by (apply ord_octet_small; lia).
    assert (B1 : ord (octet (0x80 + c mod 64)) = 0x80 + c mod 64)
      by (apply ord_octet_small; lia).
    cbn beta iota zeta delta [utf8_decode app].
  unfold is_continuation, payload. rewrite B0, B1.
    destruct (N.ltb_spec (0xC0 + c / 64) 0x80); [lia|].
    destruct (N.ltb_spec (0xC0 + c / 64) 0xC0); [lia|].
    destruct (N.ltb_spec (0xC0 + c / 64) 0xE0); [|lia].
    replace ((0xC0 + c / 64 - 0xC0) * 64 + (0x80 + c mod 64 - 0x80)) with c
      by lia.
    destruct (N.leb_spec 0x80 (0x80 + c mod 64)); [|lia].
    destruct (N.ltb_spec (0x80 + c mod 64) 0xC0); [|lia].
    destruct (N.leb_spec 0x80 c); [reflexivity | lia]. }
  destruct (N.ltb_spec c 0x10000) as [H3|H3].
  { destruct ((0xD800 <=? c) && (c <=? 0xDFFF)) eqn:H4; [discriminate|].
    intros E%Ok_inj; subst e.
    assert (E : c / 4096 = c / 64 / 64)
      by (rewrite N.Div0.div_div; reflexivity).
    assert (B0 : ord (octet (0xE0 + c / 4096)) = 0xE0 + c / 4096)
      by (apply ord_octet_small; lia).
    assert (B1 : ord (octet (0x80 + (c / 64) mod 64)) = 0x80 + (c / 64) mod 64)
      by (apply ord_octet_small; lia).
    assert (B2 : ord (octet (0x80 + c mod 64)) = 0x80 + c mod 64)
      by (apply ord_octet_small; lia).
    cbn beta iota zeta delta [utf8_decode app].
  unfold is_continuation, payload. rewrite B0, B1, B2.
    destruct (N.ltb_spec (0xE0 + c / 4096) 0x80); [lia|].
    destruct (N.ltb_spec (0xE0 + c / 4096) 0xC0); [lia|].
    destruct (N.ltb_spec (0xE0 + c / 4096) 0xE0); [lia|].
    destruct (N.ltb_spec (0xE0 + c / 4096) 0xF0); [|lia].
    replace ((0xE0 + c / 4096 - 0xE0) * 4096
             + (0x80 + (c / 64) mod 64 - 0x80) * 64
             + (0x80 + c mod 64 - 0x80)) with c by lia.
    rewrite H4.
    destruct (N.leb_spec 0x80 (0x80 + (c / 64) mod 64)); [|lia].
    destruct (N.ltb_spec (0x80 + (c / 64) mod 64) 0xC0); [|lia].
    destruct (N.leb_spec 0x80 (0x80 + c mod 64)); [|lia].
    destruct (N.ltb_spec (0x80 + c mod 64) 0xC0); [|lia].
    destruct (N.leb_spec 0x800 c); [reflexivity | lia]. }
  destruct (N.ltb_spec c 0x110000) as [H4|H4]; [|discriminate].
  intros E%Ok_inj; subst e.
  assert (E : c / 4096 = c / 64 / 64)
    by (rewrite N.Div0.div_div; reflexivity).
  assert (E' : c / 262144 = c / 4096 / 64)
    by (rewrite N.Div0.div_div; reflexivity).
  assert (B0 : ord (octet (0xF0 + c / 262144)) = 0xF0 + c / 262144)
    by (apply ord_octet_small; lia).
  assert (B1 : ord (octet (0x80 + (c / 4096) mod 64))
               = 0x80 + (c / 4096) mod 64)
    by (apply ord_octet_small; lia).
  assert (B2 : ord (octet (0x80 + (c / 64) mod 64)) = 0x80 + (c / 64) mod 64)
    by (apply ord_octet_small; lia).
  assert (B3 : ord (octet (0x80 + c mod 64)) = 0x80 + c mod 64)
    by (apply ord_octet_small; lia).
  cbn beta iota zeta delta [utf8_decode app].
  unfold is_continuation, payload. rewrite B0, B1, B2, B3.
  destruct (N.ltb_spec (0xF0 + c / 262144) 0x80); [lia|].
  destruct (N.ltb_spec (0xF0 + c / 262144) 0xC0); [lia|].
  destruct (N.ltb_spec (0xF0 + c / 262144) 0xE0); [lia|].
  destruct (N.ltb_spec (0xF0 + c / 262144) 0xF0); [lia|].
  destruct (N.ltb_spec (0xF0 + c / 262144) 0xF8); [|lia].
  replace ((0xF0 + c / 262144 - 0xF0) * 262144
           + (0x80 + (c / 4096) mod 64 - 0x80) * 4096
           + (0x80 + (c / 64) mod 64 - 0x80) * 64
           + (0x80 + c mod 64 - 0x80)) with c by lia.
  destruct (N.leb_spec 0x80 (0x80 + (c / 4096) mod 64)); [|lia].
  destruct (N.ltb_spec (0x80 + (c / 4096) mod 64) 0xC0); [|lia].
  destruct (N.leb_spec 0x80 (0x80 + (c / 64) mod 64)); [|lia].
  destruct (N.ltb_spec (0x80 + (c / 64) mod 64) 0xC0); [|lia].
  destruct (N.leb_spec 0x80 (0x80 + c mod 64)); [|lia].
  destruct (N.ltb_spec (0x80 + c mod 64) 0xC0); [|lia].
  destruct (N.leb_spec 0x10000 c); [|lia].
  destruct (N.ltb_spec c 0x110000); [reflexivity | lia].
Qed.

Lemma utf8_decode_encode (s : str) (e : bytes) :
  utf8_encode s = Ok e -> utf8_decode e = Ok s.
Proof.
  revert e. induction s as [|c s IH]; simpl; intros e.
  - now intros [= <-].
  - destruct (utf8_encode_char c) as [ec|] eqn:Hc; simpl; [|discriminate].
    destruct (utf8_encode s) as [es|] eqn:Hs; simpl; [|discriminate].
    intros E%Ok_inj; subst e.
    rewrite (utf8_decode_char _ _ _ Hc), (IH es eq_refl). reflexivity.
Qed.

(** NUL is the only code point whose encoding contains a zero byte. *)
Lemma utf8_encode_char_NUL : utf8_encode_char 0 = Ok [x00].
Proof. reflexivity. Qed.

Lemma utf8_encode_char_last (c : N) (e : bytes) :
  utf8_encode_char c = Ok e -> c <> 0 ->
  exists front b, e = front ++ [b] /\ ord b <> 0.
Proof.
  unfold utf8_encode_char.
  destruct (N.ltb_spec c 0x80).
  { intros E%Ok_inj Hc; subst e. exists [], (octet c). split; [reflexivity|].
    rewrite ord_octet_small; lia. }
  destruct (c <? 0x800).
  { intros E%Ok_inj Hc; subst e.
    exists [octet (0xC0 + c / 64)], (octet (0x80 + c mod 64)).
    split; [reflexivity|]. rewrite ord_octet_small; lia. }
  destruct (c <? 0x10000).
  { destruct ((0xD800 <=? c) && (c <=? 0xDFFF)); [discriminate|].
    intros E%Ok_inj Hc; subst e.
    exists [octet (0xE0 + c / 4096); octet (0x80 + (c / 64) mod 64)],
      (octet (0x80 + c mod 64)).
    split; [reflexivity|]. rewrite ord_octet_small; lia. }
  destruct (c <? 0x110000); [|discriminate].
  intros E%Ok_inj Hc; subst e.
  exists [octet (0xF0 + c / 262144); octet (0x80 + (c / 4096) mod 64);
          octet (0x80 + (c / 64) mod 64)], (octet (0x80 + c mod 64)).
  split; [reflexivity|]. rewrite ord_octet_small; lia.
Qed.

Lemma byte_eqb_x00 (b : byte) : byte_eqb b x00 = (ord b =? 0).
Proof. reflexivity. Qed.

Lemma rstrip_NUL_encode_char (c : N) (e : bytes) :
  utf8_encode_char c = Ok e -> c <> 0 -> rstrip byte_eqb [x00] e = e.
Proof.
  intros He Hc. destruct (utf8_encode_char_last c e He Hc) as (f & b & -> & Hb).
  apply rstrip_snoc_keep. simpl. rewrite byte_eqb_x00.
  apply N.eqb_neq in Hb. now rewrite Hb.
Qed.

Lemma utf8_encode_nil (s : str) : utf8_encode s = Ok [] -> s = [].
Proof.
  destruct s as [|c s]; [reflexivity|]. simpl.
  destruct (utf8_encode_char c) as [ec|] eqn:Hc; simpl; [|discriminate].
  destruct (utf8_encode s) as [es|]; simpl; [|discriminate].
  intros E%Ok_inj. apply app_eq_nil in E. destruct E as [-> _].
  exfalso. revert Hc. unfold utf8_encode_char.
  repeat match goal with
         | |- context [if ?b then _ else _] => destruct b
         end; discriminate.
Qed.

(** Stripping trailing NUL bytes of the encoding is stripping the trailing
    NUL characters of the text. *)
Lemma rstrip_NUL_encode (s : str) (e : bytes) :
  utf8_encode s = Ok e ->
  utf8_encode (rstrip N.eqb [0] s) = Ok (rstrip byte_eqb [x00] e).
Proof.
  revert e. induction s as [|c s IH]; intros e.
  - now intros [= <-].
  - cbn [utf8_encode].
    destruct (utf8_encode_char c) as [ec|] eqn:Hc; cbn [bind]; [|discriminate].
    destruct (utf8_encode s) as [es|] eqn:Hs; cbn [bind]; [|discriminate].
    intros E%Ok_inj; subst e. specialize (IH es eq_refl).
    cbn [rstrip]. destruct (rstrip N.eqb [0] s) as [|k kept] eqn:Hk.
    + apply Ok_inj in IH. rewrite rstrip_app_drop by (now symmetry).
      cbn [existsb]. rewrite orb_false_r.
      destruct (N.eqb_spec c 0) as [->|Hc0].
      * rewrite utf8_encode_char_NUL in Hc. apply Ok_inj in Hc. now subst ec.
      * rewrite (rstrip_NUL_encode_char c ec Hc Hc0).
        cbn [utf8_encode]. rewrite Hc. cbn [bind]. now rewrite app_nil_r.
    + assert (Hne : rstrip byte_eqb [x00] es <> []).
      { intros Hnil. rewrite Hnil in IH. now apply utf8_encode_nil in IH. }
      rewrite rstrip_app_keep by assumption.
      change (utf8_encode (c :: k :: kept))
        with (e <- utf8_encode_char c ;; e' <- utf8_encode (k :: kept) ;;
              Ok (e ++ e')).
      rewrite Hc, IH. reflexivity.
Qed.

Lemma rstrip_no_trailing_NUL (s : str) :
  no_trailing_NUL s -> rstrip N.eqb [0] s = s.
Proof.
  intros H. destruct s as [|c s] using rev_ind; [reflexivity|].
  apply rstrip_snoc_keep. simpl. rewrite orb_false_r. apply N.eqb_neq.
  intros ->. now apply (H s).
Qed.

Lemma un_pad_and_decode_padded (s : str) (e : bytes) (n : nat) :
  utf8_encode s = Ok e ->
  un_pad_and_decode (e ++ repeat x00 n) = Ok (rstrip N.eqb [0] s).
Proof.
  intros He. unfold un_pad_and_decode.
  rewrite rstrip_app_drop by (apply rstrip_repeat; reflexivity).
  apply utf8_decode_encode. now apply rstrip_NUL_encode.
Qed.

(** ** Base32 *)

(** Checking a property of the numbers below a bound by enumeration. *)
Lemma below_ext {B} (f g : N -> B) (n : nat) :
  map f (map N.of_nat (seq 0 n)) = map g (map N.of_nat (seq 0 n)) ->
  forall x, x < N.of_nat n -> f x = g x.
Proof.
  intros H x Hx. revert x Hx. rewrite map_ext_in_iff in H. intros x Hx. apply H.
  apply in_map_iff. exists (N.to_nat x). split; [apply N2Nat.id|].
  apply in_seq. lia.
Qed.

Lemma b32tab2_nth (x : N) :
  x < 1024 ->
  nth (N.to_nat x) base64._b32tab2 [] = [alpha (x / 32); alpha (x mod 32)].
Proof.
  apply (below_ext (fun x => nth (N.to_nat x) base64._b32tab2 [])
           (fun x => [alpha (x / 32); alpha (x mod 32)]) 1024).
  vm_compute. reflexivity.
Qed.

Lemma b32rev_alpha (d : N) : d < 32 -> base64._b32rev (alpha d) = Some d.
Proof.
  apply (below_ext (fun d => base64._b32rev (alpha d)) Some 32).
  vm_compute. reflexivity.
Qed.

Lemma alpha_not_pad (d : N) : d < 32 -> byte_eqb (alpha d) "="%byte = false.
Proof.
  apply (below_ext (fun d => byte_eqb (alpha d) "="%byte) (fun _ => false) 32).
  vm_compute. reflexivity.
Qed.

Lemma alpha_ascii (d : N) : d < 32 -> (ord (alpha d) <? 0x80) = true.
Proof.
  apply (below_ext (fun d => ord (alpha d) <? 0x80) (fun _ => true) 32).
  vm_compute. reflexivity.
Qed.

Lemma lower_digit_class (d : N) :
  d < 32 ->
  re.item_matches (re.In [(97, 122); (50, 55)]) (lower_digit d) = true.
Proof.
  apply (below_ext
           (fun d => re.item_matches (re.In [(97, 122); (50, 55)])
                       (lower_digit d)) (fun _ => true) 32).
  vm_compute. reflexivity.
Qed.

Lemma lower_digit_codec (d : N) :
  d < 32 ->
  (if lower_digit d =? 61 then 57 else lower_digit d) = lower_digit d
  /\ (lower_digit d <? 0x80) = true
  /\ ascii_upper (lower_digit d) <> 57
  /\ octet (ascii_upper (lower_digit d)) = alpha d
  /\ (ord (alpha d) =? 61) = false.
Proof.
  intros Hd.
  repeat split.
  - revert d Hd.
    apply (below_ext
             (fun d => if lower_digit d =? 61 then 57 else lower_digit d)
             lower_digit 32).
    vm_compute. reflexivity.
  - revert d Hd.
    apply (below_ext (fun d => lower_digit d <? 0x80) (fun _ => true) 32).
    vm_compute. reflexivity.
  - apply N.eqb_neq. revert d Hd.
    apply (below_ext (fun d => ascii_upper (lower_digit d) =? 57)
             (fun _ => false) 32).
    vm_compute. reflexivity.
  - revert d Hd.
    apply (below_ext (fun d => octet (ascii_upper (lower_digit d))) alpha 32).
    vm_compute. reflexivity.
  - revert d Hd.
    apply (below_ext (fun d => ord (alpha d) =? 61) (fun _ => false) 32).
    vm_compute. reflexivity.
Qed.

(** *** Integers and bytes *)

Lemma octet_eq (n : N) (b : byte) : n mod 256 = ord b -> octet n = b.
Proof.
  intros H. unfold octet. rewrite H. unfold ord. now rewrite Byte.of_to_N.
Qed.

Lemma from_bytes_5 (a b c d e : byte) :
  base64.from_bytes [a; b; c; d; e]
  = (((ord a * 256 + ord b) * 256 + ord c) * 256 + ord d) * 256 + ord e.
Proof. reflexivity. Qed.

Lemma from_bytes_5_bound (a b c d e : byte) :
  base64.from_bytes [a; b; c; d; e] < 2 ^ 40.
Proof.
  rewrite from_bytes_5.
  pose proof (ord_bound a). pose proof (ord_bound b). pose proof (ord_bound c).
  pose proof (ord_bound d). pose proof (ord_bound e).
  change (2 ^ 40) with 1099511627776. lia.
Qed.

Lemma to_bytes_5 (n : N) :
  n < 2 ^ 40 ->
  base64.to_bytes n 5
  = Ok [octet (n / 256 / 256 / 256 / 256); octet (n / 256 / 256 / 256);
        octet (n / 256 / 256); octet (n / 256); octet n].
Proof.
  intros H. unfold base64.to_bytes.
  change (2 ^ (8 * N.of_nat 5)) with (2 ^ 40).
  apply N.ltb_lt in H. rewrite H. reflexivity.
Qed.

Lemma to_bytes_from_bytes (a b c d e : byte) :
  base64.to_bytes (base64.from_bytes [a; b; c; d; e]) 5 = Ok [a; b; c; d; e].
Proof.
  rewrite to_bytes_5 by apply from_bytes_5_bound. rewrite from_bytes_5.
  pose proof (ord_bound a). pose proof (ord_bound b). pose proof (ord_bound c).
  pose proof (ord_bound d). pose proof (ord_bound e).
  repeat f_equal; apply octet_eq; lia.
Qed.

(** *** One quantum: five bytes, eight digits *)

Lemma digits_bound (c : N) : Forall (fun d => d < 32) (digits c).
Proof. unfold digits. repeat constructor; lia. Qed.

Lemma encode_quantum_digits (q : bytes) :
  base64.from_bytes q < 2 ^ 40 ->
  base64.encode_quantum q = map alpha (digits (base64.from_bytes q)).
Proof.
  unfold base64.encode_quantum. generalize (base64.from_bytes q) as c.
  intros c Hc. change (2 ^ 40) with 1099511627776 in Hc. cbv zeta.
  change 0x3ff with (N.ones 10). rewrite !N.land_ones, !N.shiftr_div_pow2.
  change (2 ^ 30) with 1073741824. change (2 ^ 20) with 1048576.
  change (2 ^ 10) with 1024.
  rewrite !b32tab2_nth by lia. unfold digits. cbn [map app].
  replace (c / 1073741824 / 32) with (c / 32 / 32 / 32 / 32 / 32 / 32 / 32 mod 32) by lia.
  replace ((c / 1073741824) mod 32) with (c / 32 / 32 / 32 / 32 / 32 / 32 mod 32) by lia.
  replace ((c / 1048576) mod 1024 / 32) with (c / 32 / 32 / 32 / 32 / 32 mod 32) by lia.
  replace (((c / 1048576) mod 1024) mod 32) with (c / 32 / 32 / 32 / 32 mod 32) by lia.
  replace ((c / 1024) mod 1024 / 32) with (c / 32 / 32 / 32 mod 32) by lia.
  replace (((c / 1024) mod 1024) mod 32) with (c / 32 / 32 mod 32) by lia.
  replace (c mod 1024 / 32) with (c / 32 mod 32) by lia.
  replace ((c mod 1024) mod 32) with (c mod 32) by lia.
  reflexivity.
Qed.

Lemma accumulate_alpha (ds : list N) (acc : N) :
  Forall (fun d => d < 32) ds ->
  base64.accumulate (map alpha ds) acc
  = Ok (fold_left (fun a d => a * 32 + d) ds acc).
Proof.
  intros H. revert acc. induction H as [|d ds Hd _ IH]; intros acc.
  - reflexivity.
  - cbn [map base64.accumulate fold_left]. rewrite (b32rev_alpha d Hd).
    rewrite N.shiftl_mul_pow2. change (2 ^ 5) with 32. apply IH.
Qed.

(** Naming the quotients and remainders of the successive divisions by 32
    leaves linear arithmetic. *)
Ltac split_digit x q r :=
  let E := fresh "E" in
  let B := fresh "B" in
  pose proof (N.div_mod x 32 ltac:(discriminate)) as E;
  pose proof (N.mod_upper_bound x 32 ltac:(discriminate)) as B;
  set (q := x / 32) in *; set (r := x mod 32) in *; clearbody r.

Ltac split_digits c :=
  let q1 := fresh "q" in let r0 := fresh "r" in split_digit c q1 r0;
  let q2 := fresh "q" in let r1 := fresh "r" in split_digit q1 q2 r1;
  let q3 := fresh "q" in let r2 := fresh "r" in split_digit q2 q3 r2;
  let q4 := fresh "q" in let r3 := fresh "r" in split_digit q3 q4 r3;
  let q5 := fresh "q" in let r4 := fresh "r" in split_digit q4 q5 r4;
  let q6 := fresh "q" in let r5 := fresh "r" in split_digit q5 q6 r5;
  let q7 := fresh "q" in let r6 := fresh "r" in split_digit q6 q7 r6;
  let q8 := fresh "q" in let r7 := fresh "r" in split_digit q7 q8 r7;
  clearbody q1 q2 q3 q4 q5 q6 q7 q8.

Lemma digits_value (c : N) :
  c < 2 ^ 40 -> fold_left (fun a d => a * 32 + d) (digits c) 0 = c.
Proof.
  intros Hc. change (2 ^ 40) with 1099511627776 in Hc.
  unfold digits. cbn [fold_left]. split_digits c. lia.
Qed.

(** The digits kept before [p] pad characters hold [c] without its low
    [5 * p] bits. *)
Lemma digits_prefix_value (c : N) (k : nat) :
  c < 2 ^ 40 -> (k <= 8)%nat ->
  fold_left (fun a d => a * 32 + d) (firstn k (digits c)) 0
  = c / 32 ^ N.of_nat (8 - k).
Proof.
  intros Hc Hk. change (2 ^ 40) with 1099511627776 in Hc.
  destruct k as [|[|[|[|[|[|[|[|[|k]]]]]]]]]; [ .. | lia];
    unfold digits; cbn [firstn fold_left Nat.sub].
  - change (32 ^ N.of_nat 8) with (32 * 32 * 32 * 32 * 32 * 32 * 32 * 32).
    rewrite <- !N.Div0.div_div. split_digits c. lia.
  - change (32 ^ N.of_nat 7) with (32 * 32 * 32 * 32 * 32 * 32 * 32).
    rewrite <- !N.Div0.div_div. split_digits c. lia.
  - change (32 ^ N.of_nat 6) with (32 * 32 * 32 * 32 * 32 * 32).
    rewrite <- !N.Div0.div_div. split_digits c. lia.
  - change (32 ^ N.of_nat 5) with (32 * 32 * 32 * 32 * 32).
    rewrite <- !N.Div0.div_div. split_digits c. lia.
  - change (32 ^ N.of_nat 4) with (32 * 32 * 32 * 32).
    rewrite <- !N.Div0.div_div. split_digits c. lia.
  - change (32 ^ N.of_nat 3) with (32 * 32 * 32).
    rewrite <- !N.Div0.div_div. split_digits c. lia.
  - change (32 ^ N.of_nat 2) with (32 * 32).
    rewrite <- !N.Div0.div_div. split_digits c. lia.
  - change (32 ^ N.of_nat 1) with 32. split_digits c. lia.
  - change (32 ^ N.of_nat 0) with 1. rewrite N.div_1_r. split_digits c. lia.
Qed.

(** *** A byte sequence as full quanta and a short tail *)

Lemma quantum_inv (q : bytes) :
  quantum q -> exists a b c d e, q = [a; b; c; d; e].
Proof.
  unfold quantum.
  destruct q as [|a [|b [|c [|d [|e [|f q]]]]]]; try discriminate.
  intros _. now exists a, b, c, d, e.
Qed.

Lemma quanta_split (s : bytes) :
  exists qs tail,
    s = concat qs ++ tail /\ Forall quantum qs /\ (length tail < 5)%nat.
Proof.
  assert (H : forall n (s : bytes), (length s <= n)%nat ->
            exists qs tail,
              s = concat qs ++ tail /\ Forall quantum qs
              /\ (length tail < 5)%nat).
  { clear s. induction n as [|n IH]; intros s Hs.
    - destruct s; [|simpl in Hs; lia].
      exists [], []. repeat split; [constructor | simpl; lia].
    - destruct s as [|a [|b [|c [|d [|e rest]]]]];
        try (eexists [], _; repeat split; [constructor | simpl; lia]).
      destruct (IH rest) as (qs & tail & -> & Hq & Ht); [simpl in Hs; lia|].
      exists ([a; b; c; d; e] :: qs), tail.
      repeat split; [now constructor | assumption]. }
  now apply (H (length s)).
Qed.

Lemma quanta_length (qs : list bytes) :
  Forall quantum qs -> length (concat qs) = (5 * length qs)%nat.
Proof.
  induction 1 as [|q qs Hq _ IH]; [reflexivity|].
  simpl. rewrite length_app, IH, Hq. lia.
Qed.

Lemma encode_quantum_quantum (q : bytes) :
  quantum q -> base64.encode_quantum q = map alpha (quantum_digits q).
Proof.
  intros (a & b & c & d & e & ->)%quantum_inv.
  apply encode_quantum_digits, from_bytes_5_bound.
Qed.

Lemma encode_quanta_full (qs : list bytes) (tail : bytes) :
  Forall quantum qs ->
  base64.encode_quanta (concat qs ++ tail)
  = map alpha (flat_map quantum_digits qs) ++ base64.encode_quanta tail.
Proof.
  induction 1 as [|q qs Hq _ IH]; [reflexivity|].
  cbn [concat flat_map]. rewrite map_app, <- !app_assoc, <- IH.
  rewrite <- (encode_quantum_quantum q Hq).
  destruct (quantum_inv q Hq) as (a & b & c & d & e & ->). reflexivity.
Qed.

Lemma flat_digits_bound (qs : list bytes) :
  Forall (fun d => d < 32) (flat_map quantum_digits qs).
Proof.
  induction qs as [|q qs IH]; [constructor|].
  cbn [flat_map]. apply Forall_app. split; [apply digits_bound | assumption].
Qed.

Lemma flat_digits_length (qs : list bytes) :
  length (flat_map quantum_digits qs) = (8 * length qs)%nat.
Proof.
  induction qs as [|q qs IH]; [reflexivity|].
  cbn [flat_map]. rewrite length_app, IH. cbn [quantum_digits digits length]. lia.
Qed.

(** *** Decoding the digits of full quanta *)

Lemma bind_pair {A B} (m : result (A * B)) :
  (r <- m ;; Ok (fst r, snd r)) = m.
Proof. destruct m as [[a b]|]; reflexivity. Qed.

Lemma decode_quanta_digits (c : N) (rest : bytes) (a0 : N) :
  base64.decode_quanta (map alpha (digits c) ++ rest) a0
  = (a <- base64.accumulate (map alpha (digits c)) 0 ;;
     d <- base64.to_bytes a 5 ;;
     r <- base64.decode_quanta rest a ;;
     Ok (d ++ fst r, snd r)).
Proof. reflexivity. Qed.

Lemma decode_quanta_full (qs : list bytes) (rest : bytes) (a0 : N) :
  Forall quantum qs ->
  exists a,
    base64.decode_quanta (map alpha (flat_map quantum_digits qs) ++ rest) a0
    = (r <- base64.decode_quanta rest a ;; Ok (concat qs ++ fst r, snd r)).
Proof.
  intros H. revert a0. induction H as [|q qs Hq _ IH]; intros a0.
  - exists a0. cbn [flat_map map app concat]. now rewrite bind_pair.
  - destruct (quantum_inv q Hq) as (a & b & c & d & e & ->).
    destruct (IH (base64.from_bytes [a; b; c; d; e])) as [a1 E].
    exists a1. cbn [flat_map concat]. rewrite map_app, <- app_assoc.
    unfold quantum_digits at 1. rewrite decode_quanta_digits.
    rewrite accumulate_alpha by apply digits_bound.
    rewrite digits_value by apply from_bytes_5_bound.
    cbn [bind]. rewrite to_bytes_from_bytes. cbn [bind]. rewrite E.
    destruct (base64.decode_quanta rest a1) as [[dd aa]|]; reflexivity.
Qed.

Lemma decode_quanta_short (s : bytes) (a0 : N) :
  s <> [] -> (length s < 8)%nat ->
  base64.decode_quanta s a0
  = (a <- base64.accumulate s 0 ;; d <- base64.to_bytes a 5 ;; Ok (d, a)).
Proof.
  intros Hs Hl.
  destruct s as [|c0 [|c1 [|c2 [|c3 [|c4 [|c5 [|c6 [|c7 s]]]]]]]];
    try reflexivity; [contradiction | simpl in Hl; lia].
Qed.

Lemma rstrip_keep_all {A} (eqb : A -> A -> bool) (chars x : list A) :
  Forall (fun c => existsb (eqb c) chars = false) x ->
  rstrip eqb chars x = x.
Proof.
  induction 1 as [|c x Hc _ IH]; [reflexivity|].
  simpl. rewrite IH, Hc. now destruct x.
Qed.

Lemma rstrip_pad_digits (ds : list N) (p : nat) :
  Forall (fun d => d < 32) ds ->
  rstrip byte_eqb (b_ "=") (map alpha ds ++ repeat "="%byte p) = map alpha ds.
Proof.
  intros H. rewrite rstrip_app_drop by (apply rstrip_repeat; reflexivity).
  apply rstrip_keep_all. apply Forall_map.
  eapply Forall_impl; [|exact H]. intros d Hd. simpl.
  now rewrite (alpha_not_pad d Hd).
Qed.

(** *** The shape of an encoding: digits, then pad characters *)

Lemma set_tail_app {A} (x y tail : list A) (n : nat) :
  (n <= length y)%nat ->
  set_tail (x ++ y) n tail = x ++ firstn (length y - n) y ++ tail.
Proof.
  intros H. unfold set_tail. rewrite length_app, firstn_app.
  replace (length x + length y - n)%nat with (length x + (length y - n))%nat
    by lia.
  rewrite firstn_all2 by lia.
  replace (length x + (length y - n) - length x)%nat with (length y - n)%nat
    by lia.
  now rewrite app_assoc.
Qed.

Lemma b32encode_shape (qs : list bytes) (tail : bytes) :
  Forall quantum qs -> (length tail < 5)%nat ->
  base64.b32encode (concat qs ++ tail)
  = map alpha (flat_map quantum_digits qs ++ tail_digits tail)
    ++ repeat "="%byte (pad_count (length tail)).
Proof.
  intros Hq Ht. unfold base64.b32encode.
  rewrite length_app, (quanta_length qs Hq).
  replace (5 * length qs + length tail)%nat
    with (length tail + length qs * 5)%nat by lia.
  rewrite Nat.Div0.mod_add, Nat.mod_small by assumption.
  rewrite map_app.
  destruct tail as [|a [|b [|c [|d [|e tail]]]]];
    [ | | | | | simpl in Ht; lia ]; cbn [length Nat.eqb pad_count repeat];
    cbv zeta.
  - rewrite encode_quanta_full by assumption.
    cbn [tail_digits map base64.encode_quanta]. now rewrite !app_nil_r.
  - rewrite <- app_assoc, encode_quanta_full by assumption.
    change (base64.encode_quanta ([a] ++ repeat x00 (5 - 1)))
      with (base64.encode_quantum (zero_fill [a]) ++ []).
    rewrite app_nil_r, encode_quantum_quantum by reflexivity.
    rewrite set_tail_app by (rewrite length_map; simpl; lia).
    rewrite <- app_assoc. unfold tail_digits. now rewrite <- firstn_map.
  - rewrite <- app_assoc, encode_quanta_full by assumption.
    change (base64.encode_quanta ([a; b] ++ repeat x00 (5 - 2)))
      with (base64.encode_quantum (zero_fill [a; b]) ++ []).
    rewrite app_nil_r, encode_quantum_quantum by reflexivity.
    rewrite set_tail_app by (rewrite length_map; simpl; lia).
    rewrite <- app_assoc. unfold tail_digits. now rewrite <- firstn_map.
  - rewrite <- app_assoc, encode_quanta_full by assumption.
    change (base64.encode_quanta ([a; b; c] ++ repeat x00 (5 - 3)))
      with (base64.encode_quantum (zero_fill [a; b; c]) ++ []).
    rewrite app_nil_r, encode_quantum_quantum by reflexivity.
    rewrite set_tail_app by (rewrite length_map; simpl; lia).
    rewrite <- app_assoc. unfold tail_digits. now rewrite <- firstn_map.
  - rewrite <- app_assoc, encode_quanta_full by assumption.
    change (base64.encode_quanta ([a; b; c; d] ++ repeat x00 (5 - 4)))
      with (base64.encode_quantum (zero_fill [a; b; c; d]) ++ []).
    rewrite app_nil_r, encode_quantum_quantum by reflexivity.
    rewrite set_tail_app by (rewrite length_map; simpl; lia).
    rewrite <- app_assoc. unfold tail_digits. now rewrite <- firstn_map.
Qed.

Lemma Forall_firstn {A} (P : A -> Prop) (n : nat) (x : list A) :
  Forall P x -> Forall P (firstn n x).
Proof.
  intros H. revert n. induction H as [|a x Ha _ IH]; intros [|n]; simpl;
    try constructor; auto.
Qed.

Lemma tail_digits_bound (tail : bytes) :
  Forall (fun d => d < 32) (tail_digits tail).
Proof.
  unfold tail_digits. destruct tail; [constructor|].
  apply Forall_firstn, digits_bound.
Qed.

Lemma tail_digits_length (tail : bytes) :
  tail <> [] -> (length tail < 5)%nat ->
  (length (tail_digits tail) + pad_count (length tail) = 8)%nat.
Proof.
  intros Hn Hl.
  destruct tail as [|a [|b [|c [|d [|e tail]]]]];
    [contradiction | reflexivity .. | simpl in Hl; lia].
Qed.

(** *** Decoding an encoding *)

Lemma zero_fill_quantum (tail : bytes) :
  tail <> [] -> (length tail < 5)%nat -> quantum (zero_fill tail).
Proof.
  intros _ Hl. unfold quantum, zero_fill.
  rewrite length_app, repeat_length. lia.
Qed.

(** Shifting the kept digits back restores the zero-filled quantum, whose
    leading bytes are the tail. *)
Lemma tail_value (tail : bytes) :
  tail <> [] -> (length tail < 5)%nat ->
  let p := N.of_nat (pad_count (length tail)) in
  let c := base64.from_bytes (zero_fill tail) in
  N.shiftl (c / 32 ^ p) (5 * p) = c
  /\ firstn (N.to_nat ((43 - 5 * p) / 8)) (zero_fill tail) = tail.
Proof.
  intros Hn Hl.
  destruct tail as [|a [|b [|c [|d [|e tail]]]]];
    [contradiction | | | | | simpl in Hl; lia];
    (split; [|reflexivity]);
    cbv zeta; rewrite N.shiftl_mul_pow2;
    unfold zero_fill; cbn [length Nat.sub repeat app pad_count];
    rewrite from_bytes_5; change (ord x00) with 0.
  - pose proof (ord_bound a).
    change (32 ^ N.of_nat 6) with 1073741824.
    change (2 ^ (5 * N.of_nat 6)) with 1073741824. lia.
  - pose proof (ord_bound a). pose proof (ord_bound b).
    change (32 ^ N.of_nat 4) with 1048576.
    change (2 ^ (5 * N.of_nat 4)) with 1048576. lia.
  - pose proof (ord_bound a). pose proof (ord_bound b). pose proof (ord_bound c).
    change (32 ^ N.of_nat 3) with 32768.
    change (2 ^ (5 * N.of_nat 3)) with 32768. lia.
  - pose proof (ord_bound a). pose proof (ord_bound b). pose proof (ord_bound c).
    pose proof (ord_bound d).
    change (32 ^ N.of_nat 1) with 32.
    change (2 ^ (5 * N.of_nat 1)) with 32. lia.
Qed.

Lemma len_map {A B} (f : A -> B) (x : list A) : len (map f x) = len x.
Proof. unfold len. now rewrite length_map. Qed.

Lemma len_repeat {A} (a : A) (n : nat) : len (repeat a n) = N.of_nat n.
Proof. unfold len. now rewrite repeat_length. Qed.

Lemma len_app_cons {A} (x : list A) (a : A) (y : list A) :
  (len (x ++ a :: y) =? 0) = false.
Proof.
  apply N.eqb_neq. unfold len. rewrite length_app. simpl. lia.
Qed.

Lemma encoded_length_mod_8 (n t p : nat) :
  (t + p = 8 \/ t + p = 0)%nat ->
  (N.of_nat (8 * n + t) + N.of_nat p) mod 8 = 0.
Proof.
  intros [H|H].
  - replace (N.of_nat (8 * n + t) + N.of_nat p) with ((N.of_nat n + 1) * 8)
      by lia.
    apply N.Div0.mod_mul.
  - replace (N.of_nat (8 * n + t) + N.of_nat p) with (N.of_nat n * 8) by lia.
    apply N.Div0.mod_mul.
Qed.

Lemma b32decode_b32encode (s : bytes) :
  base64.b32decode (base64.b32encode s) = Ok s.
Proof.
  destruct (quanta_split s) as (qs & tail & -> & Hq & Ht).
  rewrite (b32encode_shape qs tail Hq Ht).
  assert (Hds : Forall (fun d => d < 32)
                  (flat_map quantum_digits qs ++ tail_digits tail))
    by (apply Forall_app; split;
        [apply flat_digits_bound | apply tail_digits_bound]).
  unfold base64.b32decode. rewrite (rstrip_pad_digits _ _ Hds).
  rewrite len_app, len_map, len_repeat.
  replace (len (flat_map quantum_digits qs ++ tail_digits tail)
           + N.of_nat (pad_count (length tail))
           - len (flat_map quantum_digits qs ++ tail_digits tail))
    with (N.of_nat (pad_count (length tail))) by lia.
  assert (Hlen : (len (flat_map quantum_digits qs ++ tail_digits tail)
                  + N.of_nat (pad_count (length tail))) mod 8 = 0).
  { unfold len. rewrite length_app, flat_digits_length.
    apply encoded_length_mod_8. destruct tail as [|t0 tail]; [now right|].
    left. now apply tail_digits_length. }
  rewrite Hlen. cbn [N.eqb negb orb].
  rewrite map_app.
  destruct (decode_quanta_full qs (map alpha (tail_digits tail)) 0 Hq)
    as [a0 ->].
  destruct tail as [|t0 tail].
  - cbn [tail_digits map base64.decode_quanta bind fst snd length pad_count].
    cbn. now rewrite !app_nil_r.
  - set (t := t0 :: tail) in *.
    assert (Hn : t <> []) by discriminate.
    pose proof (tail_digits_length t Hn Ht) as Hl.
    rewrite decode_quanta_short;
      [ | destruct (tail_digits t) eqn:E; [|discriminate];
          exfalso; clear - Hl E Ht;
          destruct t as [|a [|b [|c [|d [|e t]]]]]; simpl in *; lia
        | rewrite length_map;
          destruct t as [|a [|b [|c [|d [|e t]]]]]; simpl in *; lia ].
    rewrite accumulate_alpha by apply tail_digits_bound.
    unfold tail_digits. fold t.
    destruct t as [|t1 t'] eqn:Et; [contradiction|]. rewrite <- Et in *.
    destruct (quantum_inv _ (zero_fill_quantum t Hn Ht))
      as (x0 & x1 & x2 & x3 & x4 & Ez).
    assert (Hc : base64.from_bytes (zero_fill t) < 2 ^ 40)
      by (rewrite Ez; apply from_bytes_5_bound).
    unfold quantum_digits. rewrite digits_prefix_value by (assumption || lia).
    replace (N.of_nat (8 - (8 - pad_count (length t))))
      with (N.of_nat (pad_count (length t))) by lia.
    destruct (tail_value t Hn Ht) as [Hv Hf]. cbv zeta in Hv, Hf.
    set (c := base64.from_bytes (zero_fill t)) in *.
    set (p := N.of_nat (pad_count (length t))) in *.
    assert (Hs : c / 32 ^ p < 2 ^ 40).
    { apply N.le_lt_trans with c; [|assumption].
      apply N.Div0.div_le_upper_bound.
      pose proof (N.pow_nonzero 32 p ltac:(lia)). nia. }
    cbn [bind]. rewrite (to_bytes_5 _ Hs). cbn [bind fst snd].
    assert (Hp : existsb (N.eqb p) [0; 1; 3; 4; 6] = true
                 /\ (p =? 0) = false).
    { unfold p. clear - Hn Ht.
      destruct t as [|a [|b [|c [|d [|e t]]]]];
        [contradiction | split; reflexivity .. | simpl in Ht; lia]. }
    destruct Hp as [-> ->]. cbn [negb andb].
    rewrite len_app_cons. cbn [negb]. rewrite Hv.
    assert (Hto : base64.to_bytes c 5 = Ok (zero_fill t))
      by (unfold c; rewrite Ez; apply to_bytes_from_bytes).
    rewrite Hto. cbn [bind]. rewrite Hf.
    rewrite set_tail_app by (simpl; lia).
    cbn [length Nat.sub firstn app]. reflexivity.
Qed.

Lemma b32encode_digits (s : bytes) :
  exists ds,
    base64.b32encode s
    = map alpha ds ++ repeat "="%byte (pad_count (length s mod 5))
    /\ Forall (fun d => d < 32) ds
    /\ length ds = digit_count (length s).
Proof.
  destruct (quanta_split s) as (qs & tail & -> & Hq & Ht).
  assert (Hl : length (concat qs ++ tail)
               = (length tail + length qs * 5)%nat)
    by (rewrite length_app, (quanta_length qs Hq); unfold bytes; lia).
  assert (Hm : (length (concat qs ++ tail) mod 5 = length tail)%nat)
    by (now rewrite Hl, Nat.Div0.mod_add, Nat.mod_small).
  assert (Hd : (length (concat qs ++ tail) / 5 = length qs)%nat)
    by (rewrite Hl, Nat.div_add, Nat.div_small by lia; reflexivity).
  exists (flat_map quantum_digits qs ++ tail_digits tail).
  rewrite (b32encode_shape qs tail Hq Ht). unfold digit_count.
  rewrite Hm, Hd. split; [reflexivity|]. split.
  - apply Forall_app. split; [apply flat_digits_bound|apply tail_digits_bound].
  - rewrite !length_app, flat_digits_length.
    destruct tail as [|t0 tail]; [reflexivity|].
    pose proof (tail_digits_length (t0 :: tail) ltac:(discriminate) Ht).
    cbn [length] in *. unfold bytes in *. lia.
Qed.

Lemma forallb_map {A B} (f : B -> bool) (g : A -> B) (x : list A) :
  forallb f (map g x) = forallb (fun a => f (g a)) x.
Proof.
  induction x as [|a x IH]; [reflexivity|]. simpl. now rewrite IH.
Qed.

Lemma map_repeat_const {A B} (f : A -> B) (a : A) (n : nat) :
  map f (repeat a n) = repeat (f a) n.
Proof.
  induction n as [|n IH]; [reflexivity|]. simpl. now rewrite IH.
Qed.

Lemma upper_digit_ascii (d : N) :
  d < 32 -> (ascii_upper (lower_digit d) <? 0x80) = true.
Proof.
  apply (below_ext (fun d => ascii_upper (lower_digit d) <? 0x80)
           (fun _ => true) 32).
  vm_compute. reflexivity.
Qed.

(** ** The text-safety codec *)

Section Codec.

Variable unicode_upper unicode_lower : str -> str.

Lemma ascii_decode_digits (ds : list N) (p : nat) :
  Forall (fun d => d < 32) ds ->
  ascii_decode (map alpha ds ++ repeat "="%byte p)
  = Ok (map (fun d => ord (alpha d)) ds ++ repeat 61 p).
Proof.
  induction 1 as [|d ds Hd _ IH].
  - induction p as [|p IH]; [reflexivity|].
    cbn [map app repeat ascii_decode] in *. now rewrite IH.
  - cbn [map app ascii_decode]. now rewrite (alpha_ascii d Hd), IH.
Qed.

Lemma replace_repeat (old new : N) (n : nat) :
  replace old new (repeat old n) = repeat new n.
Proof.
  unfold replace.
  induction n as [|n IH]; [reflexivity|].
  cbn [repeat map]. now rewrite N.eqb_refl, IH.
Qed.

Lemma lower_safe (ds : list N) (p : nat) :
  Forall (fun d => d < 32) ds ->
  lower unicode_lower
    (replace 61 57 (map (fun d => ord (alpha d)) ds ++ repeat 61 p))
  = safe_text ds p.
Proof.
  intros H. unfold replace at 1. rewrite map_app.
  fold (replace 61 57 (repeat 61 p)). rewrite replace_repeat.
  assert (E : map (fun c => if c =? 61 then 57 else c)
                (map (fun d => ord (alpha d)) ds)
              = map (fun d => ord (alpha d)) ds).
  { rewrite map_map. apply map_ext_in. intros d Hd.
    rewrite Forall_forall in H.
    now rewrite (proj2 (proj2 (proj2 (proj2 (lower_digit_codec d (H d Hd)))))). }
  rewrite E. unfold lower, safe_text.
  assert (A : is_ascii (map (fun d => ord (alpha d)) ds ++ repeat 57 p) = true).
  { unfold is_ascii. rewrite forallb_app. apply andb_true_iff. split.
    - rewrite forallb_map. apply forallb_forall. intros d Hd.
      rewrite Forall_forall in H. exact (alpha_ascii d (H d Hd)).
    - apply forallb_forall. intros c Hc%repeat_spec. now subst c. }
  rewrite A, map_app, map_map.
  now rewrite map_repeat_const.
Qed.

Lemma to_safe_string_digits (s : bytes) (ds : list N) (p : nat) :
  base64.b32encode s = map alpha ds ++ repeat "="%byte p ->
  Forall (fun d => d < 32) ds ->
  to_safe_string unicode_lower s = Ok (safe_text ds p).
Proof.
  intros E H. unfold to_safe_string.
  rewrite E, (ascii_decode_digits ds p H). cbn [bind].
  now rewrite lower_safe.
Qed.

(** What [from_safe_string] hands to [b32decode]. *)
Lemma from_safe_string_digits (ds : list N) (p : nat) :
  Forall (fun d => d < 32) ds ->
  from_safe_string unicode_upper (safe_text ds p)
  = base64.b32decode (map alpha ds ++ repeat "="%byte p).
Proof.
  intros H. unfold from_safe_string, upper, safe_text.
  assert (A : is_ascii (map lower_digit ds ++ repeat 57 p) = true).
  { unfold is_ascii. rewrite forallb_app. apply andb_true_iff. split.
    - rewrite forallb_map. apply forallb_forall. intros d Hd.
      rewrite Forall_forall in H.
      exact (proj1 (proj2 (lower_digit_codec d (H d Hd)))).
    - apply forallb_forall. intros c Hc%repeat_spec. now subst c. }
  rewrite A.
  assert (E : ascii_encode
                (replace 57 61 (map ascii_upper (map lower_digit ds ++ repeat 57 p)))
              = Ok (map alpha ds ++ repeat "="%byte p)).
  { clear A. induction H as [|d ds Hd _ IH].
    - induction p as [|p IH]; [reflexivity|].
      cbn [map app repeat] in *. unfold replace in *. cbn [map] in *.
      change (ascii_upper 57 =? 57) with true. cbn [ascii_encode].
      change (61 <? 0x80) with true. cbv iota. rewrite IH. reflexivity.
    - cbn [map app]. unfold replace in *. cbn [map].
      destruct (lower_digit_codec d Hd) as (_ & _ & Hu & Ho & _).
      apply N.eqb_neq in Hu. rewrite Hu. cbn [ascii_encode].
      rewrite (upper_digit_ascii d Hd), IH. cbn [bind]. now rewrite Ho. }
  rewrite E. reflexivity.
Qed.

(** The codec is a bijection on byte sequences. *)
Lemma from_safe_string_to_safe_string (b : bytes) :
  (s <- to_safe_string unicode_lower b ;; from_safe_string unicode_upper s)
  = Ok b.
Proof.
  destruct (b32encode_digits b) as (ds & E & H & _).
  rewrite (to_safe_string_digits b ds _ E H). cbn [bind].
  rewrite (from_safe_string_digits ds _ H), <- E.
  apply b32decode_b32encode.
Qed.

End Codec.

(** ** Counter mode *)

Lemma lxor_octet (a b : N) : a < 256 -> b < 256 -> N.lxor a b < 256.
Proof.
  intros Ha Hb. destruct (N.eq_dec (N.lxor a b) 0) as [->|Hx]; [lia|].
  change 256 with (2 ^ 8). apply N.log2_lt_pow2; [lia|].
  apply N.le_lt_trans with (N.max (N.log2 a) (N.log2 b));
    [apply N.log2_lxor|].
  assert (La : N.log2 a < 8).
  { destruct (N.eq_dec a 0) as [->|]; [reflexivity|].
    apply N.log2_lt_pow2; [lia | exact Ha]. }
  assert (Lb : N.log2 b < 8).
  { destruct (N.eq_dec b 0) as [->|]; [reflexivity|].
    apply N.log2_lt_pow2; [lia | exact Hb]. }
  lia.
Qed.

Lemma xor_octet_involutive (x y : byte) :
  octet (N.lxor (ord (octet (N.lxor (ord x) (ord y)))) (ord y)) = x.
Proof.
  rewrite ord_octet_small by (apply lxor_octet; apply ord_bound).
  rewrite N.lxor_assoc, N.lxor_nilpotent, N.lxor_0_r. apply octet_ord.
Qed.

Lemma xor_zip_length (p c : bytes) :
  (length p <= length c)%nat -> length (pyaes.xor_zip p c) = length p.
Proof.
  revert c. induction p as [|x p IH]; intros [|y c] H; simpl in *;
    try reflexivity; try lia.
  now rewrite IH by lia.
Qed.

Lemma xor_zip_involutive (p c : bytes) :
  (length p <= length c)%nat -> pyaes.xor_zip (pyaes.xor_zip p c) c = p.
Proof.
  revert c. induction p as [|x p IH]; intros [|y c] H; simpl in *;
    try reflexivity; try lia.
  now rewrite xor_octet_involutive, IH by lia.
Qed.

Lemma xor_zip_firstn (p c : bytes) (n : nat) :
  pyaes.xor_zip (firstn n p) c = firstn n (pyaes.xor_zip p c).
Proof.
  revert p c. induction n as [|n IH]; intros [|x p] [|y c]; simpl;
    try reflexivity.
  now rewrite IH.
Qed.

Section Cipher.

Variable AES : bytes -> bytes -> bytes.
Hypothesis AES_block_size :
  forall key block, length (AES key block) = 16%nat.

(** The loop that extends the key stream stops with enough of it. *)
Lemma refill_enough (fuel : nat) (self : pyaes.AESModeOfOperationCTR)
    (n : nat) :
  (n <= length (pyaes._remaining_counter self) + fuel)%nat ->
  (n <= length (pyaes._remaining_counter (pyaes.refill AES fuel self n)))%nat.
Proof.
  revert self. induction fuel as [|fuel IH]; intros self H.
  - simpl. lia.
  - cbn [pyaes.refill].
    destruct (Nat.ltb_spec (length (pyaes._remaining_counter self)) n);
      [|assumption].
    apply IH. cbn [pyaes._remaining_counter].
    rewrite length_app, AES_block_size. lia.
Qed.

Lemma key_stream_length (key : bytes) (n : nat) :
  (n <= length (key_stream AES key n))%nat.
Proof. apply refill_enough. simpl. lia. Qed.

Lemma new_mode (key : bytes) :
  existsb (Nat.eqb (length key)) [16; 24; 32]%nat = true ->
  pyaes.new key
  = Ok {| pyaes._key := key; pyaes._counter := 1;
          pyaes._remaining_counter := [] |}.
Proof. intros H. unfold pyaes.new. now rewrite H. Qed.

Lemma encrypt_fresh (key plaintext : bytes) :
  fst (pyaes.encrypt AES
         {| pyaes._key := key; pyaes._counter := 1;
            pyaes._remaining_counter := [] |} plaintext)
  = pyaes.xor_zip plaintext (key_stream AES key (length plaintext)).
Proof. reflexivity. Qed.

Lemma encrypt_length (key plaintext : bytes) :
  length (pyaes.xor_zip plaintext (key_stream AES key (length plaintext)))
  = length plaintext.
Proof. apply xor_zip_length, key_stream_length. Qed.

(** Decrypting with a fresh mode object of the same key undoes
    encryption. *)
Lemma ctr_decrypt_encrypt (key plaintext : bytes) :
  let fresh := {| pyaes._key := key; pyaes._counter := 1;
                  pyaes._remaining_counter := [] |} in
  fst (pyaes.decrypt AES fresh (fst (pyaes.encrypt AES fresh plaintext)))
  = plaintext.
Proof.
  cbv zeta. unfold pyaes.decrypt. rewrite !encrypt_fresh, encrypt_length.
  apply xor_zip_involutive, key_stream_length.
Qed.

End Cipher.

(** ** Decoding arbitrary digits

    Every group of eight digits is the encoding of a quantum, so a string of
    digits and pad characters of the right length decodes, whatever the
    unused low bits of its last digit are. *)

Ltac split_byte x q r :=
  let E := fresh "E" in
  let B := fresh "B" in
  pose proof (N.div_mod x 256 ltac:(discriminate)) as E;
  pose proof (N.mod_upper_bound x 256 ltac:(discriminate)) as B;
  set (q := x / 256) in *; set (r := x mod 256) in *; clearbody r.

Lemma from_bytes_to_bytes (c : N) :
  c < 2 ^ 40 ->
  exists q, base64.to_bytes c 5 = Ok q /\ quantum q /\ base64.from_bytes q = c.
Proof.
  intros Hc. rewrite (to_bytes_5 c Hc). eexists. split; [reflexivity|].
  split; [reflexivity|].
  rewrite from_bytes_5, !ord_octet.
  change (2 ^ 40) with 1099511627776 in Hc.
  let q1 := fresh "q" in let r0 := fresh "r" in split_byte c q1 r0;
  let q2 := fresh "q" in let r1 := fresh "r" in split_byte q1 q2 r1;
  let q3 := fresh "q" in let r2 := fresh "r" in split_byte q2 q3 r2;
  let q4 := fresh "q" in let r3 := fresh "r" in split_byte q3 q4 r3;
  let q5 := fresh "q" in let r4 := fresh "r" in split_byte q4 q5 r4;
  clearbody q1 q2 q3 q4 q5.
  lia.
Qed.

Lemma div32_quot (x d : N) : d < 32 -> (x * 32 + d) / 32 = x.
Proof. intros H. lia. Qed.

Lemma div32_rem (x d : N) : d < 32 -> (x * 32 + d) mod 32 = d.
Proof. intros H. lia. Qed.

Lemma digits_of_value (d0 d1 d2 d3 d4 d5 d6 d7 : N) :
  Forall (fun d => d < 32) [d0; d1; d2; d3; d4; d5; d6; d7] ->
  let c := fold_left (fun a d => a * 32 + d) [d0; d1; d2; d3; d4; d5; d6; d7] 0
  in c < 2 ^ 40 /\ digits c = [d0; d1; d2; d3; d4; d5; d6; d7].
Proof.
  intros H.
  repeat match goal with
         | H : Forall _ (_ :: _) |- _ => inversion H; subst; clear H
         | H : Forall _ [] |- _ => clear H
         end.
  cbv zeta. cbn [fold_left]. split.
  - change (2 ^ 40) with 1099511627776. lia.
  - unfold digits.
    repeat first [ rewrite div32_rem by assumption
                 | rewrite div32_quot by assumption ].
    reflexivity.
Qed.

Lemma group_quantum (g : list N) :
  length g = 8%nat -> Forall (fun d => d < 32) g ->
  exists q, quantum q /\ quantum_digits q = g.
Proof.
  intros Hl H.
  destruct g as [|d0 [|d1 [|d2 [|d3 [|d4 [|d5 [|d6 [|d7 [|d8 g]]]]]]]]];
    try discriminate.
  destruct (digits_of_value d0 d1 d2 d3 d4 d5 d6 d7 H) as [Hc Hd].
  destruct (from_bytes_to_bytes _ Hc) as (q & _ & Hq & Hf).
  exists q. split; [assumption|]. unfold quantum_digits. now rewrite Hf.
Qed.

Lemma digit_groups (ds : list N) :
  Forall (fun d => d < 32) ds ->
  exists qs rest,
    ds = flat_map quantum_digits qs ++ rest
    /\ Forall quantum qs
    /\ (length rest < 8)%nat
    /\ Forall (fun d => d < 32) rest
    /\ length ds = (8 * length qs + length rest)%nat.
Proof.
  assert (H : forall n (ds : list N), (length ds <= n)%nat ->
            Forall (fun d => d < 32) ds ->
            exists qs rest,
              ds = flat_map quantum_digits qs ++ rest
              /\ Forall quantum qs
              /\ (length rest < 8)%nat
              /\ Forall (fun d => d < 32) rest
              /\ length ds = (8 * length qs + length rest)%nat).
  { clear ds. induction n as [|n IH]; intros ds Hn Hd.
    - destruct ds; [|simpl in Hn; lia].
      exists [], []. repeat split; [constructor | simpl; lia | constructor].
    - destruct (Nat.lt_ge_cases (length ds) 8) as [Hs|Hs].
      + exists [], ds.
        repeat split; [constructor | assumption | assumption].
      + rewrite <- (firstn_skipn 8 ds) in Hd. apply Forall_app in Hd.
        destruct Hd as [Hg Hr].
        destruct (group_quantum (firstn 8 ds)) as (q & Hq & Eq);
          [rewrite length_firstn; lia | assumption |].
        destruct (IH (skipn 8 ds)) as (qs & rest & E & Hqs & Hl & Hrest & El);
          [rewrite length_skipn; lia | assumption |].
        exists (q :: qs), rest. repeat split.
        * cbn [flat_map]. rewrite <- app_assoc, <- E, Eq.
          now rewrite firstn_skipn.
        * now constructor.
        * assumption.
        * assumption.
        * rewrite length_skipn in El. cbn [length]. lia. }
  intros Hd. now apply (H (length ds)).
Qed.

(** ** Keys *)

Lemma item_matches_key_class (c : N) :
  re.item_matches (re.In [(97, 122); (50, 55)]) c = key_class c.
Proof.
  unfold key_class. cbn [re.item_matches existsb fst snd].
  now rewrite orb_false_r.
Qed.

Lemma forallb_eqb_repeat (a : N) (x : list N) :
  forallb (N.eqb a) x = true -> x = repeat a (length x).
Proof.
  induction x as [|c x IH]; [reflexivity|]. simpl.
  rewrite andb_true_iff, N.eqb_eq. intros [<- H]. now rewrite <- IH.
Qed.

Lemma key_form_inv (k : str) :
  key_form k = true ->
  exists body,
    k = body ++ repeat 57 4 /\ length body = 52%nat
    /\ forallb key_class body = true.
Proof.
  unfold key_form. rewrite !andb_true_iff, Nat.eqb_eq.
  intros [[Hl Hb] Hs]. exists (firstn 52 k).
  apply forallb_eqb_repeat in Hs. rewrite length_skipn, Hl in Hs.
  split; [|split].
  - rewrite <- (firstn_skipn 52 k) at 1. now rewrite Hs.
  - rewrite length_firstn. lia.
  - assumption.
Qed.

Lemma key_form_intro (body : str) :
  length body = 52%nat -> forallb key_class body = true ->
  key_form (body ++ repeat 57 4) = true.
Proof.
  intros Hl Hb. unfold key_form.
  rewrite length_app, Hl. cbn [repeat length Nat.add Nat.eqb andb].
  rewrite firstn_app, skipn_app, Hl.
  rewrite firstn_all2, skipn_all2 by lia.
  change (52 - 52)%nat with 0%nat. cbn [firstn skipn app].
  rewrite app_nil_r. now rewrite Hb.
Qed.

(** The lower-case character of a digit, and the digit of a character of
    the key class. *)
Lemma lower_digit_value (d : N) :
  d < 32 -> lower_digit d = if d <? 26 then 97 + d else 24 + d.
Proof.
  apply (below_ext lower_digit (fun d => if d <? 26 then 97 + d else 24 + d)
           32).
  vm_compute. reflexivity.
Qed.

Lemma key_class_digit (c : N) :
  key_class c = true -> exists d, d < 32 /\ c = lower_digit d.
Proof.
  unfold key_class.
  rewrite orb_true_iff, !andb_true_iff, !N.leb_le. intros [[H1 H2]|[H1 H2]].
  - exists (c - 97). split; [lia|]. rewrite lower_digit_value by lia.
    destruct (N.ltb_spec (c - 97) 26); lia.
  - exists (c - 24). split; [lia|]. rewrite lower_digit_value by lia.
    destruct (N.ltb_spec (c - 24) 26); lia.
Qed.

Lemma lower_digit_key_class (d : N) : d < 32 -> key_class (lower_digit d) = true.
Proof.
  intros H. rewrite <- item_matches_key_class. now apply lower_digit_class.
Qed.

Lemma key_class_digits (body : str) :
  forallb key_class body = true ->
  exists ds,
    body = map lower_digit ds /\ Forall (fun d => d < 32) ds
    /\ length ds = length body.
Proof.
  induction body as [|c body IH]; simpl.
  - intros _. exists []. repeat split. constructor.
  - rewrite andb_true_iff. intros [Hc Hb].
    destruct (key_class_digit c Hc) as (d & Hd & ->).
    destruct (IH Hb) as (ds & -> & Hds & Hl).
    exists (d :: ds). repeat split; [now constructor | simpl; lia].
Qed.

(** A key of valid form is the safe text of 52 digits and four pads. *)
Lemma key_form_digits (k : str) :
  key_form k = true ->
  exists ds,
    k = safe_text ds 4 /\ Forall (fun d => d < 32) ds /\ length ds = 52%nat.
Proof.
  intros (body & -> & Hl & Hb)%key_form_inv.
  destruct (key_class_digits body Hb) as (ds & -> & Hds & Hlen).
  exists ds. repeat split; [assumption | lia].
Qed.

(** 52 digits and four pad characters decode to 32 bytes. *)
Lemma b32decode_key_digits (ds : list N) :
  Forall (fun d => d < 32) ds -> length ds = 52%nat ->
  exists kb,
    base64.b32decode (map alpha ds ++ repeat "="%byte 4) = Ok kb
    /\ length kb = 32%nat.
Proof.
  intros Hds Hl.
  destruct (digit_groups ds Hds) as (qs & rest & E & Hq & Hr & Hrest & El).
  assert (Hqs : length qs = 6%nat) by lia.
  assert (Hrl : length rest = 4%nat) by lia.
  destruct rest as [|r0 [|r1 [|r2 [|r3 [|r4 rest]]]]]; try discriminate.
  pose proof Hrest as Hb.
  apply Forall_cons_iff in Hb. destruct Hb as [Hr0 Hb].
  apply Forall_cons_iff in Hb. destruct Hb as [Hr1 Hb].
  apply Forall_cons_iff in Hb. destruct Hb as [Hr2 Hb].
  apply Forall_cons_iff in Hb. destruct Hb as [Hr3 _].
  unfold base64.b32decode.
  rewrite (rstrip_pad_digits _ 4 Hds), len_app, len_map, len_repeat.
  assert (Hlen : len ds = 52) by (unfold len; now rewrite Hl).
  rewrite Hlen.
  change ((52 + N.of_nat 4) mod 8 =? 0) with true.
  change (52 + N.of_nat 4 - 52) with 4.
  cbn [negb orb existsb N.eqb Pos.eqb andb].
  rewrite E, map_app.
  destruct (decode_quanta_full qs (map alpha [r0; r1; r2; r3]) 0 Hq)
    as [a0 ->].
  rewrite decode_quanta_short by (simpl; (discriminate || lia)).
  rewrite accumulate_alpha by assumption.
  cbn [fold_left bind].
  set (a := (((0 * 32 + r0) * 32 + r1) * 32 + r2) * 32 + r3).
  assert (Ha : a < 1048576) by (unfold a; lia).
  rewrite (to_bytes_5 a) by (change (2 ^ 40) with 1099511627776; lia).
  cbn [bind fst snd]. rewrite len_app_cons. cbn [negb].
  rewrite N.shiftl_mul_pow2. change (2 ^ (5 * 4)) with 1048576.
  rewrite (to_bytes_5 (a * 1048576))
    by (change (2 ^ 40) with 1099511627776; lia).
  cbn [bind]. eexists. split; [reflexivity|].
  change (N.to_nat ((43 - 5 * 4) / 8)) with 2%nat.
  rewrite set_tail_app by (simpl; lia).
  rewrite !length_app, (quanta_length qs Hq), Hqs. reflexivity.
Qed.

Section KeyBytes.

Variable unicode_upper : str -> str.

(** The key material of a key of valid form: 32 bytes. *)
Lemma from_safe_string_key (k : str) :
  key_form k = true ->
  exists kb, from_safe_string unicode_upper k = Ok kb /\ length kb = 32%nat.
Proof.
  intros (ds & -> & Hds & Hl)%key_form_digits.
  rewrite (from_safe_string_digits unicode_upper ds 4 Hds).
  now apply b32decode_key_digits.
Qed.

Lemma aes_mode_of_operation_key (k : str) :
  key_form k = true ->
  exists kb,
    from_safe_string unicode_upper k = Ok kb /\ length kb = 32%nat
    /\ aes_mode_of_operation unicode_upper k
       = Ok {| pyaes._key := kb; pyaes._counter := 1;
               pyaes._remaining_counter := [] |}.
Proof.
  intros (kb & E & Hl)%from_safe_string_key. exists kb.
  repeat split; try assumption.
  unfold aes_mode_of_operation. rewrite E. cbn [bind].
  apply new_mode. now rewrite Hl.
Qed.

End KeyBytes.

(** ** The protocol *)

Lemma skipn_app_exact {A} (x y : list A) : skipn (length x) (x ++ y) = y.
Proof.
  rewrite skipn_app, skipn_all, Nat.sub_diag. reflexivity.
Qed.

Lemma N_eqb_eq' (a b : N) : N.eqb a b = true <-> a = b.
Proof. apply N.eqb_eq. Qed.

Lemma encode_and_pad_None (data : str) (e : bytes) :
  utf8_encode data = Ok e ->
  encode_and_pad data None = Ok (e ++ repeat x00 0).
Proof.
  intros He. unfold encode_and_pad. rewrite He. cbn [bind repeat].
  now rewrite app_nil_r.
Qed.

Lemma encode_and_pad_Some (data : str) (e : bytes) (to_length : Z) :
  utf8_encode data = Ok e ->
  (Z.of_N (len e) <= to_length)%Z ->
  encode_and_pad data (Some to_length)
  = Ok (e ++ repeat x00 (Z.to_nat (to_length - Z.of_N (len e)))).
Proof.
  intros He Hn. unfold encode_and_pad. rewrite He. cbn [bind].
  destruct (Z.ltb_spec to_length (Z.of_N (len e))); [lia | reflexivity].
Qed.

Section Protocol.

Variable unicode_upper unicode_lower : str -> str.
Variable AES : bytes -> bytes -> bytes.
Hypothesis AES_block_size :
  forall key block, length (AES key block) = 16%nat.

(** The safe text of a ciphertext, as digits and pad characters. *)
Lemma safe_ciphertext (kb data_as_bytes : bytes) :
  let ciphertext :=
    pyaes.xor_zip data_as_bytes
      (key_stream AES kb (length data_as_bytes)) in
  exists ds p,
    Forall (fun d => d < 32) ds
    /\ base64.b32decode (map alpha ds ++ repeat "="%byte p) = Ok ciphertext
    /\ to_safe_string unicode_lower ciphertext = Ok (safe_text ds p).
Proof.
  cbv zeta.
  generalize (pyaes.xor_zip data_as_bytes
                (key_stream AES kb (length data_as_bytes))) as ciphertext.
  intros ciphertext.
  destruct (b32encode_digits ciphertext) as (ds & E & Hds & _).
  exists ds, (pad_count (length ciphertext mod 5)).
  split; [assumption|]. split.
  - rewrite <- E. apply b32decode_b32encode.
  - exact (to_safe_string_digits unicode_lower _ ds _ E Hds).
Qed.

Lemma encrypt_value (data key : str) (pad_length : option Z)
    (kb padded : bytes) :
  encode_and_pad data pad_length = Ok padded ->
  from_safe_string unicode_upper key = Ok kb ->
  length kb = 32%nat ->
  exists ds p,
    Forall (fun d => d < 32) ds
    /\ base64.b32decode (map alpha ds ++ repeat "="%byte p)
       = Ok (pyaes.xor_zip (PLAINTEXT_PADDING ++ padded)
               (key_stream AES kb (length (PLAINTEXT_PADDING ++ padded))))
    /\ encrypt unicode_upper unicode_lower AES data key pad_length
       = Ok (HEADER_TEXT ++ safe_text ds p).
Proof.
  intros Hp Hk Hl.
  destruct (safe_ciphertext kb (PLAINTEXT_PADDING ++ padded))
    as (ds & p & Hds & Hd & Hs).
  exists ds, p. split; [exact Hds|]. split; [exact Hd|].
  unfold encrypt. rewrite Hp. cbn [bind].
  unfold aes_mode_of_operation. rewrite Hk. cbn [bind].
  rewrite new_mode by (now rewrite Hl). cbn [bind].
  rewrite encrypt_fresh, Hs. reflexivity.
Qed.

(** What [decrypt] computes from a well-formed container. *)
Lemma decrypt_value (ds : list N) (p : nat) (key : str) (kb body : bytes) :
  Forall (fun d => d < 32) ds ->
  base64.b32decode (map alpha ds ++ repeat "="%byte p) = Ok body ->
  from_safe_string unicode_upper key = Ok kb ->
  length kb = 32%nat ->
  decrypt unicode_upper AES (HEADER_TEXT ++ safe_text ds p) key
  = let padded_plaintext :=
      pyaes.xor_zip body (key_stream AES kb (length body)) in
    if startswith byte_eqb padded_plaintext PLAINTEXT_PADDING then
      un_pad_and_decode (skipn (length PLAINTEXT_PADDING) padded_plaintext)
    else Raise InvalidKeyException.
Proof.
  intros Hds Hb Hk Hl. unfold decrypt.
  rewrite (startswith_app N.eqb N_eqb_eq'). cbn [negb].
  rewrite skipn_app_exact, (from_safe_string_digits _ ds p Hds), Hb.
  cbn [bind]. unfold aes_mode_of_operation. rewrite Hk. cbn [bind].
  rewrite new_mode by (now rewrite Hl). cbn [bind].
  unfold pyaes.decrypt. rewrite encrypt_fresh. cbv zeta.
  now destruct (startswith byte_eqb _ PLAINTEXT_PADDING).
Qed.

(** Decrypting with the key that encrypted. *)
Lemma decrypt_encrypt_padded (data key : str) (pad_length : option Z)
    (e : bytes) (n : nat) :
  key_form key = true ->
  utf8_encode data = Ok e ->
  encode_and_pad data pad_length = Ok (e ++ repeat x00 n) ->
  (c <- encrypt unicode_upper unicode_lower AES data key pad_length ;;
   decrypt unicode_upper AES c key)
  = Ok (rstrip N.eqb [0] data).
Proof.
  intros Hkey He Hp.
  destruct (from_safe_string_key unicode_upper key Hkey) as (kb & Hk & Hl).
  destruct (encrypt_value data key pad_length kb _ Hp Hk Hl)
    as (ds & p & Hds & Hd & ->).
  cbn [bind].
  rewrite (decrypt_value ds p key kb _ Hds Hd Hk Hl). cbv zeta.
  rewrite (encrypt_length AES AES_block_size).
  rewrite (xor_zip_involutive _ _ (key_stream_length AES AES_block_size _ _)).
  rewrite (startswith_app byte_eqb byte_eqb_eq), skipn_app_exact.
  now apply un_pad_and_decode_padded.
Qed.

End Protocol.

(** ** Matching the key pattern *)

Lemma match_repeat_eq (i : re.item) (n : nat) (s : str) :
  re.match_repeat i n s
  = if (n <=? length s)%nat && forallb (re.item_matches i) (firstn n s)
    then Some (skipn n s) else None.
Proof.
  revert s. induction n as [|n IH]; intros s; [reflexivity|].
  destruct s as [|c s]; [reflexivity|].
  cbn [re.match_repeat length firstn skipn forallb]. rewrite IH.
  change (S n <=? S (length s))%nat with (n <=? length s)%nat.
  destruct (re.item_matches i c); [reflexivity|].
  now rewrite andb_false_r.
Qed.

Lemma forallb_ext_eq {A} (f g : A -> bool) (x : list A) :
  (forall a, f a = g a) -> forallb f x = forallb g x.
Proof.
  intros H. induction x as [|a x IH]; [reflexivity|]. simpl.
  now rewrite H, IH.
Qed.

Lemma match_nines (q : re.pattern) (t : str) :
  re.match_here
    (re.Item (re.Literal 57) :: re.Item (re.Literal 57)
     :: re.Item (re.Literal 57) :: re.Item (re.Literal 57) :: q) false t
  = if (4 <=? length t)%nat && forallb (N.eqb 57) (firstn 4 t)
    then re.match_here q false (skipn 4 t) else None.
Proof.
  destruct t as [|c0 [|c1 [|c2 [|c3 t]]]];
    cbn [re.match_here re.item_matches length Nat.leb andb firstn skipn
           forallb];
    rewrite ?(N.eqb_sym 57);
    repeat match goal with
           | |- context [?c =? 57] => destruct (c =? 57)
           end; reflexivity.
Qed.

Lemma match_here_repeat (n : nat) (i : re.item) (p : re.pattern)
    (at_start : bool) (s : str) :
  re.match_here (re.Repeat n i :: p) at_start s
  = match re.match_repeat i n s with
    | Some s' => re.match_here p (at_start && (n =? 0)%nat) s'
    | None => None
    end.
Proof. reflexivity. Qed.

Lemma match_key_pattern (q : re.pattern) (at_start : bool) (s : str) :
  re.match_here (KEY_PATTERN ++ q) at_start s
  = if key_here s then re.match_here q false (skipn 56 s) else None.
Proof.
  unfold KEY_PATTERN, key_here.
  cbn [app]. rewrite match_here_repeat, match_repeat_eq.
  rewrite (forallb_ext_eq _ _ _ item_matches_key_class).
  destruct (Nat.leb_spec 52 (length s)) as [H52|H52].
  - destruct (forallb key_class (firstn 52 s)); cbn [andb]; cbv beta iota.
    + change (52 =? 0)%nat with false. rewrite andb_false_r.
      rewrite match_nines, length_skipn, skipn_skipn.
      change (4 + 52)%nat with 56%nat.
      replace (4 <=? length s - 52)%nat with (56 <=? length s)%nat
        by (destruct (Nat.leb_spec 56 (length s)),
                     (Nat.leb_spec 4 (length s - 52)); lia).
      now rewrite andb_true_r.
    + now rewrite andb_false_r.
  - cbn [andb]. cbv beta iota.
    destruct (Nat.leb_spec 56 (length s)); [lia | reflexivity].
Qed.

Lemma key_form_firstn (s : str) : key_form (firstn 56 s) = key_here s.
Proof.
  unfold key_form, key_here.
  rewrite length_firstn, firstn_firstn, skipn_firstn_comm.
  change (Nat.min 52 56) with 52%nat. change (56 - 52)%nat with 4%nat.
  replace (Nat.min 56 (length s) =? 56)%nat with (56 <=? length s)%nat;
    [reflexivity|].
  destruct (Nat.leb_spec 56 (length s)),
           (Nat.eqb_spec (Nat.min 56 (length s)) 56); lia.
Qed.

Lemma key_form_here (k : str) :
  key_form k = true -> key_here k = true /\ length k = 56%nat.
Proof.
  intros H. assert (Hl : length k = 56%nat).
  { unfold key_form in H. rewrite !andb_true_iff, Nat.eqb_eq in H. tauto. }
  split; [|assumption].
  rewrite <- key_form_firstn, firstn_all2 by lia. assumption.
Qed.

Lemma key_here_app (k rest : str) :
  key_form k = true -> key_here (k ++ rest) = true.
Proof.
  intros H. destruct (key_form_here k H) as [_ Hl].
  rewrite <- key_form_firstn, firstn_app, Hl, firstn_all2 by lia.
  change (56 - 56)%nat with 0%nat. cbn [firstn]. now rewrite app_nil_r.
Qed.

(** [is_valid_key] in terms of the key format. *)
Lemma is_valid_key_eq (key : str) :
  is_valid_key key
  = key_here key
    && match skipn 56 key with
       | [] => true
       | [c] => c =? 10
       | _ => false
       end.
Proof.
  unfold is_valid_key, re.match_. cbn [app re.match_here].
  change (re.At_beginning :: KEY_PATTERN ++ [re.At_end])
    with ([re.At_beginning] ++ KEY_PATTERN ++ [re.At_end]).
  cbn [app re.match_here].
  rewrite (match_key_pattern [re.At_end] true key).
  destruct (key_here key); cbn [andb]; [|reflexivity].
  cbn [re.match_here].
  destruct (skipn 56 key) as [|c [|c' t]]; try reflexivity.
  now destruct (c =? 10).
Qed.

Lemma is_valid_key_form (k : str) : key_form k = true -> is_valid_key k = true.
Proof.
  intros H. destruct (key_form_here k H) as [Hh Hl].
  rewrite is_valid_key_eq, Hh, skipn_all2 by lia. reflexivity.
Qed.

Lemma is_valid_key_newline (k : str) :
  key_form k = true -> is_valid_key (k ++ [10]) = true.
Proof.
  intros H. destruct (key_form_here k H) as [_ Hl].
  rewrite is_valid_key_eq, (key_here_app k [10] H).
  rewrite <- Hl, skipn_app_exact. reflexivity.
Qed.

(** The strings that [is_valid_key] accepts: the keys, and the keys followed
    by one newline. *)
Lemma is_valid_key_inv (key : str) :
  is_valid_key key = true ->
  key_form key = true
  \/ exists k, key = k ++ [10] /\ key_form k = true.
Proof.
  rewrite is_valid_key_eq, andb_true_iff. intros [Hh Ht].
  pose proof (firstn_skipn 56 key) as E.
  rewrite <- key_form_firstn in Hh.
  destruct (skipn 56 key) as [|c [|c' t]]; [| |discriminate].
  - left. rewrite app_nil_r in E. now rewrite <- E.
  - right. apply N.eqb_eq in Ht. subst c.
    exists (firstn 56 key). split; [now symmetry | assumption].
Qed.

(** ** Scanning a document for keys *)

Lemma key_occurrences_keys_from (document : str) :
  key_occurrences document = keys_from document.
Proof.
  unfold key_occurrences.
  induction document as [|c s IH]; [reflexivity|].
  cbn [length seq filter skipn keys_from]. rewrite key_form_firstn.
  rewrite <- seq_shift, filter_map_swap.
  destruct (key_here (c :: s)); cbn [map skipn]; rewrite map_map;
    cbn [skipn]; now rewrite IH.
Qed.

Lemma key_class_nine : key_class 57 = false.
Proof. reflexivity. Qed.

Lemma forallb_firstn_nth {A} (f : A -> bool) (n : nat) (s : list A)
    (i : nat) (d : A) :
  forallb f (firstn n s) = true -> (i < n)%nat -> (i < length s)%nat ->
  f (nth i s d) = true.
Proof.
  intros H Hn Hl. rewrite forallb_forall in H.
  replace (nth i s d) with (nth i (firstn n s) d).
  - apply H, nth_In. rewrite length_firstn. lia.
  - rewrite nth_firstn. destruct (Nat.ltb_spec i n); [reflexivity | lia].
Qed.

(** Two occurrences of a key never overlap: where a key starts, none
    starts at the 55 following positions. *)
Lemma key_here_apart (s : str) (j : nat) :
  key_here s = true -> (0 < j < 56)%nat -> key_here (skipn j s) = false.
Proof.
  intros H Hj. destruct (key_here (skipn j s)) eqn:H'; [|reflexivity].
  exfalso. unfold key_here in H, H'.
  rewrite !andb_true_iff, !Nat.leb_le in H, H'.
  destruct H as [[Hl Hc] Hn]. destruct H' as [[Hl' Hc'] Hn'].
  rewrite length_skipn in Hl'.
  set (p := Nat.max j 52).
  assert (Hp9 : nth p s 0 = 57).
  { pose proof (forallb_firstn_nth (N.eqb 57) 4 (skipn 52 s) (p - 52) 0 Hn
                  ltac:(lia) ltac:(rewrite length_skipn; lia)) as E.
    rewrite nth_skipn in E. apply N.eqb_eq in E.
    replace (52 + (p - 52))%nat with p in E by lia. now symmetry. }
  pose proof (forallb_firstn_nth key_class 52 (skipn j s) (p - j) 0 Hc'
                ltac:(lia) ltac:(rewrite length_skipn; lia)) as E.
  rewrite nth_skipn in E. replace (j + (p - j))%nat with p in E by lia.
  rewrite Hp9, key_class_nine in E. discriminate.
Qed.

Lemma key_here_nil : key_here [] = false.
Proof. reflexivity. Qed.

Lemma scan_keys (s : str) (skip : nat) (at_start : bool) :
  (forall j, (j < skip)%nat -> key_here (skipn j s) = false) ->
  re.scan KEY_PATTERN skip at_start s = keys_from s.
Proof.
  revert skip at_start. induction s as [|c s IH]; intros skip at_start H.
  - destruct skip as [|skip]; [|reflexivity].
    cbn [re.scan]. rewrite <- (app_nil_r KEY_PATTERN), match_key_pattern.
    rewrite key_here_nil. reflexivity.
  - destruct skip as [|skip].
    + cbn [re.scan keys_from].
      rewrite <- (app_nil_r KEY_PATTERN), match_key_pattern.
      destruct (key_here (c :: s)) eqn:Hk.
      * cbn [re.match_here].
        assert (Hl : (56 <= length (c :: s))%nat).
        { unfold key_here in Hk. rewrite !andb_true_iff, Nat.leb_le in Hk.
          tauto. }
        rewrite length_skipn.
        replace (length (c :: s) - (length (c :: s) - 56))%nat with 56%nat
          by lia.
        f_equal. change (56 - 1)%nat with 55%nat. apply IH.
        intros j Hj. change (skipn j s) with (skipn (S j) (c :: s)).
        apply key_here_apart; [assumption | lia].
      * apply IH. intros j Hj. lia.
    + cbn [re.scan keys_from].
      rewrite (H 0%nat ltac:(lia) : key_here (c :: s) = false).
      apply IH. intros j Hj. change (skipn j s) with (skipn (S j) (c :: s)).
      apply H. lia.
Qed.

(** [get_keys] returns every occurrence of a key, in order of appearance. *)
Lemma get_keys_occurrences (document : str) :
  get_keys document = key_occurrences document.
Proof.
  rewrite key_occurrences_keys_from. unfold get_keys, re.findall.
  apply scan_keys. intros j Hj. lia.
Qed.

Lemma key_here_short (s : str) : (length s < 56)%nat -> key_here s = false.
Proof.
  intros H. unfold key_here.
  destruct (Nat.leb_spec 56 (length s)); [lia | reflexivity].
Qed.

Lemma key_here_bad (s : str) (i : nat) :
  (i < 52)%nat -> (i < length s)%nat -> key_class (nth i s 0) = false ->
  key_here s = false.
Proof.
  intros Hi Hl Hc. destruct (key_here s) eqn:H; [|reflexivity].
  unfold key_here in H. rewrite !andb_true_iff in H.
  destruct H as [[_ H] _].
  now rewrite (forallb_firstn_nth key_class 52 s i 0 H Hi Hl) in Hc.
Qed.

(** A key between the words of a sentence is the one key found. *)
Lemma get_keys_embedded (k : str) :
  key_form k = true ->
  get_keys (s_ "prefix " ++ k ++ s_ " suffix") = [k].
Proof.
  intros Hk. destruct (key_form_here k Hk) as [_ Hl].
  rewrite get_keys_occurrences. unfold key_occurrences.
  set (doc := s_ "prefix " ++ k ++ s_ " suffix").
  assert (Hdoc : length doc = 70%nat)
    by (unfold doc; rewrite !length_app, Hl; reflexivity).
  assert (H7 : skipn 7 doc = k ++ s_ " suffix") by reflexivity.
  rewrite Hdoc.
  rewrite (filter_ext_in _ (fun i => (i =? 7)%nat)).
  - change (filter (fun i => (i =? 7)%nat) (seq 0 70)) with [7%nat].
    cbn [map]. rewrite H7, firstn_app, Hl, firstn_all2 by lia.
    change (56 - 56)%nat with 0%nat. cbn [firstn]. now rewrite app_nil_r.
  - intros i Hi%in_seq. rewrite key_form_firstn.
    destruct (Nat.eqb_spec i 7) as [->|Hne].
    + rewrite H7. now apply key_here_app.
    + destruct (Nat.lt_ge_cases i 7) as [Hlt|Hge].
      * apply (key_here_bad _ (6 - i));
          [lia | rewrite length_skipn; lia |].
        rewrite nth_skipn. replace (i + (6 - i))%nat with 6%nat by lia.
        reflexivity.
      * destruct (Nat.lt_ge_cases i 63) as [Hin|Hout].
        -- replace i with ((i - 7) + 7)%nat by lia.
           rewrite <- skipn_skipn, H7.
           apply key_here_apart; [now apply key_here_app | lia].
        -- apply key_here_short. rewrite length_skipn. lia.
Qed.

(** ** A second key *)

Lemma xor_zip_app (a b c d : bytes) :
  length a = length c ->
  pyaes.xor_zip (a ++ b) (c ++ d) = pyaes.xor_zip a c ++ pyaes.xor_zip b d.
Proof.
  revert c. induction a as [|x a IH]; intros [|y c] H; simpl in *;
    try discriminate; [reflexivity|].
  now rewrite IH by lia.
Qed.

Lemma xor_octet_cancel (x y z : byte) :
  octet (N.lxor (ord (octet (N.lxor (ord x) (ord y)))) (ord z)) = x -> y = z.
Proof.
  rewrite ord_octet_small by (apply lxor_octet; apply ord_bound).
  intros H. apply (f_equal ord) in H.
  rewrite ord_octet_small in H
    by (apply lxor_octet; [apply lxor_octet|]; apply ord_bound).
  apply ord_inj, N.lxor_eq.
  rewrite N.lxor_assoc in H.
  apply (f_equal (N.lxor (ord x))) in H.
  rewrite <- N.lxor_assoc, N.lxor_nilpotent, N.lxor_0_l in H.
  now rewrite H.
Qed.

Lemma xor_zip_cancel (p c c' : bytes) :
  length c = length p -> length c' = length p ->
  pyaes.xor_zip (pyaes.xor_zip p c) c' = p -> c = c'.
Proof.
  revert c c'. induction p as [|x p IH]; intros [|y c] [|z c'] H H' E;
    simpl in *; try discriminate; [reflexivity|].
  injection E as E1 E2. f_equal.
  - now apply (xor_octet_cancel x).
  - apply IH; (lia || assumption).
Qed.

Lemma AES_encrypt_block_size (key block : bytes) :
  length (pyaes.AES_encrypt key block) = 16%nat.
Proof.
  unfold pyaes.AES_encrypt. cbv zeta. now rewrite length_map, length_seq.
Qed.

Section OtherKey.

Variable unicode_upper unicode_lower : str -> str.
Variable AES : bytes -> bytes -> bytes.
Hypothesis AES_block_size :
  forall key block, length (AES key block) = 16%nat.

Lemma refill_extends (fuel : nat) (self : pyaes.AESModeOfOperationCTR)
    (n : nat) :
  exists more,
    pyaes._remaining_counter (pyaes.refill AES fuel self n)
    = pyaes._remaining_counter self ++ more.
Proof.
  revert self. induction fuel as [|fuel IH]; intros self.
  - exists []. simpl. now rewrite app_nil_r.
  - cbn [pyaes.refill].
    destruct (length (pyaes._remaining_counter self) <? n)%nat.
    + destruct (IH {| pyaes._key := pyaes._key self;
                      pyaes._counter := pyaes.increment (pyaes._counter self);
                      pyaes._remaining_counter :=
                        pyaes._remaining_counter self
                        ++ AES (pyaes._key self)
                             (pyaes.counter_value (pyaes._counter self)) |})
        as [more ->].
      cbn [pyaes._remaining_counter]. rewrite <- app_assoc. eauto.
    + exists []. now rewrite app_nil_r.
Qed.

(** The key stream starts with the block of counter 1. *)
Lemma key_stream_first_block (kb : bytes) (n : nat) :
  (0 < n)%nat ->
  exists more,
    key_stream AES kb n = AES kb (pyaes.counter_value 1) ++ more.
Proof.
  intros Hn. destruct n as [|n]; [lia|].
  unfold key_stream. cbn [pyaes.refill pyaes._remaining_counter length].
  change (0 <? S n)%nat with true. cbv iota.
  cbn [pyaes._key pyaes._counter app].
  destruct (refill_extends n
              {| pyaes._key := kb; pyaes._counter := pyaes.increment 1;
                 pyaes._remaining_counter :=
                   AES kb (pyaes.counter_value 1) |} (S n)) as [more ->].
  cbn [pyaes._remaining_counter]. eauto.
Qed.

(** The sentinel under two key streams: it survives only if their first
    blocks agree. *)
Lemma sentinel_under_two_keys (sentinel padded : bytes) (kb1 kb2 : bytes) :
  length sentinel = 16%nat ->
  AES kb1 (pyaes.counter_value 1) <> AES kb2 (pyaes.counter_value 1) ->
  let ciphertext :=
    pyaes.xor_zip (sentinel ++ padded)
      (key_stream AES kb1 (length (sentinel ++ padded))) in
  startswith byte_eqb
    (pyaes.xor_zip ciphertext (key_stream AES kb2 (length ciphertext)))
    sentinel = false.
Proof.
  intros Hs Hne. cbv zeta.
  rewrite (encrypt_length AES AES_block_size).
  assert (Hpos : (0 < length (sentinel ++ padded))%nat)
    by (rewrite length_app; lia).
  destruct (key_stream_first_block kb1 _ Hpos) as [m1 ->].
  destruct (key_stream_first_block kb2 _ Hpos) as [m2 ->].
  assert (H1 : length (pyaes.xor_zip sentinel
                         (AES kb1 (pyaes.counter_value 1))) = 16%nat).
  { rewrite xor_zip_length by (rewrite AES_block_size; lia). exact Hs. }
  assert (Hx : length (pyaes.xor_zip
                         (pyaes.xor_zip sentinel
                            (AES kb1 (pyaes.counter_value 1)))
                         (AES kb2 (pyaes.counter_value 1))) = 16%nat).
  { rewrite xor_zip_length by (rewrite AES_block_size; lia). exact H1. }
  rewrite xor_zip_app by (now rewrite AES_block_size).
  rewrite xor_zip_app by (now rewrite AES_block_size).
  destruct (startswith byte_eqb _ sentinel) eqn:E; [|reflexivity].
  exfalso. apply (startswith_firstn byte_eqb byte_eqb_eq) in E.
  rewrite firstn_app, Hx, Hs in E.
  rewrite firstn_all2 in E by lia.
  change (16 - 16)%nat with 0%nat in E.
  cbn [firstn] in E. rewrite app_nil_r in E.
  apply Hne. apply (xor_zip_cancel sentinel); rewrite ?AES_block_size; auto.
Qed.

(** Encrypting under one key and decrypting under another. *)
Lemma decrypt_other_key (data key1 key2 : str) (pad_length : option Z)
    (padded kb1 kb2 : bytes) :
  encode_and_pad data pad_length = Ok padded ->
  from_safe_string unicode_upper key1 = Ok kb1 -> length kb1 = 32%nat ->
  from_safe_string unicode_upper key2 = Ok kb2 -> length kb2 = 32%nat ->
  (c <- encrypt unicode_upper unicode_lower AES data key1 pad_length ;;
   decrypt unicode_upper AES c key2)
  = let ciphertext :=
      pyaes.xor_zip (PLAINTEXT_PADDING ++ padded)
        (key_stream AES kb1 (length (PLAINTEXT_PADDING ++ padded))) in
    let padded_plaintext :=
      pyaes.xor_zip ciphertext (key_stream AES kb2 (length ciphertext)) in
    if startswith byte_eqb padded_plaintext PLAINTEXT_PADDING then
      un_pad_and_decode (skipn (length PLAINTEXT_PADDING) padded_plaintext)
    else Raise InvalidKeyException.
Proof.
  intros Hp Hk1 Hl1 Hk2 Hl2.
  destruct (encrypt_value unicode_upper unicode_lower AES data key1
              pad_length kb1 padded Hp Hk1 Hl1) as (ds & p & Hds & Hd & ->).
  cbn [bind].
  exact (decrypt_value unicode_upper AES ds p key2 kb2 _ Hds Hd Hk2 Hl2).
Qed.

End OtherKey.

(** ** Trailing NULs *)

Lemma rstrip_NUL_spec (s : str) :
  exists n,
    s = rstrip N.eqb [0] s ++ repeat 0 n
    /\ no_trailing_NUL (rstrip N.eqb [0] s).
Proof.
  induction s as [|c s (n & E & H)].
  - exists 0%nat. split; [reflexivity|]. intros [|? ?]; discriminate.
  - cbn [rstrip]. destruct (rstrip N.eqb [0] s) as [|k kept] eqn:R.
    + cbn [existsb]. rewrite orb_false_r.
      destruct (N.eqb_spec c 0) as [->|Hc].
      * exists (S n). split; [now rewrite E at 1|].
        intros [|? ?]; discriminate.
      * exists n. split; [now rewrite E at 1|].
        intros [|? [|? ?]]; intros [= ]; congruence.
    + exists n. split; [now rewrite E at 1|].
      intros [|x t] Ht; [discriminate|].
      injection Ht as -> Ht. now apply (H t).
Qed.

Lemma key_occurrences_apart (document : str) (i j : nat) :
  (i < j)%nat ->
  key_form (firstn 56 (skipn i document)) = true ->
  key_form (firstn 56 (skipn j document)) = true ->
  (i + 56 <= j)%nat.
Proof.
  intros Hij Hi Hj. rewrite key_form_firstn in Hi, Hj.
  destruct (Nat.le_gt_cases (i + 56) j) as [|Hlt]; [assumption|].
  exfalso.
  pose proof (key_here_apart (skipn i document) (j - i) Hi ltac:(lia)) as E.
  rewrite skipn_skipn in E. replace (j - i + i)%nat with j in E by lia.
  congruence.
Qed.

(** The safe string of 32 bytes is a key. *)
Lemma to_safe_string_key (unicode_lower : str -> str) (b : bytes) :
  length b = 32%nat ->
  exists k,
    to_safe_string unicode_lower b = Ok k
    /\ key_form k = true /\ is_valid_key k = true.
Proof.
  intros Hb. destruct (b32encode_digits b) as (ds & E & Hds & Hl).
  rewrite Hb in E, Hl.
  change (pad_count (32 mod 5)) with 4%nat in E.
  change (digit_count 32) with 52%nat in Hl.
  exists (safe_text ds 4).
  split; [exact (to_safe_string_digits unicode_lower b ds 4 E Hds)|].
  assert (Hk : key_form (safe_text ds 4) = true).
  { apply key_form_intro; [now rewrite length_map|].
    rewrite forallb_map. apply forallb_forall. intros d Hd.
    rewrite Forall_forall in Hds. apply lower_digit_key_class, Hds, Hd. }
  split; [exact Hk | now apply is_valid_key_form].
Qed.

(** * The claims *)

Section Claims.

Variable unicode_upper unicode_lower : str -> str.
Variable AES : bytes -> bytes -> bytes.
Hypothesis AES_block_size :
  forall key block, length (AES key block) = 16%nat.

Local Abbreviation encrypt' := (encrypt unicode_upper unicode_lower AES).
Local Abbreviation decrypt' := (decrypt unicode_upper AES).

(** C1 (round trip).  For every key [k] of valid form and every text [s],
    with UTF-8 encoding [e], that does not end in NUL,
    [decrypt(encrypt(s, k), k) == s]; and for every pad length [n] with
    [len(e) <= n], [decrypt(encrypt(s, k, n), k) == s]. *)
Theorem decrypt_encrypt_roundtrip (s k : str) (e : bytes) :
  key_form k = true ->
  utf8_encode s = Ok e ->
  no_trailing_NUL s ->
  (c <- encrypt' s k None ;; decrypt' c k) = Ok s
  /\ forall n : Z,
       (Z.of_N (len e) <= n)%Z ->
       (c <- encrypt' s k (Some n) ;; decrypt' c k) = Ok s.
Proof.
  intros Hk He Hs. split; [|intros n Hn].
  - rewrite (decrypt_encrypt_padded unicode_upper unicode_lower AES
               AES_block_size s k None e 0 Hk He
               (encode_and_pad_None s e He)).
    now rewrite rstrip_no_trailing_NUL.
  - rewrite (decrypt_encrypt_padded unicode_upper unicode_lower AES
               AES_block_size s k (Some n) e _ Hk He
               (encode_and_pad_Some s e n He Hn)).
    now rewrite rstrip_no_trailing_NUL.
Qed.

(** C2 (text-safety codec).  For every byte sequence [b],
    [from_safe_string(to_safe_string(b)) == b]. *)
Theorem from_safe_string_inverts_to_safe_string (b : bytes) :
  (s <- to_safe_string unicode_lower b ;; from_safe_string unicode_upper s)
  = Ok b.
Proof. apply from_safe_string_to_safe_string. Qed.

(** C3, as amended (wrong key).  For keys [k1], [k2] of valid form whose key
    material gives different first key-stream blocks,
    [decrypt(encrypt(s, k1), k2)] raises [InvalidKeyException]; and
    [decrypt] raises it whenever the container and the key decode and the
    first 16 decrypted bytes are not the sentinel. *)
Theorem wrong_key_detection :
  (forall (s k1 k2 : str) (e kb1 kb2 : bytes),
      key_form k1 = true -> key_form k2 = true ->
      utf8_encode s = Ok e ->
      from_safe_string unicode_upper k1 = Ok kb1 ->
      from_safe_string unicode_upper k2 = Ok kb2 ->
      AES kb1 (pyaes.counter_value 1) <> AES kb2 (pyaes.counter_value 1) ->
      (c <- encrypt' s k1 None ;; decrypt' c k2) = Raise InvalidKeyException)
  /\ (forall (c k : str) (body : bytes) (mode : pyaes.AESModeOfOperationCTR),
         is_encrypted c = true ->
         from_safe_string unicode_upper (skipn (length HEADER_TEXT) c)
         = Ok body ->
         aes_mode_of_operation unicode_upper k = Ok mode ->
         firstn 16 (fst (pyaes.decrypt AES mode body)) <> PLAINTEXT_PADDING ->
         decrypt' c k = Raise InvalidKeyException).
Proof.
  split.
  - intros s k1 k2 e kb1 kb2 H1 H2 He E1 E2 Hne.
    destruct (from_safe_string_key unicode_upper k1 H1) as (kb1' & E1' & L1).
    destruct (from_safe_string_key unicode_upper k2 H2) as (kb2' & E2' & L2).
    rewrite E1 in E1'. apply Ok_inj in E1'. subst kb1'.
    rewrite E2 in E2'. apply Ok_inj in E2'. subst kb2'.
    rewrite (decrypt_other_key unicode_upper unicode_lower AES s k1 k2 None
               _ kb1 kb2 (encode_and_pad_None s e He) E1 L1 E2 L2).
    cbv zeta.
    now rewrite (sentinel_under_two_keys AES AES_block_size
                   PLAINTEXT_PADDING _ kb1 kb2 eq_refl Hne).
  - intros c k body mode Hc Hb Hm Hne. unfold decrypt.
    unfold is_encrypted in Hc. rewrite Hc, Hb, Hm. cbn [negb bind].
    destruct (startswith byte_eqb _ PLAINTEXT_PADDING) eqn:E; [|reflexivity].
    apply (startswith_firstn byte_eqb byte_eqb_eq) in E.
    now elim Hne.
Qed.

(** C4 (padding).  With [e] the UTF-8 encoding of [s]:
    [encrypt(s, k, pad_length=N)] raises the padding [ValueError] when
    [len(e) > N], whatever the key; otherwise [encode_and_pad(s, N)] is [e]
    followed by NUL bytes, [N] bytes in all. *)
Theorem padding_overflow (s k : str) (N : Z) (e : bytes) :
  utf8_encode s = Ok e ->
  ((N < Z.of_N (len e))%Z ->
   encrypt' s k (Some N) = Raise (ValueError_cannot_pad (len e) N))
  /\ ((Z.of_N (len e) <= N)%Z ->
      exists padded,
        encode_and_pad s (Some N) = Ok padded
        /\ padded = e ++ repeat x00 (Z.to_nat (N - Z.of_N (len e)))
        /\ Z.of_N (len padded) = N).
Proof.
  intros He. split; intros H.
  - unfold encrypt, encode_and_pad. rewrite He. cbn [bind].
    destruct (Z.ltb_spec N (Z.of_N (len e))); [reflexivity | lia].
  - eexists. split; [exact (encode_and_pad_Some s e N He H)|].
    split; [reflexivity|]. rewrite len_app, len_repeat. lia.
Qed.

(** C6 (generated keys).  The text-safety encoding of any 32 bytes is a key
    of valid form, which [is_valid_key] accepts; so is every generated
    key. *)
Theorem generated_key_valid :
  (forall b : bytes,
      length b = 32%nat ->
      exists k,
        to_safe_string unicode_lower b = Ok k
        /\ key_form k = true /\ is_valid_key k = true)
  /\ (forall urandom : nat -> bytes,
         (forall n, length (urandom n) = n) ->
         exists k,
           generate_key unicode_lower urandom = Ok k
           /\ is_valid_key k = true).
Proof.
  split; [exact (to_safe_string_key unicode_lower)|].
  intros urandom Hu.
  destruct (to_safe_string_key unicode_lower (urandom 32%nat) (Hu _))
    as (k & E & _ & V).
  now exists k.
Qed.

(** C7 (format detection).  [is_encrypted(t)] holds exactly when [t] starts
    with the header, which is the banner line, 100 dashes and a newline;
    whatever [encrypt] returns is recognised, and [encrypt] returns for
    every text and every key of valid form. *)
Theorem format_detection :
  (forall t, is_encrypted t = true <-> exists rest, t = HEADER_TEXT ++ rest)
  /\ HEADER_TEXT
     = s_ "OKPY ENCRYPTED FILE FOLLOWS" ++ [10] ++ repeat 45 100 ++ [10]
  /\ (forall s k pad_length c,
         encrypt' s k pad_length = Ok c -> is_encrypted c = true)
  /\ (forall s k e,
         key_form k = true -> utf8_encode s = Ok e ->
         exists c, encrypt' s k None = Ok c /\ is_encrypted c = true).
Proof.
  assert (Hh : forall x, is_encrypted (HEADER_TEXT ++ x) = true)
    by (intros x; apply (startswith_app N.eqb N_eqb_eq')).
  split; [|split; [reflexivity|split]].
  - intros t. apply (startswith_prefix N.eqb N_eqb_eq').
  - intros s k pad_length c. unfold encrypt.
    destruct (encode_and_pad s pad_length); cbn [bind]; [|discriminate].
    destruct (aes_mode_of_operation unicode_upper k); cbn [bind];
      [|discriminate].
    destruct (to_safe_string unicode_lower _); cbn [bind]; [|discriminate].
    intros E%Ok_inj. subst c. apply Hh.
  - intros s k e Hk He.
    destruct (from_safe_string_key unicode_upper k Hk) as (kb & Ek & Hl).
    destruct (encrypt_value unicode_upper unicode_lower AES s k None kb _
                (encode_and_pad_None s e He) Ek Hl) as (ds & p & _ & _ & ->).
    eexists. split; [reflexivity | apply Hh].
Qed.

(** C8 (trailing NULs).  For every key of valid form and every text [s],
    [decrypt(encrypt(s, k), k)] is [s] without its trailing NUL characters:
    [s] is the result followed by NULs only, and the result does not end in
    NUL.  [un_pad_and_decode] strips every trailing NUL byte before
    decoding. *)
Theorem trailing_NUL_stripped (s k : str) (e : bytes) :
  key_form k = true ->
  utf8_encode s = Ok e ->
  exists stripped n,
    (c <- encrypt' s k None ;; decrypt' c k) = Ok stripped
    /\ stripped = rstrip N.eqb [0] s
    /\ s = stripped ++ repeat 0 n
    /\ no_trailing_NUL stripped
    /\ (forall m, un_pad_and_decode (e ++ repeat x00 m) = Ok stripped)
    /\ (forall b, un_pad_and_decode b = utf8_decode (rstrip byte_eqb [x00] b)).
Proof.
  intros Hk He. destruct (rstrip_NUL_spec s) as (n & E & H).
  exists (rstrip N.eqb [0] s), n. repeat split; try assumption.
  - exact (decrypt_encrypt_padded unicode_upper unicode_lower AES
             AES_block_size s k None e 0 Hk He (encode_and_pad_None s e He)).
  - intros m. now apply un_pad_and_decode_padded.
Qed.

(** C9 (key scraping).  [get_keys(document)] is the list of the substrings
    of [document] of the key format, by position; two of them never
    overlap; and a generated key between ["prefix "] and [" suffix"] is the
    one key found. *)
Theorem get_keys_finds_all_keys :
  (forall document, get_keys document = key_occurrences document)
  /\ (forall document i j,
         (i < j)%nat ->
         key_form (firstn 56 (skipn i document)) = true ->
         key_form (firstn 56 (skipn j document)) = true ->
         (i + 56 <= j)%nat)
  /\ (forall b : bytes,
         length b = 32%nat ->
         exists k,
           to_safe_string unicode_lower b = Ok k
           /\ get_keys (s_ "prefix " ++ k ++ s_ " suffix") = [k]).
Proof.
  split; [exact get_keys_occurrences|]. split.
  - exact key_occurrences_apart.
  - intros b Hb.
    destruct (to_safe_string_key unicode_lower b Hb) as (k & E & Hk & _).
    exists k. split; [assumption | now apply get_keys_embedded].
Qed.

(** C10 (trailing newline).  For every key [k] of valid form,
    [is_valid_key(k + "\n")] is true as well. *)
Theorem is_valid_key_trailing_newline (k : str) :
  key_form k = true ->
  is_valid_key (k ++ [10]) = true /\ length (k ++ [10]) = 57%nat.
Proof.
  intros H. split; [now apply is_valid_key_newline|].
  destruct (key_form_here k H) as [_ Hl]. rewrite length_app, Hl. reflexivity.
Qed.

End Claims.

(** ** The claims on concrete inputs *)

Lemma hello_no_trailing_NUL : no_trailing_NUL (s_ "hello").
Proof.
  intros t Ht. apply (f_equal (fun x => last x 1)) in Ht.
  rewrite last_last in Ht. discriminate Ht.
Defined.

Lemma decrypt_encrypt_roundtrip_witness :
  key_form key_a = true
  /\ utf8_encode (s_ "hello") = Ok (b_ "hello")
  /\ no_trailing_NUL (s_ "hello")
  /\ ((c <- encrypt no_unicode no_unicode pyaes.AES_encrypt (s_ "hello")
              key_a None ;;
       decrypt no_unicode pyaes.AES_encrypt c key_a) = Ok (s_ "hello")
      /\ forall n : Z,
           (Z.of_N (len (b_ "hello")) <= n)%Z ->
           (c <- encrypt no_unicode no_unicode pyaes.AES_encrypt (s_ "hello")
                   key_a (Some n) ;;
            decrypt no_unicode pyaes.AES_encrypt c key_a) = Ok (s_ "hello")).
Proof.
  split; [reflexivity|]. split; [reflexivity|].
  split; [exact hello_no_trailing_NUL|].
  exact (decrypt_encrypt_roundtrip no_unicode no_unicode pyaes.AES_encrypt
           AES_encrypt_block_size (s_ "hello") key_a (b_ "hello")
           eq_refl eq_refl hello_no_trailing_NUL).
Defined.

(** C3, as stated, fails: [key_a] and [key_ab] are different keys of valid
    form with the same key material, and the second decrypts what the first
    encrypted. *)
Lemma wrong_key_accepted :
  key_form key_a = true /\ key_form key_ab = true
  /\ is_valid_key key_a = true /\ is_valid_key key_ab = true
  /\ key_a <> key_ab
  /\ from_safe_string no_unicode key_a = from_safe_string no_unicode key_ab
  /\ (c <- encrypt no_unicode no_unicode pyaes.AES_encrypt (s_ "hello")
             key_a None ;;
      decrypt no_unicode pyaes.AES_encrypt c key_ab) = Ok (s_ "hello").
Proof.
  split; [reflexivity|]. split; [reflexivity|].
  split; [reflexivity|]. split; [reflexivity|].
  split; [discriminate|]. split; [reflexivity|].
  vm_compute. reflexivity.
Qed.

Lemma wrong_key_detection_witness :
  key_form key_a = true /\ key_form key_b = true
  /\ (c <- encrypt no_unicode no_unicode pyaes.AES_encrypt (s_ "hello")
             key_a None ;;
      decrypt no_unicode pyaes.AES_encrypt c key_b)
     = Raise InvalidKeyException.
Proof.
  split; [reflexivity|]. split; [reflexivity|].
  refine (proj1 (wrong_key_detection no_unicode no_unicode pyaes.AES_encrypt
                   AES_encrypt_block_size)
            (s_ "hello") key_a key_b (b_ "hello") _ _
            eq_refl eq_refl eq_refl _ _ _).
  - vm_compute. reflexivity.
  - vm_compute. reflexivity.
  - intros H. vm_compute in H. discriminate H.
Defined.

Lemma padding_overflow_witness :
  utf8_encode (s_ "hello") = Ok (b_ "hello")
  /\ (3 < Z.of_N (len (b_ "hello")))%Z
  /\ encrypt no_unicode no_unicode pyaes.AES_encrypt (s_ "hello") key_a
       (Some 3%Z)
     = Raise (ValueError_cannot_pad (len (b_ "hello")) 3).
Proof.
  split; [reflexivity|]. split; [reflexivity|].
  exact (proj1 (padding_overflow no_unicode no_unicode pyaes.AES_encrypt
                  (s_ "hello") key_a 3%Z (b_ "hello") eq_refl) eq_refl).
Defined.

(** C5 fails on the code: a key followed by a newline is accepted, although
    it has 57 characters and cannot be used as a key. *)
Theorem is_valid_key_accepts_newline :
  is_valid_key (key_a ++ [10]) = true
  /\ key_form (key_a ++ [10]) = false
  /\ length (key_a ++ [10]) = 57%nat
  /\ from_safe_string no_unicode (key_a ++ [10])
     = Raise binascii_Error_padding
  /\ encrypt no_unicode no_unicode pyaes.AES_encrypt (s_ "hello")
       (key_a ++ [10]) None
     = Raise binascii_Error_padding.
Proof. repeat split; vm_compute; reflexivity. Qed.

Lemma generated_key_valid_witness :
  length (repeat x00 32) = 32%nat
  /\ exists k,
       to_safe_string no_unicode (repeat x00 32) = Ok k
       /\ key_form k = true /\ is_valid_key k = true.
Proof.
  split; [reflexivity|].
  exact (proj1 (generated_key_valid no_unicode) (repeat x00 32) eq_refl).
Defined.

Lemma format_detection_witness :
  key_form key_a = true
  /\ utf8_encode (s_ "hello") = Ok (b_ "hello")
  /\ exists c,
       encrypt no_unicode no_unicode pyaes.AES_encrypt (s_ "hello") key_a None
       = Ok c
       /\ is_encrypted c = true.
Proof.
  split; [reflexivity|]. split; [reflexivity|].
  exact (proj2 (proj2 (proj2 (format_detection no_unicode no_unicode
                                pyaes.AES_encrypt)))
           (s_ "hello") key_a (b_ "hello") eq_refl eq_refl).
Defined.

Lemma trailing_NUL_stripped_witness :
  key_form key_a = true
  /\ utf8_encode (s_ "hi" ++ [0; 0]) = Ok (b_ "hi" ++ [x00; x00])
  /\ exists stripped n,
       (c <- encrypt no_unicode no_unicode pyaes.AES_encrypt
               (s_ "hi" ++ [0; 0]) key_a None ;;
        decrypt no_unicode pyaes.AES_encrypt c key_a) = Ok stripped
       /\ stripped = rstrip N.eqb [0] (s_ "hi" ++ [0; 0])
       /\ s_ "hi" ++ [0; 0] = stripped ++ repeat 0 n
       /\ no_trailing_NUL stripped
       /\ (forall m,
              un_pad_and_decode ((b_ "hi" ++ [x00; x00]) ++ repeat x00 m)
              = Ok stripped)
       /\ (forall b,
              un_pad_and_decode b = utf8_decode (rstrip byte_eqb [x00] b)).
Proof.
  split; [reflexivity|]. split; [reflexivity|].
  exact (trailing_NUL_stripped no_unicode no_unicode pyaes.AES_encrypt
           AES_encrypt_block_size (s_ "hi" ++ [0; 0]) key_a
           (b_ "hi" ++ [x00; x00]) eq_refl eq_refl).
Defined.

Lemma get_keys_finds_all_keys_witness :
  length (repeat x00 32) = 32%nat
  /\ exists k,
       to_safe_string no_unicode (repeat x00 32) = Ok k
       /\ get_keys (s_ "prefix " ++ k ++ s_ " suffix") = [k].
Proof.
  split; [reflexivity|].
  exact (proj2 (proj2 (get_keys_finds_all_keys no_unicode))
           (repeat x00 32) eq_refl).
Defined.

Lemma is_valid_key_trailing_newline_witness :
  key_form key_a = true
  /\ is_valid_key (key_a ++ [10]) = true
  /\ length (key_a ++ [10]) = 57%nat.
Proof.
  split; [reflexivity|].
  exact (is_valid_key_trailing_newline key_a eq_refl).
Defined.

(** The AES of [pyaes] on the example vectors of FIPS-197, Appendix C. *)
Example AES_128_vector :
  pyaes.AES_encrypt (map (fun i => octet (N.of_nat i)) (seq 0 16))
    (map (fun i => octet (N.of_nat (17 * i))) (seq 0 16))
  = map octet [0x69; 0xc4; 0xe0; 0xd8; 0x6a; 0x7b; 0x04; 0x30;
               0xd8; 0xcd; 0xb7; 0x80; 0x70; 0xb4; 0xc5; 0x5a].
Proof. vm_compute. reflexivity. Qed.

Example AES_192_vector :
  pyaes.AES_encrypt (map (fun i => octet (N.of_nat i)) (seq 0 24))
    (map (fun i => octet (N.of_nat (17 * i))) (seq 0 16))
  = map octet [0xdd; 0xa9; 0x7c; 0xa4; 0x86; 0x4c; 0xdf; 0xe0;
               0x6e; 0xaf; 0x70; 0xa0; 0xec; 0x0d; 0x71; 0x91].
Proof. vm_compute. reflexivity. Qed.

Example AES_256_vector :
  pyaes.AES_encrypt (map (fun i => octet (N.of_nat i)) (seq 0 32))
    (map (fun i => octet (N.of_nat (17 * i))) (seq 0 16))
  = map octet [0x8e; 0xa2; 0xb7; 0xca; 0x51; 0x67; 0x45; 0xbf;
               0xea; 0xfc; 0x49; 0x90; 0x4b; 0x49; 0x60; 0x89].
Proof. vm_compute. reflexivity. Qed.

(** * Further properties *)

(** ** The exceptions of decoding *)

Lemma utf8_decode_raises (b : bytes) (e : exn) :
  utf8_decode b = Raise e -> e = UnicodeDecodeError.
Proof.
  assert (H : forall n (b : bytes), (length b <= n)%nat ->
            utf8_decode b = Raise e -> e = UnicodeDecodeError).
  { clear b. induction n as [|n IH]; intros b Hn.
    - destruct b; [discriminate | simpl in Hn; lia].
    - destruct b as [|b0 t]; [discriminate|].
      cbn [utf8_decode]. cbv zeta.
      repeat match goal with
             | |- context [if ?c then _ else _] => destruct c
             | |- context [match ?t with [] => _ | _ :: _ => _ end] =>
                 is_var t; destruct t
             end;
        try (now intros [= <-]);
        match goal with
        | |- (s <- utf8_decode ?t ;; _) = _ -> _ =>
            destruct (utf8_decode t) eqn:E; cbn [bind];
              [discriminate | intros [= <-]; apply (IH t);
                                [simpl in Hn |- *; lia | assumption]]
        end. }
  now apply (H (length b)).
Qed.

Lemma ascii_encode_raises (s : str) (e : exn) :
  ascii_encode s = Raise e -> e = UnicodeEncodeError.
Proof.
  induction s as [|c s IH]; [discriminate|]. cbn [ascii_encode].
  destruct (c <? 0x80); [|now intros [= <-]].
  destruct (ascii_encode s); cbn [bind]; [discriminate|].
  intros [= <-]. now apply IH.
Qed.

Lemma accumulate_raises (quanta : bytes) (acc : N) (e : exn) :
  base64.accumulate quanta acc = Raise e -> e = binascii_Error_digit.
Proof.
  revert acc. induction quanta as [|c q IH]; intros acc; [discriminate|].
  cbn [base64.accumulate]. destruct (base64._b32rev c); [apply IH|].
  now intros [= <-].
Qed.

Lemma to_bytes_raises (n : N) (size : nat) (e : exn) :
  base64.to_bytes n size = Raise e -> e = OverflowError.
Proof.
  unfold base64.to_bytes. destruct (n <? _); [discriminate|].
  now intros [= <-].
Qed.

Lemma decode_quantum_raises (q : bytes) (acc : N)
    (k : bytes -> N -> result (bytes * N)) (e : exn) :
  (forall d a e', k d a = Raise e' -> decoding_error e' = true) ->
  (a <- base64.accumulate q acc ;; d <- base64.to_bytes a 5 ;; k d a)
  = Raise e ->
  decoding_error e = true.
Proof.
  intros Hk. destruct (base64.accumulate q acc) as [a|e1] eqn:E1; cbn [bind].
  - destruct (base64.to_bytes a 5) as [d|e2] eqn:E2; cbn [bind].
    + apply Hk.
    + intros [= <-]. now rewrite (to_bytes_raises _ _ _ E2).
  - intros [= <-]. now rewrite (accumulate_raises _ _ _ E1).
Qed.

Lemma decode_quanta_raises (s : bytes) (acc : N) (e : exn) :
  base64.decode_quanta s acc = Raise e -> decoding_error e = true.
Proof.
  assert (H : forall n (s : bytes), (length s <= n)%nat -> forall acc e,
            base64.decode_quanta s acc = Raise e -> decoding_error e = true).
  { clear s acc e. induction n as [|n IH]; intros s Hn acc e.
    - destruct s; [discriminate | simpl in Hn; lia].
    - destruct s as [|c0 [|c1 [|c2 [|c3 [|c4 [|c5 [|c6 [|c7 rest]]]]]]]];
        cbn [base64.decode_quanta]; try discriminate;
        apply decode_quantum_raises; try (intros; discriminate).
      intros d a e'.
      destruct (base64.decode_quanta rest a) eqn:E; cbn [bind];
        [discriminate|].
      intros [= <-]. apply (IH rest ltac:(simpl in Hn; lia) a _ E). }
  now apply (H (length s)).
Qed.

Lemma b32decode_raises (s : bytes) (e : exn) :
  base64.b32decode s = Raise e -> decoding_error e = true.
Proof.
  unfold base64.b32decode. destruct (negb _); [now intros [= <-]|].
  cbv zeta.
  destruct (base64.decode_quanta _ 0) as [r|e1] eqn:E; cbn [bind].
  - destruct (_ || _); [now intros [= <-]|].
    destruct (_ && _); [|discriminate].
    destruct (base64.to_bytes _ 5) eqn:E2; cbn [bind]; [discriminate|].
    intros [= <-]. now rewrite (to_bytes_raises _ _ _ E2).
  - intros [= <-]. now apply (decode_quanta_raises _ _ _ E).
Qed.

Lemma from_safe_string_raises (unicode_upper : str -> str) (s : str)
    (e : exn) :
  from_safe_string unicode_upper s = Raise e -> decoding_error e = true.
Proof.
  unfold from_safe_string.
  destruct (ascii_encode _) eqn:E; cbn [bind].
  - apply b32decode_raises.
  - intros [= <-]. now rewrite (ascii_encode_raises _ _ E).
Qed.

Lemma aes_mode_of_operation_raises (unicode_upper : str -> str) (key : str)
    (e : exn) :
  aes_mode_of_operation unicode_upper key = Raise e ->
  decoding_error e = true \/ e = ValueError_key_size.
Proof.
  unfold aes_mode_of_operation.
  destruct (from_safe_string unicode_upper key) eqn:E; cbn [bind].
  - unfold pyaes.new. destruct (existsb _ _); [discriminate|].
    intros [= <-]. now right.
  - intros [= <-]. left. now apply (from_safe_string_raises _ _ _ E).
Qed.

(** ** The exceptions of [decrypt] and [encrypt] *)

Section Exceptions.

Variable unicode_upper unicode_lower : str -> str.
Variable AES : bytes -> bytes -> bytes.

(** X1.  [decrypt] raises the header [ValueError] exactly when the text
    does not start with the header, whatever the key. *)
Theorem decrypt_header_error (c k : str) :
  decrypt unicode_upper AES c k = Raise ValueError_no_header
  <-> is_encrypted c = false.
Proof.
  unfold decrypt, is_encrypted.
  destruct (startswith N.eqb c HEADER_TEXT); cbn [negb];
    [|split; reflexivity].
  split; [|discriminate]. intros H. exfalso. revert H.
  destruct (from_safe_string unicode_upper _) as [body|e] eqn:E1;
    cbn [bind];
    [|intros [= ->]; now apply from_safe_string_raises in E1].
  destruct (aes_mode_of_operation unicode_upper k) as [mode|e] eqn:E2;
    cbn [bind];
    [|intros [= ->];
      now destruct (aes_mode_of_operation_raises _ _ _ E2)].
  destruct (negb _); [discriminate|].
  unfold un_pad_and_decode. intros H.
  now apply utf8_decode_raises in H.
Qed.

(** X2.  [decrypt] raises [InvalidKeyException] exactly when the header is
    there, the rest and the key decode, and the first 16 decrypted bytes
    are not the sentinel. *)
Theorem decrypt_invalid_key_error (c k : str) :
  decrypt unicode_upper AES c k = Raise InvalidKeyException
  <-> is_encrypted c = true
      /\ exists body mode,
           from_safe_string unicode_upper (skipn (length HEADER_TEXT) c)
           = Ok body
           /\ aes_mode_of_operation unicode_upper k = Ok mode
           /\ firstn 16 (fst (pyaes.decrypt AES mode body))
              <> PLAINTEXT_PADDING.
Proof.
  unfold decrypt, is_encrypted.
  destruct (startswith N.eqb c HEADER_TEXT); cbn [negb];
    [|split; [discriminate | now intros [? _]]].
  destruct (from_safe_string unicode_upper _) as [body|e] eqn:E1;
    cbn [bind].
  - destruct (aes_mode_of_operation unicode_upper k) as [mode|e] eqn:E2;
      cbn [bind].
    + destruct (startswith byte_eqb _ PLAINTEXT_PADDING) eqn:E3; cbn [negb].
      * split.
        -- unfold un_pad_and_decode. intros H.
           now apply utf8_decode_raises in H.
        -- intros (_ & body' & mode' & [= <-] & [= <-] & Hne).
           apply (startswith_firstn byte_eqb byte_eqb_eq) in E3.
           now elim Hne.
      * split; [|reflexivity]. intros _. split; [reflexivity|].
        exists body, mode. repeat split. intros H.
        change 16%nat with (length PLAINTEXT_PADDING) in H.
        apply (startswith_firstn byte_eqb byte_eqb_eq) in H. congruence.
    + split.
      * intros [= ->]. now destruct (aes_mode_of_operation_raises _ _ _ E2).
      * now intros (_ & ? & ? & _ & ? & _).
  - split.
    + intros [= ->]. now apply from_safe_string_raises in E1.
    + now intros (_ & ? & ? & ? & _).
Qed.

End Exceptions.

Lemma utf8_encode_char_raises (c : N) (e : exn) :
  utf8_encode_char c = Raise e -> e = UnicodeEncodeError.
Proof.
  unfold utf8_encode_char.
  repeat match goal with
         | |- context [if ?b then _ else _] => destruct b
         end; try discriminate; now intros [= <-].
Qed.

Lemma utf8_encode_not_text (s : str) :
  utf8_text s = false -> utf8_encode s = Raise UnicodeEncodeError.
Proof.
  induction s as [|c s IH]; [discriminate|]. cbn [utf8_text forallb].
  fold (utf8_text s). cbn [utf8_encode].
  destruct (utf8_encode_char c) as [ec|e] eqn:Ec; cbn [bind].
  - rewrite (utf8_encode_char_scalar c ec Ec). cbn [andb].
    intros H. now rewrite (IH H).
  - intros _. now rewrite (utf8_encode_char_raises c e Ec).
Qed.

(** X3.  A text with a code point that UTF-8 cannot encode (a surrogate)
    makes [encrypt] raise [UnicodeEncodeError], whatever the key and the
    pad length. *)
Theorem encrypt_unencodable (unicode_upper unicode_lower : str -> str)
    (AES : bytes -> bytes -> bytes) (s k : str) (pad_length : option Z) :
  utf8_text s = false ->
  encrypt unicode_upper unicode_lower AES s k pad_length
  = Raise UnicodeEncodeError.
Proof.
  intros H. unfold encrypt, encode_and_pad.
  now rewrite (utf8_encode_not_text s H).
Qed.

(** ** The shape and the length of safe strings *)

Lemma encoded_length (n : nat) :
  (digit_count n + pad_count (n mod 5) = 8 * ((n + 4) / 5))%nat.
Proof.
  unfold digit_count.
  pose proof (Nat.div_mod_eq n 5) as E.
  pose proof (Nat.mod_upper_bound n 5 ltac:(discriminate)) as B.
  replace ((n + 4) / 5)%nat with ((n mod 5 + 4) / 5 + n / 5)%nat.
  - destruct (n mod 5)%nat as [|[|[|[|[|r]]]]]; cbn; lia.
  - rewrite <- Nat.div_add by discriminate. f_equal. lia.
Qed.

Lemma to_safe_string_length (unicode_lower : str -> str) (b : bytes)
    (k : str) :
  to_safe_string unicode_lower b = Ok k ->
  length k = (8 * ((length b + 4) / 5))%nat.
Proof.
  destruct (b32encode_digits b) as (ds & E & Hds & Hl).
  rewrite (to_safe_string_digits unicode_lower b ds _ E Hds).
  intros E'%Ok_inj. subst k. unfold safe_text.
  rewrite length_app, length_map, repeat_length, Hl. apply encoded_length.
Qed.

(** X4.  [to_safe_string] never raises; the safe string of [n] bytes has
    [8 * ceil(n / 5)] characters, all from [[a-z2-7]] but for the ['9']s
    that end it: none, 6, 4, 3 or 1 for [n mod 5] = 0, 1, 2, 3, 4. *)
Theorem to_safe_string_shape (unicode_lower : str -> str) (b : bytes) :
  exists body,
    to_safe_string unicode_lower b
    = Ok (body ++ repeat 57 (pad_count (length b mod 5)))
    /\ forallb key_class body = true
    /\ (length body + pad_count (length b mod 5)
        = 8 * ((length b + 4) / 5))%nat.
Proof.
  destruct (b32encode_digits b) as (ds & E & Hds & Hl).
  exists (map lower_digit ds). split; [|split].
  - exact (to_safe_string_digits unicode_lower b ds _ E Hds).
  - rewrite forallb_map. apply forallb_forall. intros d Hd.
    rewrite Forall_forall in Hds. apply lower_digit_key_class, Hds, Hd.
  - rewrite length_map, Hl. apply encoded_length.
Qed.

(** X5.  [to_safe_string] is injective: different byte sequences have
    different safe strings. *)
Theorem to_safe_string_injective (unicode_lower : str -> str)
    (b1 b2 : bytes) :
  to_safe_string unicode_lower b1 = to_safe_string unicode_lower b2 ->
  b1 = b2.
Proof.
  intros H.
  pose proof (from_safe_string_to_safe_string no_unicode unicode_lower b1)
    as H1.
  pose proof (from_safe_string_to_safe_string no_unicode unicode_lower b2)
    as H2.
  rewrite H, H2 in H1. now apply Ok_inj in H1.
Qed.

(** ** Keys of any accepted size, and the length of the container *)

Section Sized.

Variable unicode_upper unicode_lower : str -> str.
Variable AES : bytes -> bytes -> bytes.
Hypothesis AES_block_size :
  forall key block, length (AES key block) = 16%nat.

Lemma new_mode_sized (kb : bytes) :
  key_size_ok (length kb) = true ->
  pyaes.new kb
  = Ok {| pyaes._key := kb; pyaes._counter := 1;
          pyaes._remaining_counter := [] |}.
Proof. exact (new_mode kb). Qed.

Lemma new_mode_refused (kb : bytes) :
  key_size_ok (length kb) = false -> pyaes.new kb = Raise ValueError_key_size.
Proof.
  unfold key_size_ok, pyaes.new. now intros ->.
Qed.

Lemma safe_ciphertext_sized (kb data_as_bytes : bytes) :
  let ciphertext :=
    pyaes.xor_zip data_as_bytes
      (key_stream AES kb (length data_as_bytes)) in
  exists safe,
    to_safe_string unicode_lower ciphertext = Ok safe
    /\ from_safe_string unicode_upper safe = Ok ciphertext
    /\ length safe = (8 * ((length data_as_bytes + 4) / 5))%nat.
Proof.
  cbv zeta.
  pose proof (encrypt_length AES AES_block_size kb data_as_bytes) as L.
  revert L.
  generalize (pyaes.xor_zip data_as_bytes
                (key_stream AES kb (length data_as_bytes))) as ciphertext.
  intros ciphertext L.
  pose proof (from_safe_string_to_safe_string unicode_upper unicode_lower
                ciphertext) as R.
  destruct (to_safe_string unicode_lower ciphertext) as [safe|] eqn:E;
    [|discriminate]. cbn [bind] in R.
  exists safe. repeat split; [assumption|].
  rewrite <- L. now apply (to_safe_string_length unicode_lower).
Qed.

(** What [encrypt] returns under key material of an accepted size. *)
Lemma encrypt_sized (data key : str) (pad_length : option Z)
    (kb padded : bytes) :
  encode_and_pad data pad_length = Ok padded ->
  from_safe_string unicode_upper key = Ok kb ->
  key_size_ok (length kb) = true ->
  exists safe,
    encrypt unicode_upper unicode_lower AES data key pad_length
    = Ok (HEADER_TEXT ++ safe)
    /\ from_safe_string unicode_upper safe
       = Ok (pyaes.xor_zip (PLAINTEXT_PADDING ++ padded)
               (key_stream AES kb (length (PLAINTEXT_PADDING ++ padded))))
    /\ length safe = (8 * ((16 + length padded + 4) / 5))%nat.
Proof.
  intros Hp Hk Hl.
  destruct (safe_ciphertext_sized kb (PLAINTEXT_PADDING ++ padded))
    as (safe & Hs & Hd & Hlen).
  exists safe. split; [|split; [exact Hd|]].
  - unfold encrypt. rewrite Hp. cbn [bind].
    unfold aes_mode_of_operation. rewrite Hk. cbn [bind].
    rewrite (new_mode_sized kb Hl). cbn [bind].
    rewrite encrypt_fresh, Hs. reflexivity.
  - rewrite Hlen, length_app. reflexivity.
Qed.

(** What [decrypt] computes from what decodes, under such key material. *)
Lemma decrypt_sized (safe key : str) (kb body : bytes) :
  from_safe_string unicode_upper safe = Ok body ->
  from_safe_string unicode_upper key = Ok kb ->
  key_size_ok (length kb) = true ->
  decrypt unicode_upper AES (HEADER_TEXT ++ safe) key
  = let padded_plaintext :=
      pyaes.xor_zip body (key_stream AES kb (length body)) in
    if startswith byte_eqb padded_plaintext PLAINTEXT_PADDING then
      un_pad_and_decode (skipn (length PLAINTEXT_PADDING) padded_plaintext)
    else Raise InvalidKeyException.
Proof.
  intros Hb Hk Hl. unfold decrypt.
  rewrite (startswith_app N.eqb N_eqb_eq'). cbn [negb].
  rewrite skipn_app_exact, Hb.
  cbn [bind]. unfold aes_mode_of_operation. rewrite Hk. cbn [bind].
  rewrite (new_mode_sized kb Hl). cbn [bind].
  unfold pyaes.decrypt. rewrite encrypt_fresh. cbv zeta.
  now destruct (startswith byte_eqb _ PLAINTEXT_PADDING).
Qed.

Lemma decrypt_encrypt_sized (data key : str) (pad_length : option Z)
    (kb e : bytes) (n : nat) :
  from_safe_string unicode_upper key = Ok kb ->
  key_size_ok (length kb) = true ->
  utf8_encode data = Ok e ->
  encode_and_pad data pad_length = Ok (e ++ repeat x00 n) ->
  (c <- encrypt unicode_upper unicode_lower AES data key pad_length ;;
   decrypt unicode_upper AES c key)
  = Ok (rstrip N.eqb [0] data).
Proof.
  intros Hk Hl He Hp.
  destruct (encrypt_sized data key pad_length kb _ Hp Hk Hl)
    as (safe & -> & Hd & _).
  cbn [bind]. rewrite (decrypt_sized safe key kb _ Hd Hk Hl). cbv zeta.
  rewrite (encrypt_length AES AES_block_size).
  rewrite (xor_zip_involutive _ _ (key_stream_length AES AES_block_size _ _)).
  rewrite (startswith_app byte_eqb byte_eqb_eq), skipn_app_exact.
  now apply un_pad_and_decode_padded.
Qed.

(** X6.  [encrypt] does not ask [is_valid_key]: with the safe string of
    [b] as key it works, and [decrypt] undoes it, when [b] has 16, 24 or 32
    bytes; for any other length it raises the [ValueError] of [pyaes]. *)
Theorem encrypt_key_sizes (b : bytes) (s : str) (e : bytes) :
  utf8_encode s = Ok e ->
  exists k,
    to_safe_string unicode_lower b = Ok k
    /\ if key_size_ok (length b) then
         (c <- encrypt unicode_upper unicode_lower AES s k None ;;
          decrypt unicode_upper AES c k) = Ok (rstrip N.eqb [0] s)
       else
         encrypt unicode_upper unicode_lower AES s k None
         = Raise ValueError_key_size.
Proof.
  intros He.
  pose proof (from_safe_string_to_safe_string unicode_upper unicode_lower b)
    as R.
  destruct (to_safe_string unicode_lower b) as [k|] eqn:E; [|discriminate].
  cbn [bind] in R. exists k. split; [reflexivity|].
  destruct (key_size_ok (length b)) eqn:Hs.
  - exact (decrypt_encrypt_sized s k None b e 0 R Hs He
             (encode_and_pad_None s e He)).
  - unfold encrypt. rewrite (encode_and_pad_None s e He). cbn [bind].
    unfold aes_mode_of_operation. rewrite R. cbn [bind].
    now rewrite (new_mode_refused b Hs).
Qed.

(** X7.  The length of the container depends on the pad length only: for
    a key of valid form and a text whose encoding has at most [n] bytes,
    [encrypt(s, k, n)] has [129 + 8 * ceil((16 + n) / 5)] characters. *)
Theorem encrypt_length_hiding (s k : str) (n : Z) (e : bytes) :
  key_form k = true ->
  utf8_encode s = Ok e ->
  (Z.of_N (len e) <= n)%Z ->
  exists c,
    encrypt unicode_upper unicode_lower AES s k (Some n) = Ok c
    /\ length c = (129 + 8 * ((16 + Z.to_nat n + 4) / 5))%nat.
Proof.
  intros Hk He Hn.
  destruct (from_safe_string_key unicode_upper k Hk) as (kb & Ek & Hl).
  destruct (encrypt_sized s k (Some n) kb _
              (encode_and_pad_Some s e n He Hn) Ek
              ltac:(now rewrite Hl)) as (safe & -> & _ & Hlen).
  eexists. split; [reflexivity|].
  rewrite length_app, Hlen, length_app, repeat_length.
  change (length HEADER_TEXT) with 129%nat.
  replace (length e + Z.to_nat (n - Z.of_N (len e)))%nat with (Z.to_nat n)
    by (unfold len in *; lia).
  reflexivity.
Qed.

End Sized.

(** ** What [from_safe_string] accepts *)

Lemma ascii_encode_ascii (s : str) :
  is_ascii s = true -> ascii_encode s = Ok (map octet s).
Proof.
  induction s as [|c s IH]; [reflexivity|]. cbn [is_ascii forallb].
  fold (is_ascii s). rewrite andb_true_iff. intros [Hc Hs].
  cbn [ascii_encode map]. now rewrite Hc, (IH Hs).
Qed.

Lemma ascii_upper_ascii (c : N) :
  (c <? 0x80) = true -> (ascii_upper c <? 0x80) = true.
Proof.
  unfold ascii_upper. rewrite !N.ltb_lt. intros H.
  destruct ((0x61 <=? c) && (c <=? 0x7A)); lia.
Qed.

Lemma ascii_upper_idempotent (c : N) :
  ascii_upper (ascii_upper c) = ascii_upper c.
Proof.
  unfold ascii_upper.
  destruct ((0x61 <=? c) && (c <=? 0x7A)) eqn:E; [|now rewrite E].
  rewrite andb_true_iff, !N.leb_le in E.
  destruct (N.leb_spec 0x61 (c - 0x20)); [lia | reflexivity].
Qed.

Lemma is_ascii_upper (s : str) :
  is_ascii s = true -> is_ascii (map ascii_upper s) = true.
Proof.
  unfold is_ascii. rewrite forallb_map, !forallb_forall.
  intros H c Hc. apply ascii_upper_ascii, H, Hc.
Qed.

Lemma is_ascii_replace (s : str) :
  is_ascii s = true -> is_ascii (replace 57 61 s) = true.
Proof.
  unfold is_ascii, replace. rewrite forallb_map, !forallb_forall.
  intros H c Hc. destruct (c =? 57); [reflexivity | apply H, Hc].
Qed.

Lemma upper_replace (c : N) :
  (if ascii_upper (if c =? 57 then 61 else c) =? 57 then 61
   else ascii_upper (if c =? 57 then 61 else c))
  = (if ascii_upper c =? 57 then 61 else ascii_upper c).
Proof.
  destruct (N.eqb_spec c 57) as [->|Hc]; [reflexivity|].
  reflexivity.
Qed.

Section Lenient.

Variable unicode_upper : str -> str.

(** X8.  [from_safe_string] reads ASCII text without regard to case, and
    takes ['='] for ['9']: capitals and the pad character of base32 give
    the bytes that the safe string gives. *)
Theorem from_safe_string_lenient (s : str) :
  is_ascii s = true ->
  from_safe_string unicode_upper (upper unicode_upper s)
  = from_safe_string unicode_upper s
  /\ from_safe_string unicode_upper (replace 57 61 s)
     = from_safe_string unicode_upper s.
Proof.
  intros H.
  replace (upper unicode_upper s) with (map ascii_upper s)
    by (unfold upper; now rewrite H).
  unfold from_safe_string, upper.
  rewrite (is_ascii_upper s H), (is_ascii_replace s H), H. split.
  - rewrite map_map.
    now rewrite (map_ext _ _ ascii_upper_idempotent).
  - unfold replace. rewrite !map_map.
    now rewrite (map_ext _ _ upper_replace).
Qed.

(** X9.  An ASCII text whose length is not a multiple of 8 is not a safe
    string: [from_safe_string] raises [binascii.Error('Incorrect
    padding')]. *)
Theorem from_safe_string_length (s : str) :
  is_ascii s = true ->
  (length s mod 8 <> 0)%nat ->
  from_safe_string unicode_upper s = Raise binascii_Error_padding.
Proof.
  intros H Hl. unfold from_safe_string, upper. rewrite H.
  rewrite ascii_encode_ascii
    by (apply is_ascii_replace, is_ascii_upper, H).
  cbn [bind]. unfold base64.b32decode, len, replace.
  rewrite !length_map.
  destruct (N.eqb_spec (N.of_nat (length s) mod 8) 0) as [E|E];
    [|reflexivity].
  exfalso. apply Hl.
  apply (f_equal N.to_nat) in E.
  change 8 with (N.of_nat 8) in E.
  rewrite <- Nat2N.inj_mod, Nat2N.id in E. exact E.
Qed.

End Lenient.

(** ** More on scanning for keys *)

Lemma keys_from_short (s : str) : (length s < 56)%nat -> keys_from s = [].
Proof.
  induction s as [|c s IH]; [reflexivity|]. intros H. cbn [keys_from].
  rewrite key_here_short by assumption. apply IH. simpl in H. lia.
Qed.

Lemma keys_from_skip (s : str) (m : nat) :
  (forall j, (j < m)%nat -> key_here (skipn j s) = false) ->
  keys_from s = keys_from (skipn m s).
Proof.
  revert s. induction m as [|m IH]; intros s H; [reflexivity|].
  destruct s as [|c s]; [reflexivity|]. cbn [keys_from skipn].
  rewrite (H 0%nat ltac:(lia) : key_here (c :: s) = false).
  apply IH. intros j Hj. apply (H (S j)). lia.
Qed.

(** After a key the scan goes on behind it. *)
Lemma keys_from_key (s : str) :
  key_here s = true -> keys_from s = firstn 56 s :: keys_from (skipn 56 s).
Proof.
  intros H. destruct s as [|c s]; [discriminate|].
  cbn [keys_from]. rewrite H. f_equal.
  change (skipn 56 (c :: s)) with (skipn 55 s).
  apply keys_from_skip. intros j Hj.
  change (skipn j s) with (skipn (S j) (c :: s)).
  apply key_here_apart; [assumption | lia].
Qed.

Lemma keys_from_count (s : str) : (56 * length (keys_from s) <= length s)%nat.
Proof.
  assert (H : forall n (s : str), (length s <= n)%nat ->
            (56 * length (keys_from s) <= length s)%nat).
  { clear s. induction n as [|n IH]; intros s Hn.
    - destruct s; simpl in *; lia.
    - destruct (key_here s) eqn:Hk.
      + rewrite (keys_from_key s Hk). cbn [length].
        assert (Hl : (56 <= length s)%nat).
        { unfold key_here in Hk. rewrite !andb_true_iff, Nat.leb_le in Hk.
          tauto. }
        pose proof (IH (skipn 56 s)) as IH'.
        rewrite length_skipn in IH'. specialize (IH' ltac:(lia)). lia.
      + destruct s as [|c s]; [simpl; lia|].
        cbn [keys_from]. rewrite Hk.
        pose proof (IH s ltac:(simpl in Hn; lia)). simpl. lia. }
  now apply (H (length s)).
Qed.

Lemma keys_from_valid (s k : str) : In k (keys_from s) -> key_form k = true.
Proof.
  induction s as [|c s IH]; [contradiction|]. cbn [keys_from].
  destruct (key_here (c :: s)) eqn:Hk; [|exact IH].
  intros [<-|H]; [|now apply IH]. now rewrite key_form_firstn.
Qed.

(** X10.  Every string that [get_keys] returns is a key of valid form,
    which [is_valid_key] accepts; and a document of [n] characters holds at
    most [n / 56] keys. *)
Theorem get_keys_valid (document : str) :
  (forall k, In k (get_keys document) ->
             key_form k = true /\ is_valid_key k = true)
  /\ (56 * length (get_keys document) <= length document)%nat.
Proof.
  rewrite get_keys_occurrences, key_occurrences_keys_from. split.
  - intros k Hk. pose proof (keys_from_valid document k Hk) as H.
    split; [assumption | now apply is_valid_key_form].
  - apply keys_from_count.
Qed.

(** X11.  What [is_valid_key] accepts, [get_keys] finds: for an accepted
    string it returns the one key, the first 56 characters; a final newline
    is left out. *)
Theorem get_keys_of_valid_key (key : str) :
  is_valid_key key = true ->
  get_keys key = [firstn 56 key] /\ key_form (firstn 56 key) = true.
Proof.
  intros H. rewrite is_valid_key_eq, andb_true_iff in H.
  destruct H as [Hh Ht].
  rewrite get_keys_occurrences, key_occurrences_keys_from.
  rewrite (keys_from_key key Hh), key_form_firstn. split; [|assumption].
  rewrite keys_from_short; [reflexivity|].
  destruct (skipn 56 key) as [|c [|c' t]]; [simpl; lia .. | discriminate].
Qed.

(** X12.  [is_valid_key] accepts the keys of valid form and the keys of
    valid form followed by one newline, and nothing else. *)
Theorem is_valid_key_iff (key : str) :
  is_valid_key key = true
  <-> key_form key = true
      \/ exists k, key = k ++ [10] /\ key_form k = true.
Proof.
  split; [apply is_valid_key_inv|].
  intros [H|(k & -> & H)];
    [now apply is_valid_key_form | now apply is_valid_key_newline].
Qed.

(** ** One key, two texts *)

Lemma xor_octet_same_key (a b k : byte) :
  octet (N.lxor (ord (octet (N.lxor (ord a) (ord k))))
                (ord (octet (N.lxor (ord b) (ord k)))))
  = octet (N.lxor (ord a) (ord b)).
Proof.
  rewrite !ord_octet_small by (apply lxor_octet; apply ord_bound).
  f_equal.
  rewrite N.lxor_assoc, (N.lxor_comm (ord b) (ord k)).
  rewrite <- (N.lxor_assoc (ord k)), N.lxor_nilpotent, N.lxor_0_l.
  reflexivity.
Qed.

Lemma xor_zip_same_key (a b ks : bytes) :
  length a = length b -> (length a <= length ks)%nat ->
  pyaes.xor_zip (pyaes.xor_zip a ks) (pyaes.xor_zip b ks) = pyaes.xor_zip a b.
Proof.
  revert b ks. induction a as [|x a IH]; intros [|y b] [|k ks] H H';
    simpl in *; try discriminate; try lia; try reflexivity.
  rewrite xor_octet_same_key, IH by lia. reflexivity.
Qed.

Section Reuse.

Variable unicode_upper unicode_lower : str -> str.
Variable AES : bytes -> bytes -> bytes.
Hypothesis AES_block_size :
  forall key block, length (AES key block) = 16%nat.

(** X13.  The key stream starts anew with every call: under one key, the
    ciphertexts of two texts of the same padded length differ exactly
    where the padded texts differ.  Their exclusive-or is 16 zero bytes
    (the two sentinels) followed by the exclusive-or of the padded
    texts. *)
Theorem key_stream_reuse (s1 s2 k : str) (pad1 pad2 : option Z)
    (padded1 padded2 : bytes) :
  key_form k = true ->
  encode_and_pad s1 pad1 = Ok padded1 ->
  encode_and_pad s2 pad2 = Ok padded2 ->
  length padded1 = length padded2 ->
  exists safe1 safe2 ciphertext1 ciphertext2,
    encrypt unicode_upper unicode_lower AES s1 k pad1
    = Ok (HEADER_TEXT ++ safe1)
    /\ encrypt unicode_upper unicode_lower AES s2 k pad2
       = Ok (HEADER_TEXT ++ safe2)
    /\ from_safe_string unicode_upper safe1 = Ok ciphertext1
    /\ from_safe_string unicode_upper safe2 = Ok ciphertext2
    /\ pyaes.xor_zip ciphertext1 ciphertext2
       = repeat x00 16 ++ pyaes.xor_zip padded1 padded2.
Proof.
  intros Hk H1 H2 Hl.
  destruct (from_safe_string_key unicode_upper k Hk) as (kb & Ek & Hkb).
  assert (Hs : key_size_ok (length kb) = true) by (now rewrite Hkb).
  destruct (encrypt_sized unicode_upper unicode_lower AES AES_block_size
              s1 k pad1 kb padded1 H1 Ek Hs) as (safe1 & E1 & D1 & _).
  destruct (encrypt_sized unicode_upper unicode_lower AES AES_block_size
              s2 k pad2 kb padded2 H2 Ek Hs) as (safe2 & E2 & D2 & _).
  exists safe1, safe2. do 2 eexists.
  split; [exact E1|]. split; [exact E2|].
  split; [exact D1|]. split; [exact D2|].
  assert (L : length (PLAINTEXT_PADDING ++ padded2)
              = length (PLAINTEXT_PADDING ++ padded1))
    by (rewrite !length_app; lia).
  rewrite L.
  rewrite xor_zip_same_key;
    [| rewrite !length_app; lia
     | apply (key_stream_length AES AES_block_size) ].
  now rewrite xor_zip_app by reflexivity.
Qed.

End Reuse.

(** ** What [decrypt] returns *)

Lemma rstrip_idempotent {A} (eqb : A -> A -> bool) (chars x : list A) :
  rstrip eqb chars (rstrip eqb chars x) = rstrip eqb chars x.
Proof.
  induction x as [|c x IH]; [reflexivity|]. cbn [rstrip].
  destruct (rstrip eqb chars x) as [|k kept] eqn:E.
  - destruct (existsb (eqb c) chars) eqn:Hc; [reflexivity|].
    cbn [rstrip]. now rewrite Hc.
  - change (rstrip eqb chars (c :: k :: kept))
      with (match rstrip eqb chars (k :: kept) with
            | [] => if existsb (eqb c) chars then [] else [c]
            | kept' => c :: kept'
            end).
    now rewrite IH.
Qed.

(** The strict decoder accepts nothing but encodings. *)
Lemma utf8_encode_char_1 (b0 : byte) :
  ord b0 < 0x80 -> utf8_encode_char (ord b0) = Ok [b0].
Proof.
  intros H. unfold utf8_encode_char.
  destruct (N.ltb_spec (ord b0) 0x80); [|lia]. now rewrite octet_ord.
Qed.

Lemma continuation_bounds (b : byte) :
  is_continuation b = true -> 0x80 <= ord b < 0xC0.
Proof.
  unfold is_continuation. rewrite andb_true_iff, N.leb_le, N.ltb_lt. tauto.
Qed.

Lemma utf8_encode_char_2 (b0 b1 : byte) :
  0xC0 <= ord b0 < 0xE0 -> is_continuation b1 = true ->
  0x80 <= (ord b0 - 0xC0) * 64 + payload b1 ->
  utf8_encode_char ((ord b0 - 0xC0) * 64 + payload b1) = Ok [b0; b1].
Proof.
  intros H0 H1%continuation_bounds Hc. unfold payload in *.
  set (c := (ord b0 - 0xC0) * 64 + (ord b1 - 0x80)) in *.
  assert (Q : c / 64 = ord b0 - 0xC0) by (unfold c; lia).
  assert (R : c mod 64 = ord b1 - 0x80) by (unfold c; lia).
  unfold utf8_encode_char.
  destruct (N.ltb_spec c 0x80); [lia|].
  destruct (N.ltb_spec c 0x800); [|unfold c in *; lia].
  rewrite Q, R. repeat f_equal; apply octet_eq; lia.
Qed.

Lemma utf8_encode_char_3 (b0 b1 b2 : byte) :
  0xE0 <= ord b0 < 0xF0 ->
  is_continuation b1 = true -> is_continuation b2 = true ->
  let c := (ord b0 - 0xE0) * 4096 + payload b1 * 64 + payload b2 in
  0x800 <= c -> negb ((0xD800 <=? c) && (c <=? 0xDFFF)) = true ->
  utf8_encode_char c = Ok [b0; b1; b2].
Proof.
  intros H0 H1%continuation_bounds H2%continuation_bounds c Hc Hs.
  unfold payload in *.
  assert (Q : c / 4096 = ord b0 - 0xE0) by (unfold c; lia).
  assert (Q' : c / 64 = (ord b0 - 0xE0) * 64 + (ord b1 - 0x80))
    by (unfold c; lia).
  assert (R : c mod 64 = ord b2 - 0x80) by (unfold c; lia).
  assert (R' : (c / 64) mod 64 = ord b1 - 0x80) by (rewrite Q'; lia).
  apply negb_true_iff in Hs.
  unfold utf8_encode_char.
  destruct (N.ltb_spec c 0x80); [lia|].
  destruct (N.ltb_spec c 0x800); [lia|].
  destruct (N.ltb_spec c 0x10000); [|unfold c in *; lia].
  rewrite Hs, Q, R, R'. clear - H0 H1 H2.
  repeat f_equal; apply octet_eq; lia.
Qed.

Lemma utf8_encode_char_4 (b0 b1 b2 b3 : byte) :
  0xF0 <= ord b0 < 0xF8 ->
  is_continuation b1 = true -> is_continuation b2 = true ->
  is_continuation b3 = true ->
  let c := (ord b0 - 0xF0) * 262144 + payload b1 * 4096
           + payload b2 * 64 + payload b3 in
  0x10000 <= c -> c < 0x110000 ->
  utf8_encode_char c = Ok [b0; b1; b2; b3].
Proof.
  intros H0 H1%continuation_bounds H2%continuation_bounds
    H3%continuation_bounds c Hc Hm.
  unfold payload in *.
  assert (Q : c / 262144 = ord b0 - 0xF0) by (unfold c; lia).
  assert (Q' : c / 4096 = (ord b0 - 0xF0) * 64 + (ord b1 - 0x80))
    by (unfold c; lia).
  assert (Q'' : c / 64
                = (ord b0 - 0xF0) * 4096 + (ord b1 - 0x80) * 64
                  + (ord b2 - 0x80)) by (unfold c; lia).
  assert (R : c mod 64 = ord b3 - 0x80) by (unfold c; lia).
  assert (R' : (c / 64) mod 64 = ord b2 - 0x80)
    by (rewrite Q''; clear - H0 H1 H2; lia).
  assert (R'' : (c / 4096) mod 64 = ord b1 - 0x80)
    by (rewrite Q'; clear - H0 H1; lia).
  unfold utf8_encode_char.
  destruct (N.ltb_spec c 0x80); [lia|].
  destruct (N.ltb_spec c 0x800); [lia|].
  destruct (N.ltb_spec c 0x10000); [lia|].
  destruct (N.ltb_spec c 0x110000); [|lia].
  rewrite Q, R, R', R''. clear - H0 H1 H2 H3.
  repeat f_equal; apply octet_eq; lia.
Qed.

Lemma utf8_encode_decode (b : bytes) (s : str) :
  utf8_decode b = Ok s -> utf8_encode s = Ok b.
Proof.
  assert (H : forall n (b : bytes) s, (length b <= n)%nat ->
            utf8_decode b = Ok s -> utf8_encode s = Ok b).
  { clear b s. induction n as [|n IH]; intros b s Hn.
    - destruct b; [intros E%Ok_inj; now subst | simpl in Hn; lia].
    - destruct b as [|b0 t]; [intros E%Ok_inj; now subst|].
      cbn [utf8_decode]. cbv zeta.
      destruct (N.ltb_spec (ord b0) 0x80) as [L1|L1].
      { destruct (utf8_decode t) as [s'|] eqn:E; cbn [bind]; [|discriminate].
        intros E'%Ok_inj; subst s. cbn [utf8_encode].
        rewrite (utf8_encode_char_1 b0 L1). cbn [bind].
        rewrite (IH t s') by (simpl in Hn; lia || assumption).
        reflexivity. }
      destruct (N.ltb_spec (ord b0) 0xC0) as [L2|L2]; [discriminate|].
      destruct (N.ltb_spec (ord b0) 0xE0) as [L3|L3].
      { destruct t as [|b1 t1]; [discriminate|].
        destruct (is_continuation b1) eqn:C1; [|discriminate].
        cbn [andb].
        destruct (N.leb_spec 0x80 ((ord b0 - 0xC0) * 64 + payload b1))
          as [M|M]; [|discriminate].
        destruct (utf8_decode t1) as [s'|] eqn:E; cbn [bind]; [|discriminate].
        intros E'%Ok_inj; subst s. cbn [utf8_encode].
        rewrite (utf8_encode_char_2 b0 b1) by (assumption || lia).
        cbn [bind].
        rewrite (IH t1 s') by (simpl in Hn; lia || assumption).
        reflexivity. }
      destruct (N.ltb_spec (ord b0) 0xF0) as [L4|L4].
      { destruct t as [|b1 [|b2 t2]]; try discriminate.
        destruct (is_continuation b1) eqn:C1; [|discriminate].
        destruct (is_continuation b2) eqn:C2; [|discriminate].
        cbn [andb].
        destruct (N.leb_spec 0x800
                    ((ord b0 - 0xE0) * 4096 + payload b1 * 64 + payload b2))
          as [M|M]; [|discriminate].
        cbn [andb].
        destruct (negb _) eqn:Hs; [|discriminate].
        destruct (utf8_decode t2) as [s'|] eqn:E; cbn [bind]; [|discriminate].
        intros E'%Ok_inj; subst s. cbn [utf8_encode].
        rewrite (utf8_encode_char_3 b0 b1 b2) by (assumption || lia).
        cbn [bind].
        rewrite (IH t2 s') by (simpl in Hn; lia || assumption).
        reflexivity. }
      destruct (N.ltb_spec (ord b0) 0xF8) as [L5|L5]; [|discriminate].
      destruct t as [|b1 [|b2 [|b3 t3]]]; try discriminate.
      destruct (is_continuation b1) eqn:C1; [|discriminate].
      destruct (is_continuation b2) eqn:C2; [|discriminate].
      destruct (is_continuation b3) eqn:C3; [|discriminate].
      cbn [andb].
      destruct (N.leb_spec 0x10000
                  ((ord b0 - 0xF0) * 262144 + payload b1 * 4096
                   + payload b2 * 64 + payload b3)) as [M|M]; [|discriminate].
      cbn [andb].
      destruct (N.ltb_spec ((ord b0 - 0xF0) * 262144 + payload b1 * 4096
                            + payload b2 * 64 + payload b3) 0x110000)
        as [M'|M']; [|discriminate].
      destruct (utf8_decode t3) as [s'|] eqn:E; cbn [bind]; [|discriminate].
      intros E'%Ok_inj; subst s. cbn [utf8_encode].
      rewrite (utf8_encode_char_4 b0 b1 b2 b3) by (assumption || lia).
      cbn [bind].
      rewrite (IH t3 s') by (simpl in Hn; lia || assumption).
      reflexivity. }
  now apply (H (length b)).
Qed.

Lemma rstrip_x00_spec (b : bytes) :
  exists n, b = rstrip byte_eqb [x00] b ++ repeat x00 n.
Proof.
  induction b as [|c b (n & E)]; [now exists 0%nat|].
  cbn [rstrip]. destruct (rstrip byte_eqb [x00] b) as [|k kept] eqn:R.
  - cbn [existsb]. rewrite orb_false_r.
    destruct (byte_eqb c x00) eqn:Hc.
    + apply byte_eqb_eq in Hc. subst c. exists (S n). now rewrite E at 1.
    + exists n. now rewrite E at 1.
  - exists n. now rewrite E at 1.
Qed.

Lemma un_pad_and_decode_Ok (padded : bytes) (s : str) :
  un_pad_and_decode padded = Ok s ->
  no_trailing_NUL s
  /\ exists e n, utf8_encode s = Ok e /\ padded = e ++ repeat x00 n.
Proof.
  unfold un_pad_and_decode. intros H.
  pose proof (utf8_encode_decode _ _ H) as E.
  pose proof (rstrip_NUL_encode s _ E) as E'.
  rewrite rstrip_idempotent in E'.
  apply utf8_decode_encode in E'. rewrite H in E'. apply Ok_inj in E'.
  split.
  - destruct (rstrip_NUL_spec s) as (n & _ & Hn). now rewrite <- E' in Hn.
  - destruct (rstrip_x00_spec padded) as (n & Hn). now eauto.
Qed.

(** X14.  What [un_pad_and_decode] accepts: it returns [s] exactly for the
    UTF-8 encoding of [s] followed by any number of NUL bytes, and only for a
    text [s] that does not end in NUL. *)
Theorem un_pad_and_decode_iff (padded : bytes) (s : str) :
  un_pad_and_decode padded = Ok s
  <-> no_trailing_NUL s
      /\ exists e n, utf8_encode s = Ok e /\ padded = e ++ repeat x00 n.
Proof.
  split; [apply un_pad_and_decode_Ok|].
  intros (Hs & e & n & He & ->).
  rewrite (un_pad_and_decode_padded s e n He).
  now rewrite rstrip_no_trailing_NUL.
Qed.

Section Returned.

Variables unicode_upper : str -> str.
Variable AES : bytes -> bytes -> bytes.

(** X15.  Whatever ciphertext and key [decrypt] is given, a text it returns
    is a sequence of Unicode scalar values that does not end in NUL. *)
Theorem decrypt_returns_text (c k s : str) :
  decrypt unicode_upper AES c k = Ok s ->
  utf8_text s = true /\ no_trailing_NUL s.
Proof.
  unfold decrypt.
  destruct (negb _); [discriminate|]. cbv zeta.
  destruct (from_safe_string _ _); cbn [bind]; [|discriminate].
  destruct (aes_mode_of_operation _ _); cbn [bind]; [|discriminate].
  destruct (negb _); [discriminate|].
  intros H. apply un_pad_and_decode_Ok in H.
  destruct H as (Hs & e & n & He & _).
  split; [now apply (utf8_encode_text s e) | assumption].
Qed.

End Returned.

(** ** The key material of a key *)

Lemma app_inj_length {A} (x x' y y' : list A) :
  length x = length x' -> x ++ y = x' ++ y' -> x = x' /\ y = y'.
Proof.
  revert x'. induction x as [|a x IH]; intros [|a' x']; try discriminate.
  - now intros _ H.
  - intros [= Hl] [= -> H]. destruct (IH x' Hl H) as [-> ->]. now split.
Qed.

Lemma concat_quanta_inj (qs qs' : list bytes) :
  Forall quantum qs -> Forall quantum qs' ->
  concat qs = concat qs' -> qs = qs'.
Proof.
  intros H. revert qs'. induction H as [|q qs Hq _ IH]; intros qs' H' E.
  - destruct H' as [|q' qs' Hq' _]; [reflexivity|].
    destruct q'; [discriminate Hq' | discriminate E].
  - destruct H' as [|q' qs' Hq' H'].
    + destruct q; [discriminate Hq | discriminate E].
    + cbn [concat] in E.
      assert (Hl : length q = length q') by (unfold quantum in *; congruence).
      destruct (app_inj_length q q' _ _ Hl E) as [-> E'].
      f_equal. now apply IH.
Qed.

(** The bytes of 52 digits and four pad characters: the 30 bytes of the
    first 48 digits, then the 16 high bits of the 20 bits of the last
    four. *)
Lemma b32decode_key_bytes (front : list N) :
  Forall (fun d => d < 32) front -> length front = 48%nat ->
  exists qs,
    Forall quantum qs /\ length qs = 6%nat
    /\ front = flat_map quantum_digits qs
    /\ forall r0 r1 r2 r3,
         r0 < 32 -> r1 < 32 -> r2 < 32 -> r3 < 32 ->
         base64.b32decode
           (map alpha (front ++ [r0; r1; r2; r3]) ++ repeat "="%byte 4)
         = Ok (concat qs
               ++ [octet ((((r0 * 32 + r1) * 32 + r2) * 2 + r3 / 16) / 256);
                   octet (((r0 * 32 + r1) * 32 + r2) * 2 + r3 / 16)]).
Proof.
  intros Hf Hl.
  destruct (digit_groups front Hf) as (qs & rest & E & Hq & Hr & _ & El).
  assert (Hqs : length qs = 6%nat) by lia.
  assert (Hrest : rest = [])
    by (destruct rest; [reflexivity | simpl in *; lia]).
  subst rest. rewrite app_nil_r in E.
  exists qs. split; [assumption|]. split; [assumption|].
  split; [assumption|]. intros r0 r1 r2 r3 Hr0 Hr1 Hr2 Hr3.
  assert (Hds : Forall (fun d => d < 32) (front ++ [r0; r1; r2; r3])).
  { apply Forall_app. split; [assumption|]. now repeat constructor. }
  unfold base64.b32decode.
  rewrite (rstrip_pad_digits _ 4 Hds), len_app, len_map, len_repeat.
  assert (Hlen : len (front ++ [r0; r1; r2; r3]) = 52).
  { unfold len. rewrite length_app, Hl. reflexivity. }
  rewrite Hlen.
  change ((52 + N.of_nat 4) mod 8 =? 0) with true.
  change (52 + N.of_nat 4 - 52) with 4.
  cbn [negb orb existsb N.eqb Pos.eqb andb].
  rewrite E at 1. rewrite map_app.
  destruct (decode_quanta_full qs (map alpha [r0; r1; r2; r3]) 0 Hq)
    as [a0 ->].
  rewrite decode_quanta_short by (simpl; (discriminate || lia)).
  rewrite accumulate_alpha by now repeat constructor.
  cbn [fold_left bind].
  set (a := (((0 * 32 + r0) * 32 + r1) * 32 + r2) * 32 + r3).
  assert (Ha : a < 1048576) by (unfold a; lia).
  rewrite (to_bytes_5 a) by (change (2 ^ 40) with 1099511627776; lia).
  cbn [bind fst snd]. rewrite len_app_cons. cbn [negb].
  rewrite N.shiftl_mul_pow2. change (2 ^ (5 * 4)) with 1048576.
  rewrite (to_bytes_5 (a * 1048576))
    by (change (2 ^ 40) with 1099511627776; lia).
  cbn [bind].
  change (N.to_nat ((43 - 5 * 4) / 8)) with 2%nat.
  rewrite set_tail_app by (simpl; lia).
  cbn [length firstn Nat.sub app].
  assert (H1 : a * 1048576 / 256 / 256 / 256 / 256
               = (((r0 * 32 + r1) * 32 + r2) * 2 + r3 / 16) / 256)
    by (unfold a; clear - Hr0 Hr1 Hr2 Hr3; lia).
  assert (H2 : a * 1048576 / 256 / 256 / 256
               = ((r0 * 32 + r1) * 32 + r2) * 2 + r3 / 16)
    by (unfold a; clear - Hr0 Hr1 Hr2 Hr3; lia).
  rewrite H1, H2. reflexivity.
Qed.

Lemma lower_digit_inj (d d' : N) :
  d < 32 -> d' < 32 -> lower_digit d = lower_digit d' -> d = d'.
Proof.
  intros Hd Hd' E.
  pose proof (proj1 (proj2 (proj2 (proj2 (lower_digit_codec d Hd))))) as A.
  pose proof (proj1 (proj2 (proj2 (proj2 (lower_digit_codec d' Hd'))))) as A'.
  rewrite E, A' in A.
  pose proof (b32rev_alpha d Hd) as R. rewrite <- A, (b32rev_alpha d' Hd') in R.
  congruence.
Qed.

Lemma map_lower_digit_inj (ds ds' : list N) :
  Forall (fun d => d < 32) ds -> Forall (fun d => d < 32) ds' ->
  map lower_digit ds = map lower_digit ds' -> ds = ds'.
Proof.
  intros H. revert ds'. induction H as [|d ds Hd _ IH]; intros ds' H' E.
  - destruct ds'; [reflexivity | discriminate].
  - destruct H' as [|d' ds' Hd' H']; [discriminate|].
    injection E as E1 E2. f_equal; [now apply lower_digit_inj | now apply IH].
Qed.

Lemma key_form_parts (k : str) :
  key_form k = true ->
  exists front r0 r1 r2 r3,
    k = safe_text (front ++ [r0; r1; r2; r3]) 4
    /\ Forall (fun d => d < 32) front /\ length front = 48%nat
    /\ r0 < 32 /\ r1 < 32 /\ r2 < 32 /\ r3 < 32.
Proof.
  intros (ds & -> & Hds & Hl)%key_form_digits.
  rewrite <- (firstn_skipn 48 ds) in Hds |- *.
  apply Forall_app in Hds. destruct Hds as [Hf Hr].
  pose proof (length_skipn 48 ds) as Ls. rewrite Hl in Ls.
  destruct (skipn 48 ds) as [|r0 [|r1 [|r2 [|r3 [|r4 rest]]]]];
    try discriminate Ls.
  exists (firstn 48 ds), r0, r1, r2, r3.
  apply Forall_cons_iff in Hr. destruct Hr as [Hr0 Hr].
  apply Forall_cons_iff in Hr. destruct Hr as [Hr1 Hr].
  apply Forall_cons_iff in Hr. destruct Hr as [Hr2 Hr].
  apply Forall_cons_iff in Hr. destruct Hr as [Hr3 _].
  repeat split; try assumption.
  rewrite length_firstn. lia.
Qed.

Lemma safe_text_parts (front : list N) (r0 r1 r2 r3 : N) :
  length front = 48%nat ->
  firstn 51 (safe_text (front ++ [r0; r1; r2; r3]) 4)
  = map lower_digit (front ++ [r0; r1; r2])
  /\ nth 51 (safe_text (front ++ [r0; r1; r2; r3]) 4) 0 = lower_digit r3.
Proof.
  intros Hl. unfold safe_text. rewrite !map_app.
  split.
  - rewrite <- app_assoc, firstn_app, length_map, Hl.
    rewrite firstn_all2 by (rewrite length_map; lia). reflexivity.
  - rewrite <- app_assoc, app_nth2 by (rewrite length_map; lia).
    rewrite length_map, Hl. reflexivity.
Qed.

Lemma key_tail_value (r0 r1 r2 r3 r0' r1' r2' r3' : N) :
  r0 < 32 -> r1 < 32 -> r2 < 32 -> r3 < 32 ->
  r0' < 32 -> r1' < 32 -> r2' < 32 -> r3' < 32 ->
  [octet ((((r0 * 32 + r1) * 32 + r2) * 2 + r3 / 16) / 256);
   octet (((r0 * 32 + r1) * 32 + r2) * 2 + r3 / 16)]
  = [octet ((((r0' * 32 + r1') * 32 + r2') * 2 + r3' / 16) / 256);
     octet (((r0' * 32 + r1') * 32 + r2') * 2 + r3' / 16)] ->
  r0 = r0' /\ r1 = r1' /\ r2 = r2' /\ r3 / 16 = r3' / 16.
Proof.
  intros H0 H1 H2 H3 H0' H1' H2' H3'.
  assert (Q : r3 / 16 < 2) by lia.
  assert (Q' : r3' / 16 < 2) by lia.
  revert Q Q'. generalize (r3 / 16) (r3' / 16). clear H3 H3' r3 r3'.
  intros q q' Q Q' [= E1 E2].
  apply (f_equal ord) in E1, E2. rewrite !ord_octet in E1, E2.
  set (a := ((r0 * 32 + r1) * 32 + r2) * 2 + q) in *.
  set (a' := ((r0' * 32 + r1') * 32 + r2') * 2 + q') in *.
  assert (Ha : a < 65536) by (unfold a; lia).
  assert (Ha' : a' < 65536) by (unfold a'; lia).
  assert (E : a = a') by (clearbody a a'; lia).
  unfold a, a' in E. clear - E H0 H1 H2 H0' H1' H2' Q Q'. lia.
Qed.

Section KeyMaterial.

Variable unicode_upper : str -> str.

(** X16.  Two keys of valid form have the same key material exactly when
    they agree on their first 51 characters and on the high bit of the
    digit of the 52nd: the four low bits of that digit are not decoded. *)
Theorem key_material_aliases (k1 k2 : str) :
  key_form k1 = true -> key_form k2 = true ->
  exists d1 d2,
    d1 < 32 /\ d2 < 32
    /\ nth 51 k1 0 = lower_digit d1 /\ nth 51 k2 0 = lower_digit d2
    /\ (from_safe_string unicode_upper k1 = from_safe_string unicode_upper k2
        <-> firstn 51 k1 = firstn 51 k2 /\ d1 / 16 = d2 / 16).
Proof.
  intros (f1 & a1 & b1 & c1 & d1 & -> & Hf1 & Hl1 & Ha1 & Hb1 & Hc1 & Hd1)
           %key_form_parts
         (f2 & a2 & b2 & c2 & d2 & -> & Hf2 & Hl2 & Ha2 & Hb2 & Hc2 & Hd2)
           %key_form_parts.
  exists d1, d2.
  destruct (safe_text_parts f1 a1 b1 c1 d1 Hl1) as [F1 N1].
  destruct (safe_text_parts f2 a2 b2 c2 d2 Hl2) as [F2 N2].
  rewrite F1, F2, N1, N2.
  repeat (split; [assumption || reflexivity|]).
  assert (B1 : Forall (fun d => d < 32) (f1 ++ [a1; b1; c1])).
  { apply Forall_app. split; [assumption|]. now repeat constructor. }
  assert (B2 : Forall (fun d => d < 32) (f2 ++ [a2; b2; c2])).
  { apply Forall_app. split; [assumption|]. now repeat constructor. }
  assert (D1 : Forall (fun d => d < 32) (f1 ++ [a1; b1; c1; d1])).
  { apply Forall_app. split; [assumption|]. now repeat constructor. }
  assert (D2 : Forall (fun d => d < 32) (f2 ++ [a2; b2; c2; d2])).
  { apply Forall_app. split; [assumption|]. now repeat constructor. }
  rewrite (from_safe_string_digits unicode_upper _ 4 D1).
  rewrite (from_safe_string_digits unicode_upper _ 4 D2).
  destruct (b32decode_key_bytes f1 Hf1 Hl1) as (qs1 & Hq1 & Hn1 & E1 & K1).
  destruct (b32decode_key_bytes f2 Hf2 Hl2) as (qs2 & Hq2 & Hn2 & E2 & K2).
  split.
  - rewrite (K1 a1 b1 c1 d1), (K2 a2 b2 c2 d2) by assumption.
    intros E%Ok_inj.
    apply app_inj_length in E;
      [|now rewrite !quanta_length, Hn1, Hn2 by assumption].
    destruct E as [Eq Et].
    apply concat_quanta_inj in Eq; [|assumption..].
    apply key_tail_value in Et; [|assumption..].
    destruct Et as (-> & -> & -> & Ed).
    split; [|exact Ed]. rewrite E1, E2, Eq. reflexivity.
  - intros [Ef Ed].
    apply map_lower_digit_inj in Ef; [|assumption..].
    apply app_inj_length in Ef; [|congruence].
    destruct Ef as [-> [= -> -> ->]].
    rewrite (K1 a2 b2 c2 d1), (K1 a2 b2 c2 d2) by assumption.
    now rewrite Ed.
Qed.

End KeyMaterial.

(** ** Generated keys *)

(** The last digit before the pad characters of an encoding of [5 n + 2]
    bytes holds one bit of the text and four zero bits. *)
Lemma tail_digits_2 (x y : byte) :
  exists t0 t1 t2 t3,
    tail_digits [x; y] = [t0; t1; t2; t3] /\ (t3 = 0 \/ t3 = 16).
Proof.
  unfold tail_digits, quantum_digits, zero_fill.
  cbn [length Nat.sub repeat app pad_count]. rewrite from_bytes_5.
  change (ord x00) with 0. cbn [digits firstn].
  do 4 eexists. split; [reflexivity|].
  pose proof (ord_bound x). pose proof (ord_bound y).
  set (v := ord x * 256 + ord y).
  assert (E : (((v * 256 + 0) * 256 + 0) * 256 + 0) / 32 / 32 / 32 / 32
              = v * 16) by (clearbody v; lia).
  rewrite E. clearbody v. lia.
Qed.

Section Generated.

Variable unicode_upper unicode_lower : str -> str.

(** X17.  A generated key is of valid form, its key material is the 32
    random bytes, and its 52nd character is ['a'] or ['q']: of the 32
    characters that the key pattern accepts there, [generate_key] produces
    two. *)
Theorem generate_key_canonical (urandom : nat -> bytes) :
  length (urandom 32%nat) = 32%nat ->
  exists k,
    generate_key unicode_lower urandom = Ok k
    /\ key_form k = true
    /\ from_safe_string unicode_upper k = Ok (urandom 32%nat)
    /\ (nth 51 k 0 = 97 \/ nth 51 k 0 = 113).
Proof.
  unfold generate_key. generalize (urandom 32%nat) as b. intros b Hb.
  pose proof (from_safe_string_to_safe_string unicode_upper unicode_lower b)
    as R.
  destruct (to_safe_string_key unicode_lower b Hb) as (k & E & Hk & _).
  rewrite E in R. cbn [bind] in R.
  exists k. repeat (split; [assumption|]).
  destruct (quanta_split b) as (qs & tail & -> & Hq & Ht).
  rewrite length_app, (quanta_length qs Hq) in Hb.
  destruct tail as [|x [|y [|z tail]]]; cbn [length] in Hb, Ht;
    try (unfold bytes in *; lia).
  assert (Hn : length qs = 6%nat) by (unfold bytes in *; lia).
  destruct (tail_digits_2 x y) as (t0 & t1 & t2 & t3 & Et & H3).
  pose proof (b32encode_shape qs [x; y] Hq ltac:(simpl; lia)) as S.
  pose proof (tail_digits_bound [x; y]) as Bt.
  rewrite Et in S, Bt. change (pad_count (length [x; y])) with 4%nat in S.
  rewrite (to_safe_string_digits unicode_lower _ _ _ S) in E.
  2:{ apply Forall_app. split; [apply flat_digits_bound | assumption]. }
  apply Ok_inj in E. subst k.
  assert (Hf : length (flat_map quantum_digits qs) = 48%nat)
    by (rewrite flat_digits_length; unfold bytes in *; lia).
  rewrite (proj2 (safe_text_parts _ t0 t1 t2 t3 Hf)).
  destruct H3 as [-> | ->]; [now left | now right].
Qed.

End Generated.

(** ** The further properties on concrete inputs *)

Lemma encrypt_unencodable_witness :
  utf8_text [0x68; 0xD800] = false
  /\ encrypt no_unicode no_unicode pyaes.AES_encrypt [0x68; 0xD800] key_a None
     = Raise UnicodeEncodeError.
Proof.
  split; [reflexivity|].
  exact (encrypt_unencodable no_unicode no_unicode pyaes.AES_encrypt
           [0x68; 0xD800] key_a None eq_refl).
Defined.

Lemma to_safe_string_injective_witness :
  to_safe_string no_unicode (b_ "key") = to_safe_string no_unicode (b_ "key")
  /\ b_ "key" = b_ "key".
Proof.
  split; [reflexivity|].
  exact (to_safe_string_injective no_unicode (b_ "key") (b_ "key") eq_refl).
Defined.

Lemma encrypt_key_sizes_witness :
  utf8_encode (s_ "hello") = Ok (b_ "hello")
  /\ exists k,
       to_safe_string no_unicode (repeat x00 24) = Ok k
       /\ if key_size_ok (length (repeat x00 24)) then
            (c <- encrypt no_unicode no_unicode pyaes.AES_encrypt
                    (s_ "hello") k None ;;
             decrypt no_unicode pyaes.AES_encrypt c k)
            = Ok (rstrip N.eqb [0] (s_ "hello"))
          else
            encrypt no_unicode no_unicode pyaes.AES_encrypt (s_ "hello") k
              None
            = Raise ValueError_key_size.
Proof.
  split; [reflexivity|].
  exact (encrypt_key_sizes no_unicode no_unicode pyaes.AES_encrypt
           AES_encrypt_block_size (repeat x00 24) (s_ "hello") (b_ "hello")
           eq_refl).
Defined.

Lemma encrypt_length_hiding_witness :
  key_form key_a = true
  /\ utf8_encode (s_ "hello") = Ok (b_ "hello")
  /\ (Z.of_N (len (b_ "hello")) <= 64)%Z
  /\ exists c,
       encrypt no_unicode no_unicode pyaes.AES_encrypt (s_ "hello") key_a
         (Some 64%Z) = Ok c
       /\ length c = (129 + 8 * ((16 + Z.to_nat 64 + 4) / 5))%nat.
Proof.
  split; [reflexivity|]. split; [reflexivity|].
  split; [discriminate|].
  exact (encrypt_length_hiding no_unicode no_unicode pyaes.AES_encrypt
           AES_encrypt_block_size (s_ "hello") key_a 64%Z (b_ "hello")
           eq_refl eq_refl ltac:(discriminate)).
Defined.

Lemma from_safe_string_lenient_witness :
  is_ascii key_a = true
  /\ from_safe_string no_unicode (upper no_unicode key_a)
     = from_safe_string no_unicode key_a
  /\ from_safe_string no_unicode (replace 57 61 key_a)
     = from_safe_string no_unicode key_a.
Proof.
  split; [reflexivity|].
  exact (from_safe_string_lenient no_unicode key_a eq_refl).
Defined.

Lemma from_safe_string_length_witness :
  is_ascii (s_ "abc") = true
  /\ (length (s_ "abc") mod 8 <> 0)%nat
  /\ from_safe_string no_unicode (s_ "abc") = Raise binascii_Error_padding.
Proof.
  split; [reflexivity|]. split; [discriminate|].
  exact (from_safe_string_length no_unicode (s_ "abc") eq_refl
           ltac:(discriminate)).
Defined.

Lemma get_keys_of_valid_key_witness :
  is_valid_key (key_a ++ [10]) = true
  /\ get_keys (key_a ++ [10]) = [firstn 56 (key_a ++ [10])]
  /\ key_form (firstn 56 (key_a ++ [10])) = true.
Proof.
  split; [reflexivity|].
  exact (get_keys_of_valid_key (key_a ++ [10]) eq_refl).
Defined.

Lemma key_stream_reuse_witness :
  key_form key_a = true
  /\ encode_and_pad (s_ "hello") None = Ok (b_ "hello")
  /\ encode_and_pad (s_ "world") None = Ok (b_ "world")
  /\ length (b_ "hello") = length (b_ "world")
  /\ exists safe1 safe2 ciphertext1 ciphertext2,
       encrypt no_unicode no_unicode pyaes.AES_encrypt (s_ "hello") key_a
         None = Ok (HEADER_TEXT ++ safe1)
       /\ encrypt no_unicode no_unicode pyaes.AES_encrypt (s_ "world") key_a
            None = Ok (HEADER_TEXT ++ safe2)
       /\ from_safe_string no_unicode safe1 = Ok ciphertext1
       /\ from_safe_string no_unicode safe2 = Ok ciphertext2
       /\ pyaes.xor_zip ciphertext1 ciphertext2
          = repeat x00 16 ++ pyaes.xor_zip (b_ "hello") (b_ "world").
Proof.
  split; [reflexivity|]. split; [reflexivity|]. split; [reflexivity|].
  split; [reflexivity|].
  exact (key_stream_reuse no_unicode no_unicode pyaes.AES_encrypt
           AES_encrypt_block_size (s_ "hello") (s_ "world") key_a None None
           (b_ "hello") (b_ "world") eq_refl eq_refl eq_refl eq_refl).
Defined.

Lemma decrypt_returns_text_witness :
  decrypt no_unicode pyaes.AES_encrypt hello_encrypted key_a
  = Ok (s_ "hello")
  /\ utf8_text (s_ "hello") = true /\ no_trailing_NUL (s_ "hello").
Proof.
  assert (H : decrypt no_unicode pyaes.AES_encrypt hello_encrypted key_a
              = Ok (s_ "hello")) by (vm_compute; reflexivity).
  split; [exact H|].
  exact (decrypt_returns_text no_unicode pyaes.AES_encrypt hello_encrypted
           key_a (s_ "hello") H).
Defined.

Lemma key_material_aliases_witness :
  key_form key_a = true /\ key_form key_ab = true
  /\ exists d1 d2,
       d1 < 32 /\ d2 < 32
       /\ nth 51 key_a 0 = lower_digit d1 /\ nth 51 key_ab 0 = lower_digit d2
       /\ (from_safe_string no_unicode key_a
           = from_safe_string no_unicode key_ab
           <-> firstn 51 key_a = firstn 51 key_ab /\ d1 / 16 = d2 / 16).
Proof.
  split; [reflexivity|]. split; [reflexivity|].
  exact (key_material_aliases no_unicode key_a key_ab eq_refl eq_refl).
Defined.

Lemma generate_key_canonical_witness :
  length (repeat x00 32) = 32%nat
  /\ exists k,
       generate_key no_unicode (fun n => repeat x00 n) = Ok k
       /\ key_form k = true
       /\ from_safe_string no_unicode k = Ok (repeat x00 32)
       /\ (nth 51 k 0 = 97 \/ nth 51 k 0 = 113).
Proof.
  split; [reflexivity|].
  exact (generate_key_canonical no_unicode no_unicode
           (fun n => repeat x00 n) eq_refl).
Defined.
